(** * dataconfig.parsers: rule documents folded into configuration types

    A shallow embedding of [src/dataconfig/parsers.py].  The module walks a
    nested rule document (a Python dictionary obtained from YAML or JSON),
    classifies its key paths, resolves the leaf rules against two registries
    and folds the branches upwards into one configuration type.

    Python values are an inductive type, dictionaries are association lists
    in insertion order, sets are duplicate-free lists whose iteration order
    is a parameter, exceptions and warnings live in a small monad.  A
    document is a tree: an object that a YAML document would share between
    two places is a copy in each, so the in-place updates of the working
    copy are updates of the tree. *)

From Stdlib Require Import List String Ascii ZArith Bool Lia Arith PeanoNat.
From Stdlib Require Import DecimalString DecimalZ Permutation.
Import ListNotations.
Open Scope string_scope.
Open Scope list_scope.

Set Implicit Arguments.
Set Warnings "-register-all".

(** ** Keys, paths and values *)

(** [_Key_t = Union[str, int]]: mapping keys and sequence indices. *)
Inductive key : Type :=
| KStr (s : string)
| KInt (z : Z).

(** [_Path_t = Tuple[_Key_t, ...]] *)
Definition path : Type := list key.

(** Base classes a synthesized type can derive from; the module defines one,
    [_ConfigIO]. *)
Inductive base : Type :=
| ConfigIO.

(** Python objects that occur in a rule document or in its working copy.
    A float is kept as a finite dyadic [mantissa * 2 ^ exponent].  The last
    five constructors are the objects the resolution creates: what
    [getattr(NS.types, n)], [getattr(NS.types, n)[params]] and
    the keyword call of [getattr(NS.types, n)] evaluate to, the classmethod
    made by [make_validator], and the class made by [make_dataconfig]. *)
Inductive pyval : Type :=
| VNone
| VBool (b : bool)
| VInt (z : Z)
| VFloat (mantissa exponent : Z)
| VStr (s : string)
| VList (items : list pyval)
| VTuple (items : list pyval)
| VDict (entries : list (key * pyval))
| VRegType (name : string)
| VParamType (name : string) (params : list pyval)
| VKwType (name : string) (kwargs : list (key * pyval))
| VClassmethod (func : string) (target : key) (opts : pyval)
               (params : list (key * pyval))
| VDataconfig (name : string) (fields : list pyval)
              (namespace : list (key * pyval)) (bases : list base).

Definition key_eqb (a b : key) : bool :=
  match a, b with
  | KStr s, KStr t => String.eqb s t
  | KInt x, KInt y => Z.eqb x y
  | _, _ => false
  end.

Definition key_eq_dec (a b : key) : {a = b} + {a <> b}.
Proof.
  decide equality; [apply string_dec | apply Z.eq_dec].
Defined.

Definition path_eq_dec : forall p q : path, {p = q} + {p <> q} :=
  list_eq_dec key_eq_dec.

Definition path_eqb (p q : path) : bool :=
  if path_eq_dec p q then true else false.

(** A key as a Python object. *)
Definition val_of_key (k : key) : pyval :=
  match k with
  | KStr s => VStr s
  | KInt z => VInt z
  end.

(** ** Exceptions and warnings *)

Inductive exn : Type :=
| AttributeError (what : string)
| TypeError (what : string)
| KeyError (what : string)
| IndexError (what : string)
| PathAccessError (segment : string)
| PathAssignError (segment : string).

(** [warn(f"ambiguous option ignored: {opts}", category=UserWarning)] *)
Inductive warning : Type :=
| UserWarning_ambiguous_option (opts : pyval).

Inductive result (A : Type) : Type :=
| Ok (a : A)
| Err (e : exn).
Arguments Ok {A} a.
Arguments Err {A} e.

(** A computation ends with a value or an exception and has emitted the
    warnings of its second component before that. *)
Definition M (A : Type) : Type := (result A * list warning)%type.

Definition ret {A} (a : A) : M A := (Ok a, []).
Definition raise {A} (e : exn) : M A := (Err e, []).
Definition warn (w : warning) : M unit := (Ok tt, [w]).

Definition bind {A B} (m : M A) (f : A -> M B) : M B :=
  match m with
  | (Ok a, w) => let (r, w') := f a in (r, w ++ w')
  | (Err e, w) => (Err e, w)
  end.

Definition lift {A} (r : result A) : M A := (r, []).

Declare Scope py_scope.
Delimit Scope py_scope with py.
Notation "x <- m ;; k" := (bind m (fun x => k))
  (at level 100, m at next level, right associativity) : py_scope.
Notation "m ;;; k" := (bind m (fun _ => k))
  (at level 100, right associativity) : py_scope.
Open Scope py_scope.

Definition outcome {A} (m : M A) : result A := fst m.
Definition warnings {A} (m : M A) : list warning := snd m.

(** ** Python primitives used by the module *)

(** [bool(v)] *)
Definition truthy (v : pyval) : bool :=
  match v with
  | VNone => false
  | VBool b => b
  | VInt z => negb (Z.eqb z 0)
  | VFloat m _ => negb (Z.eqb m 0)
  | VStr s => negb (String.eqb s "")
  | VList l | VTuple l => match l with [] => false | _ => true end
  | VDict d => match d with [] => false | _ => true end
  | _ => true
  end.

(** [isinstance(v, typing.Sequence)]: lists and tuples, and text strings. *)
Definition is_Sequence (v : pyval) : bool :=
  match v with
  | VStr _ | VList _ | VTuple _ => true
  | _ => false
  end.

(** [isinstance(v, dict)] *)
Definition is_dict (v : pyval) : bool :=
  match v with
  | VDict _ => true
  | _ => false
  end.

Fixpoint chars (s : string) : list pyval :=
  match s with
  | EmptyString => []
  | String c r => VStr (String c EmptyString) :: chars r
  end.

(** [tuple(v)] for a sequence [v]. *)
Definition tuple_of (v : pyval) : result (list pyval) :=
  match v with
  | VList l | VTuple l => Ok l
  | VStr s => Ok (chars s)
  | VDict d => Ok (map (fun kv => val_of_key (fst kv)) d)
  | _ => Err (TypeError "object is not iterable")
  end.

(** Dictionaries keep insertion order; assigning an existing key keeps its
    position. *)
Fixpoint dict_get (d : list (key * pyval)) (k : key) : option pyval :=
  match d with
  | [] => None
  | (k', v) :: r => if key_eqb k' k then Some v else dict_get r k
  end.

Fixpoint dict_set (d : list (key * pyval)) (k : key) (v : pyval)
  : list (key * pyval) :=
  match d with
  | [] => [(k, v)]
  | (k', v') :: r =>
      if key_eqb k' k then (k', v) :: r else (k', v') :: dict_set r k v
  end.

Definition dict_mem (d : list (key * pyval)) (k : key) : bool :=
  match dict_get d k with Some _ => true | None => false end.

(** [dict(pairs)] *)
Definition dict_of_items (items : list (key * pyval)) : list (key * pyval) :=
  fold_left (fun d kv => dict_set d (fst kv) (snd kv)) items [].

(** [x in s] for two strings: substring test. *)
Fixpoint contains (x s : string) : bool :=
  String.prefix x s ||
  match s with
  | EmptyString => false
  | String _ r => contains x r
  end.

Definition is_str (x : string) (v : pyval) : bool :=
  match v with
  | VStr s => String.eqb s x
  | _ => false
  end.

(** [x in v] where [x] is a string. *)
Definition py_in (x : string) (v : pyval) : result bool :=
  match v with
  | VDict d => Ok (dict_mem d (KStr x))
  | VList l | VTuple l => Ok (existsb (is_str x) l)
  | VStr s => Ok (contains x s)
  | _ => Err (TypeError "argument is not iterable")
  end.

(** [v.get(x, default)] *)
Definition py_get (v : pyval) (x : string) (default : pyval) : result pyval :=
  match v with
  | VDict d =>
      Ok (match dict_get d (KStr x) with Some a => a | None => default end)
  | _ => Err (AttributeError "get")
  end.

(** [v[x]] where [x] is a string. *)
Definition py_getitem (v : pyval) (x : string) : result pyval :=
  match v with
  | VDict d =>
      match dict_get d (KStr x) with
      | Some a => Ok a
      | None => Err (KeyError x)
      end
  | _ => Err (TypeError "indices must be integers or object is not subscriptable")
  end.

(** [v[x] = a] where [x] is a string; the object is updated in place, the
    model returns the updated object. *)
Definition py_setitem (v : pyval) (x : string) (a : pyval) : result pyval :=
  match v with
  | VDict d => Ok (VDict (dict_set d (KStr x) a))
  | _ => Err (TypeError "object does not support item assignment")
  end.

(** [v.items()] *)
Definition py_items (v : pyval) : result (list (key * pyval)) :=
  match v with
  | VDict d => Ok d
  | _ => Err (AttributeError "items")
  end.

(** [str(k)] of a key. *)
Definition str_of_key (k : key) : string :=
  match k with
  | KStr s => s
  | KInt z => NilZero.string_of_int (Z.to_int z)
  end.

(** [int(s)] on the decimal literals [str] produces. *)
Definition int_of_str (s : string) : option Z :=
  option_map Z.of_int (NilZero.int_of_string s).

(** [l[i]] with Python's negative indices. *)
Definition seq_index (l : list pyval) (i : Z) : option pyval :=
  let n := Z.of_nat (List.length l) in
  if (i <? 0)%Z
  then if (n + i <? 0)%Z then None else nth_error l (Z.to_nat (n + i))
  else nth_error l (Z.to_nat i).

Fixpoint list_set (l : list pyval) (n : nat) (a : pyval) : option (list pyval) :=
  match l, n with
  | [], _ => None
  | _ :: r, O => Some (a :: r)
  | x :: r, S n' => option_map (cons x) (list_set r n' a)
  end.

Definition seq_assign (l : list pyval) (i : Z) (a : pyval)
  : option (list pyval) :=
  let n := Z.of_nat (List.length l) in
  if (i <? 0)%Z
  then if (n + i <? 0)%Z then None else list_set l (Z.to_nat (n + i)) a
  else list_set l (Z.to_nat i) a.

(** Computations that can raise but never warn. *)
Definition rbind {A B} (r : result A) (f : A -> result B) : result B :=
  match r with
  | Ok a => f a
  | Err e => Err e
  end.

Notation "'let?' x ':=' r 'in' k" := (rbind r (fun x => k))
  (at level 10, x name, r at level 100, k at level 200) : py_scope.

Fixpoint mapR {A B} (f : A -> result B) (l : list A) : result (list B) :=
  match l with
  | [] => Ok []
  | a :: r =>
      let? b := f a in
      let? bs := mapR f r in
      Ok (b :: bs)
  end.

(** A list comprehension with a condition that can raise. *)
Fixpoint filterR {A} (f : A -> result bool) (l : list A) : result (list A) :=
  match l with
  | [] => Ok []
  | a :: r =>
      let? b := f a in
      let? rest := filterR f r in
      Ok (if b then a :: rest else rest)
  end.

(** [functools.reduce(f, xs, init)] *)
Fixpoint reduce {A B} (f : A -> B -> M A) (xs : list B) (init : A) : M A :=
  match xs with
  | [] => ret init
  | x :: r => a <- f init x ;; reduce f r a
  end.

(** [copy.deepcopy]: the working copy is a fresh tree equal to the document;
    values of the model carry no identity, so the copy is the value. *)
Definition deepcopy (v : pyval) : pyval := v.

(** ** Sets of paths

    A Python set is a duplicate-free list here.  The order in which a set is
    iterated is not fixed by Python; the functions that iterate one take the
    order as a parameter [iter]. *)

Definition set_of (l : list path) : list path := nodup path_eq_dec l.

Definition set_mem (p : path) (s : list path) : bool :=
  existsb (path_eqb p) s.

(** [s - t] *)
Definition set_diff (s t : list path) : list path :=
  filter (fun p => negb (set_mem p t)) s.

(** ** The registries and the factory

    [dataconfig.helpers.NS] and [dataconfig.factory] are not part of
    [parsers.py]. *)

(** Modelled from the spec: the registries [NS.types] and [NS.validators],
    "name -> type-constructor lookup" and "name -> factory"; a registry is
    the list of the names it binds, and the object bound to a name is
    identified by that name. *)
Record namespace : Type := {
  NS_types : list string;
  NS_validators : list string
}.

(** [getattr(registry, name)]: the name has to be a string and has to be
    bound. *)
Definition getattr (registry : list string) (name : pyval) : result string :=
  match name with
  | VStr n =>
      if existsb (String.eqb n) registry then Ok n else Err (AttributeError n)
  | _ => Err (TypeError "attribute name must be string")
  end.

Definition key_is_str (k : key) : bool :=
  match k with
  | KStr _ => true
  | KInt _ => false
  end.

(** Unpacking a value as keyword arguments: a mapping with string keys. *)
Definition kwargs_of (v : pyval) : result (list (key * pyval)) :=
  match v with
  | VDict d =>
      if forallb (fun kv => key_is_str (fst kv)) d then Ok d
      else Err (TypeError "keywords must be strings")
  | _ => Err (TypeError "argument after ** must be a mapping")
  end.

(** Modelled from the spec: [dataconfig.factory.make_validator], the
    "validator binding: (target key, factory name, options, params)",
    returned as the one-entry namespace [Dict[str, classmethod]] that
    [_validator] is annotated with, "keyed by its own declared name". *)
Definition make_validator (func : string) (target : key) (opts : pyval)
  (params : list (key * pyval)) : pyval :=
  VDict [(KStr func, VClassmethod func target opts params)].

(** Modelled from the spec: [dataconfig.factory.make_dataconfig], "a new
    composite type bound to the field list and the validator namespace,
    optionally deriving from supplied base capability types". *)
Definition make_dataconfig (name : string) (fields : list pyval)
  (ns : list (key * pyval)) (bases : list base) : pyval :=
  VDataconfig name fields ns bases.

(** The methods a base class provides: [_ConfigIO] reads rules from YAML or
    JSON files and exports an instance to a dictionary or a file. *)
Definition base_methods (b : base) : list string :=
  match b with
  | ConfigIO => ["from_yaml"; "from_json"; "to_dict"; "to_yaml"; "to_json"]
  end.

(** ** glom: access and assignment along a dotted path

    [glom] splits a string spec at the dots and follows the segments: a
    dictionary is indexed by the segment, a list or tuple by the segment read
    as an integer; any other target is asked for an attribute, which the
    objects of the model do not have.  Every segment is followed as a key
    here.  Releases of glom from 23.1 on read the segments [*] and [**] as
    wildcards, so the statements about access and assignment below are
    stated for documents whose keys are no wildcards ([plain_key]). *)

Fixpoint split_dot (s : string) : list string :=
  match s with
  | EmptyString => [EmptyString]
  | String c r =>
      if Ascii.eqb c "."%char then EmptyString :: split_dot r
      else match split_dot r with
           | h :: t => String c h :: t
           | [] => [String c EmptyString]
           end
  end.

Definition glom_get1 (target : pyval) (seg : string) : result pyval :=
  match target with
  | VDict d =>
      match dict_get d (KStr seg) with
      | Some v => Ok v
      | None => Err (PathAccessError seg)
      end
  | VList l | VTuple l =>
      match int_of_str seg with
      | Some i =>
          match seq_index l i with
          | Some v => Ok v
          | None => Err (PathAccessError seg)
          end
      | None => Err (PathAccessError seg)
      end
  | _ => Err (PathAccessError seg)
  end.

Fixpoint glom_get (target : pyval) (segs : list string) : result pyval :=
  match segs with
  | [] => Ok target
  | s :: r => let? t := glom_get1 target s in glom_get t r
  end.

(** [glom(target, spec)] for a string spec. *)
Definition glom (target : pyval) (spec : string) : result pyval :=
  glom_get target (split_dot spec).

(** The assignment at the last segment. *)
Definition glom_set1 (target : pyval) (seg : string) (val : pyval)
  : result pyval :=
  match target with
  | VDict d => Ok (VDict (dict_set d (KStr seg) val))
  | VList l =>
      match int_of_str seg with
      | Some i =>
          match seq_assign l i val with
          | Some l' => Ok (VList l')
          | None => Err (PathAssignError seg)
          end
      | None => Err (PathAssignError seg)
      end
  | _ => Err (PathAssignError seg)
  end.

(** The assignment mutates the object the path leads to; in the tree of the
    model the containers above it are rebuilt around the new child. *)
Definition replace_child (target : pyval) (seg : string) (child : pyval)
  : pyval :=
  match target with
  | VDict d => VDict (dict_set d (KStr seg) child)
  | VList l =>
      match int_of_str seg with
      | Some i =>
          match seq_assign l i child with
          | Some l' => VList l'
          | None => target
          end
      | None => target
      end
  | VTuple l =>
      match int_of_str seg with
      | Some i =>
          match seq_assign l i child with
          | Some l' => VTuple l'
          | None => target
          end
      | None => target
      end
  | _ => target
  end.

Fixpoint glom_assign (target : pyval) (segs : list string) (val : pyval)
  : result pyval :=
  match segs with
  | [] => Err (PathAssignError EmptyString)
  | [s] => glom_set1 target s val
  | s :: r =>
      let? child := glom_get1 target s in
      let? child' := glom_assign child r val in
      Ok (replace_child target s child')
  end.

(** [Coalesce(spec, default=d)]: the value at the path, or [d] when the path
    cannot be followed. *)
Definition Coalesce {A} (r : result pyval) (found : pyval -> A) (default : A)
  : A :=
  match r with
  | Ok v => found v
  | Err _ => default
  end.

(** ** boltons: the traversal of [research]

    [remap] enters the root with path [()] and key [None], then every item
    of every mapping and every element of every sequence with the path of
    its container and its own key or index.  Strings and other objects are
    entered but not traversed.  [research] calls the query at every entry and
    reports [path + (key,)] where it holds. *)

Definition visit : Type := (path * option key * pyval)%type.

Definition enter_path (p : path) (k : option key) : path :=
  match k with
  | Some k' => p ++ [k']
  | None => p
  end.

Fixpoint remap_visits (p : path) (k : option key) (v : pyval) {struct v}
  : list visit :=
  (p, k, v) ::
  match v with
  | VDict d =>
      (fix items (d : list (key * pyval)) : list visit :=
         match d with
         | [] => []
         | (k', v') :: r =>
             remap_visits (enter_path p k) (Some k') v' ++ items r
         end) d
  | VList l | VTuple l =>
      (fix elements (i : Z) (l : list pyval) : list visit :=
         match l with
         | [] => []
         | v' :: r =>
             remap_visits (enter_path p k) (Some (KInt i)) v'
               ++ elements (i + 1)%Z r
         end) 0%Z l
  | _ => []
  end.

(** The reported paths; the query never holds at the root entry of the
    queries used here, whose key is [None]. *)
Definition research (root : pyval) (query : path -> option key -> pyval -> bool)
  : list (path * pyval) :=
  flat_map (fun e : visit =>
              match e with
              | (p, Some k, v) => if query p (Some k) v then [(p ++ [k], v)] else []
              | (p, None, v) => []
              end)
           (remap_visits [] None root).

(** * The module [dataconfig.parsers] *)

(** Type specification keys, order of keys important. *)
Definition _type_spec : list string :=
  ["type"; "opts"; "validator"; "validator_opts"; "validator_params";
   "root_validator"; "default"; "id"; "doc"].

(** [_type_spec[i]] *)
Definition spec_key (i : nat) : string := nth i _type_spec EmptyString.

(** [x in t] for a string [x] and a tuple of keys [t]. *)
Definition key_in (x : string) (t : path) : bool :=
  existsb (key_eqb (KStr x)) t.

(** [_is_node(path, key, value)]: the entry whose key is [None] is rejected;
    elsewhere no type spec key may occur in [path + (key,)]. *)
Definition _is_node (p : path) (k : option key) (value : pyval) : bool :=
  match k with
  | None => false
  | Some k' =>
      let full_path := p ++ [k'] in
      forallb (fun type_key => negb (key_in type_key full_path)) _type_spec
  end.

(** [_nodes(conf)] *)
Definition _nodes (conf : pyval) : list path :=
  set_of (map fst (research conf _is_node)).

(** [set(path).issubset(q)] *)
Definition issubset (p q : path) : bool :=
  forallb (fun k => existsb (key_eqb k) q) p.

(** [_is_leaf(path, paths)] *)
Definition _is_leaf (p : path) (paths : list path) : bool :=
  negb (existsb (fun q => issubset p q)
                (filter (fun q => negb (path_eqb p q)) paths)).

(** [_leaves(paths)] *)
Definition _leaves (paths : list path) : list path :=
  set_of (filter (fun p => _is_leaf p paths) paths).

(** [_path_to_glom_spec(path)] *)
Definition _path_to_glom_spec (p : path) : string :=
  String.concat "." (map str_of_key p).

(** [_type(value)] *)
Definition _type (NS : namespace) (value : pyval) : M pyval :=
  let type_key := spec_key 0 in
  opts <- lift (py_get value (spec_key 1) VNone) ;;
  if truthy opts && is_Sequence opts then
    name <- lift (py_getitem value type_key) ;;
    t <- lift (getattr (NS_types NS) name) ;;
    params <- lift (tuple_of opts) ;;
    ret (VParamType t params)
  else if truthy opts && is_dict opts then
    name <- lift (py_getitem value type_key) ;;
    t <- lift (getattr (NS_types NS) name) ;;
    kwargs <- lift (kwargs_of opts) ;;
    ret (VKwType t kwargs)
  else
    name <- lift (py_getitem value type_key) ;;
    t <- lift (getattr (NS_types NS) name) ;;
    (if truthy opts then warn (UserWarning_ambiguous_option opts) else ret tt) ;;;
    ret (VRegType t).

(** The keyword arguments of the call of [make_validator]: [opts] is passed
    by name, so [params] may not bind it again. *)
Definition validator_kwargs (params : pyval) : result (list (key * pyval)) :=
  let? kw := kwargs_of params in
  if dict_mem kw (KStr "opts")
  then Err (TypeError "got multiple values for keyword argument")
  else Ok kw.

(** [_validator(key, value)] *)
Definition _validator (NS : namespace) (k : key) (value : pyval) : result pyval :=
  let val_key := spec_key 2 in
  let opts_key := spec_key 3 in
  let params_key := spec_key 4 in
  let is_root := spec_key 5 in
  let? name := py_getitem value val_key in
  let? func := getattr (NS_validators NS) name in
  let? root := py_get value is_root (VBool false) in
  let k := if truthy root then KStr EmptyString else k in
  let? opts := py_get value opts_key (VDict []) in
  let? params := py_get value params_key (VDict []) in
  let? kw := validator_kwargs params in
  Ok (make_validator func k opts kw).

(** [_str_to_spec(key, value)]: the dictionary is updated in place and
    returned. *)
Definition _str_to_spec (NS : namespace) (k : key) (value : pyval) : M pyval :=
  let type_key := spec_key 0 in
  let validator_key := spec_key 2 in
  has_type <- lift (py_in type_key value) ;;
  value <- (if has_type : bool then
              t <- _type NS value ;;
              lift (py_setitem value type_key t)
            else ret value) ;;
  has_validator <- lift (py_in validator_key value) ;;
  value <- (if has_validator : bool then
              v <- lift (_validator NS k value) ;;
              lift (py_setitem value validator_key v)
            else ret value) ;;
  ret value.

(** The glom spec of [_spec_to_type] applied to one item [(k, v)]: the key,
    the type and, unless it is missing, the default, as a tuple. *)
Definition field_of (item : key * pyval) : result pyval :=
  let target := VTuple [val_of_key (fst item); snd item] in
  let? k := glom target "0" in
  let? v := glom target "1.type" in
  let d := Coalesce (glom target "1.default") (fun d => [d]) [] in
  Ok (VTuple ([k; v] ++ d)).

(** The glom spec that collects the namespace: the items of the [validator]
    entry, of an empty dictionary when there is none. *)
Definition validator_items (v : pyval) : result (list (key * pyval)) :=
  py_items (Coalesce (glom v "validator") (fun x => x) (VDict [])).

(** [f"{key}_t"] *)
Definition type_name (k : key) : string := str_of_key k ++ "_t".

(** [_spec_to_type(key, value, bases)] *)
Definition _spec_to_type (k : key) (value : pyval) (bases : list base)
  : result pyval :=
  let default := spec_key 6 in
  let? items := py_items value in
  let? required :=
    filterR (fun kv => let? b := py_in default (snd kv) in Ok (negb b)) items in
  let? defaulted := filterR (fun kv => py_in default (snd kv)) items in
  let? fields := mapR field_of (required ++ defaulted) in
  let? validators := mapR validator_items (map snd items) in
  let ns := dict_of_items (List.concat validators) in
  Ok (make_dataconfig (type_name k) fields ns bases).

(** [_nested_type(key, value)] *)
Definition _nested_type (NS : namespace) (k : key) (value : pyval) : M pyval :=
  t <- lift (_spec_to_type k value []) ;;
  v <- _str_to_spec NS k value ;;
  ret (VDict [(KStr "type", t); (KStr "validator", v)]).

(** [path[-1]] *)
Definition last_key (p : path) : result key :=
  match rev p with
  | k :: _ => Ok k
  | [] => Err (IndexError "tuple index out of range")
  end.

(** [_update_inplace(func)(_conf, path)]: the function is invoked on the
    last key and the value at the path, and its result is assigned there. *)
Definition _update_inplace (func : key -> pyval -> M pyval)
  (_conf : pyval) (p : path) : M pyval :=
  let glom_spec := _path_to_glom_spec p in
  k <- lift (last_key p) ;;
  value <- lift (glom _conf glom_spec) ;;
  _config_t <- func k value ;;
  lift (glom_assign _conf (split_dot glom_spec) _config_t).

(** [{path[:-1] for path in branches if path[:-1]}] *)
Definition parents (branches : list path) : list path :=
  set_of (map (@removelast key)
              (filter (fun p => match removelast p with
                                | [] => false
                                | _ => true
                                end) branches)).

(** A run that may need more rounds than it was given: [None]. *)
Definition bindT {A B} (m : option (M A)) (f : A -> option (M B))
  : option (M B) :=
  match m with
  | None => None
  | Some (Err e, w) => Some (Err e, w)
  | Some (Ok a, w) =>
      match f a with
      | None => None
      | Some (r, w') => Some (r, w ++ w')
      end
  end.

(** The loop [while branches: ...] of [get_config_t], with a bound on its
    rounds. *)
Fixpoint while_branches (fuel : nat) (body : pyval -> list path -> M pyval)
  (_conf : pyval) (branches : list path) : option (M pyval) :=
  match branches with
  | [] => Some (ret _conf)
  | _ :: _ =>
      match fuel with
      | O => None
      | S fuel' =>
          bindT (Some (body _conf branches))
                (fun c => while_branches fuel' body c (parents branches))
      end
  end.

(** The successive values of [branches] in that loop. *)
Fixpoint rounds (fuel : nat) (branches : list path) : list (list path) :=
  match branches with
  | [] => []
  | _ :: _ =>
      match fuel with
      | O => []
      | S fuel' => branches :: rounds fuel' (parents branches)
      end
  end.

Definition max_len (s : list path) : nat :=
  fold_right (fun p n => Nat.max (List.length p) n) 0 s.

(** [get_config_t(conf)] *)
Definition get_config_t (NS : namespace) (iter : list path -> list path)
  (conf : pyval) : option (M pyval) :=
  let paths := _nodes conf in
  let leaves := _leaves paths in
  bindT (Some (reduce (_update_inplace (_str_to_spec NS)) (iter leaves)
                      (deepcopy conf)))
    (fun _conf =>
       let branches := _leaves (set_diff paths leaves) in
       bindT (while_branches (S (max_len branches))
                (fun c bs => reduce (_update_inplace (_nested_type NS))
                                    (iter bs) c)
                _conf branches)
         (fun _conf =>
            Some (lift (_spec_to_type (KStr "config") _conf [ConfigIO])))).

(** The first value of [branches] and the rounds of the loop for a
    document. *)
Definition first_ring (conf : pyval) : list path :=
  let paths := _nodes conf in
  _leaves (set_diff paths (_leaves paths)).

Definition schedule (conf : pyval) : list (list path) :=
  rounds (S (max_len (first_ring conf))) (first_ring conf).

(** * Sample documents *)

Definition leaf_rule (t : string) : pyval := VDict [(KStr "type", VStr t)].

Definition NS0 : namespace :=
  {| NS_types := ["T"; "U"]; NS_validators := ["check"] |}.

Definition in_order (s : list path) : list path := s.
Definition in_reverse (s : list path) : list path := rev s.

(** [{a: {b: {c: {type: T}}, d: {e: {f: {type: T}}}}}] *)
Definition doc_uneven : pyval :=
  VDict [(KStr "a",
          VDict [(KStr "b", VDict [(KStr "c", leaf_rule "T")]);
                 (KStr "d",
                  VDict [(KStr "e", VDict [(KStr "f", leaf_rule "T")])])])].

(** [{a: {b: {c: {type: T}}}, d: {e: {f: {type: U}}}}] *)
Definition doc_even : pyval :=
  VDict [(KStr "a", VDict [(KStr "b", VDict [(KStr "c", leaf_rule "T")])]);
         (KStr "d", VDict [(KStr "e", VDict [(KStr "f", leaf_rule "U")])])].

(** * Notions used in the statements *)

(** No type spec key occurs in the path. *)
Definition spec_free (p : path) : Prop :=
  forall r, In r _type_spec -> ~ In (KStr r) p.

(** [value.get(key, default)] of a dictionary. *)
Definition get_or (d : list (key * pyval)) (x : string) (default : pyval)
  : pyval :=
  match dict_get d (KStr x) with
  | Some a => a
  | None => default
  end.

(** The target key [_validator] binds. *)
Definition validator_target (d : list (key * pyval)) (k : key) : key :=
  if truthy (get_or d "root_validator" (VBool false))
  then KStr EmptyString else k.

(** [del d[k]] *)
Definition dict_del (d : list (key * pyval)) (k : key) : list (key * pyval) :=
  filter (fun kv => negb (key_eqb (fst kv) k)) d.

(** The name of a field [(k, type)] or [(k, type, default)]. *)
Definition field_name (f : pyval) : pyval :=
  match f with
  | VTuple (n :: _) => n
  | _ => VNone
  end.

(** [default in v] for a rule [v]. *)
Definition has_default (v : pyval) : bool :=
  match v with
  | VDict e => dict_mem e (KStr "default")
  | _ => false
  end.

(** [{a: {type: T}, b: {type: U, default: 0}}] and the same mapping with [b]
    declared first. *)
Definition fields_a_b : list (key * pyval) :=
  [(KStr "a", VDict [(KStr "type", VRegType "T")]);
   (KStr "b", VDict [(KStr "type", VRegType "U"); (KStr "default", VInt 0)])].

Definition fields_b_a : list (key * pyval) := rev fields_a_b.

(** A branch with one resolved child, and the same branch declaring a
    whole-record validator of its own. *)
Definition branch_children : list (key * pyval) :=
  [(KStr "x", VDict [(KStr "type", VRegType "T")])].

Definition branch_with_validator : list (key * pyval) :=
  [(KStr "validator", VStr "check"); (KStr "root_validator", VBool true);
   (KStr "x", VDict [(KStr "type", VRegType "T")])].

(** The branch paths not yet in a ring after [i] rounds. *)
Definition unprocessed (conf : pyval) (i : nat) : list path :=
  set_diff (set_diff (_nodes conf) (_leaves (_nodes conf)))
           (List.concat (firstn i (schedule conf))).

(** No class synthesized inside the value derives from a base class. *)
Fixpoint nobase (v : pyval) : bool :=
  match v with
  | VList l | VTuple l => forallb nobase l
  | VDict d => forallb (fun kv => nobase (snd kv)) d
  | VParamType _ params => forallb nobase params
  | VKwType _ kwargs => forallb (fun kv => nobase (snd kv)) kwargs
  | VClassmethod _ _ opts params =>
      nobase opts && forallb (fun kv => nobase (snd kv)) params
  | VDataconfig _ fields ns bases =>
      match bases with [] => true | _ :: _ => false end
      && forallb nobase fields
      && forallb (fun kv => nobase (snd kv)) ns
  | _ => true
  end.

Definition entries_nobase (d : list (key * pyval)) : bool :=
  forallb (fun kv => nobase (snd kv)) d.

Fixpoint dot_free (s : string) : bool :=
  match s with
  | EmptyString => true
  | String c r => negb (Ascii.eqb c "."%char) && dot_free r
  end.

(** The segments that [glom] takes for wildcards when it reads a spec. *)
Definition wildcard (s : string) : bool :=
  String.eqb s "*" || String.eqb s "**".

(** A key of a mapping that a glom spec can carry as it is: a string without
    a dot that is no wildcard. *)
Definition plain_key (k : key) : bool :=
  match k with
  | KStr s => dot_free s && negb (wildcard s)
  | KInt _ => false
  end.

Definition is_prefix (q p : path) : Prop := exists t, p = q ++ t.



(** [{a: {type: Missing}, b: {type: T}}] *)
Definition doc_unbound : pyval :=
  VDict [(KStr "a", leaf_rule "Missing"); (KStr "b", leaf_rule "T")].




(** [enumerate(l)], counting from [i]. *)
Fixpoint enumerate_from (i : Z) (l : list pyval) : list (key * pyval) :=
  match l with
  | [] => []
  | v :: r => (KInt i, v) :: enumerate_from (i + 1)%Z r
  end.

(** The items [remap] enters below a value: those of a mapping, the indexed
    elements of a sequence. *)
Definition children (v : pyval) : list (key * pyval) :=
  match v with
  | VDict d => d
  | VList l | VTuple l => enumerate_from 0 l
  | _ => []
  end.

(** A branch path of a document: a node path that is not a leaf. *)
Definition is_branch (conf : pyval) (p : path) : Prop :=
  In p (_nodes conf) /\ ~ In p (_leaves (_nodes conf)).

(** A key whose text [glom] reads as one segment. *)
Definition glom_key (k : key) : bool := dot_free (str_of_key k).

(** The keys of a mapping are pairwise distinct. *)
Fixpoint distinct_keys (d : list (key * pyval)) : bool :=
  match d with
  | [] => true
  | (k, _) :: r => negb (dict_mem r k) && distinct_keys r
  end.

(** A plain document: scalars, lists, and mappings whose keys are pairwise
    distinct strings without a dot that are no wildcards, as a YAML or JSON
    file with such keys gives it. *)
Fixpoint plain_doc (v : pyval) : bool :=
  match v with
  | VDict d =>
      forallb (fun kv => plain_key (fst kv) && plain_doc (snd kv)) d
      && distinct_keys d
  | VList l => forallb plain_doc l
  | VTuple _ => false
  | _ => true
  end.

(** The value at a path of a document: a string key selects the entry of a
    mapping, a non-negative integer the element of a list. *)
Fixpoint value_at (v : pyval) (p : path) : option pyval :=
  match p with
  | [] => Some v
  | k :: r =>
      match v, k with
      | VDict d, KStr _ =>
          match dict_get d k with
          | Some c => value_at c r
          | None => None
          end
      | VList l, KInt i =>
          if (i <? 0)%Z then None
          else match nth_error l (Z.to_nat i) with
               | Some c => value_at c r
               | None => None
               end
      | _, _ => None
      end
  end.

(** The rule draws the warning of [_type]: its type name is bound, and its
    [opts] are truthy but neither a sequence nor a mapping. *)
Definition ambiguous_opts (NS : namespace) (d : list (key * pyval)) : bool :=
  match dict_get d (KStr "type") with
  | Some (VStr n) => existsb (String.eqb n) (NS_types NS)
  | _ => false
  end
  && truthy (get_or d "opts" VNone)
  && negb (is_Sequence (get_or d "opts" VNone))
  && negb (is_dict (get_or d "opts" VNone)).

(** A rule [_spec_to_type] can make a field of: a mapping with a [type]
    entry whose [validator] entry, if it has one, is a mapping. *)
Definition field_rule (v : pyval) : bool :=
  match v with
  | VDict e =>
      dict_mem e (KStr "type")
      && match dict_get e (KStr "validator") with
         | Some x => is_dict x
         | None => true
         end
  | _ => false
  end.

Definition is_spec_key (k : key) : bool :=
  match k with
  | KStr s => existsb (String.eqb s) _type_spec
  | KInt _ => false
  end.

(** A rule of a flat document: a mapping whose keys are type spec keys, or
    a scalar. *)
Definition flat_rule (v : pyval) : bool :=
  match v with
  | VDict e => forallb (fun kv => is_spec_key (fst kv)) e
  | VList _ | VTuple _ => false
  | _ => true
  end.

(** A flat document: names, which are pairwise distinct strings without a
    dot, no wildcards and no type spec keys, each with a rule. *)
Definition flat_document (d : list (key * pyval)) : bool :=
  forallb (fun kv => plain_key (fst kv) && negb (is_spec_key (fst kv))
                     && flat_rule (snd kv)) d
  && distinct_keys d.

(** [_str_to_spec] resolves the rule of the first entry to the rule of the
    second, which has the same name. *)
Definition resolves_to (NS : namespace) (kv kv' : key * pyval) : Prop :=
  fst kv' = fst kv
  /\ exists w, _str_to_spec NS (fst kv) (snd kv) = (Ok (snd kv'), w).

(** [{a: {type: T, default: 0}, b: {type: U, opts: 5}}] *)
Definition doc_flat : list (key * pyval) :=
  [(KStr "a", VDict [(KStr "type", VStr "T"); (KStr "default", VInt 0)]);
   (KStr "b", VDict [(KStr "type", VStr "U"); (KStr "opts", VInt 5)])].

Definition doc_flat_resolved : list (key * pyval) :=
  [(KStr "a", VDict [(KStr "type", VRegType "T"); (KStr "default", VInt 0)]);
   (KStr "b", VDict [(KStr "type", VRegType "U"); (KStr "opts", VInt 5)])].

(** [{a: [{type: T}, {type: U}]}] *)
Definition doc_list : pyval :=
  VDict [(KStr "a", VList [leaf_rule "T"; leaf_rule "U"])].

(** ** Induction over values *)

Section pyval_induction.
Variable P : pyval -> Prop.
Hypothesis HNone : P VNone.
Hypothesis HBool : forall b, P (VBool b).
Hypothesis HInt : forall z, P (VInt z).
Hypothesis HFloat : forall m e, P (VFloat m e).
Hypothesis HStr : forall s, P (VStr s).
Hypothesis HList : forall l, Forall P l -> P (VList l).
Hypothesis HTuple : forall l, Forall P l -> P (VTuple l).
Hypothesis HDict :
  forall d, Forall (fun kv => P (snd kv)) d -> P (VDict d).
Hypothesis HRegType : forall n, P (VRegType n).
Hypothesis HParamType : forall n l, Forall P l -> P (VParamType n l).
Hypothesis HKwType :
  forall n d, Forall (fun kv => P (snd kv)) d -> P (VKwType n d).
Hypothesis HClassmethod :
  forall f k o d, P o -> Forall (fun kv => P (snd kv)) d ->
                  P (VClassmethod f k o d).
Hypothesis HDataconfig :
  forall n l d b, Forall P l -> Forall (fun kv => P (snd kv)) d ->
                  P (VDataconfig n l d b).

Fixpoint pyval_nested_ind (v : pyval) : P v :=
  let all :=
    fix all (l : list pyval) : Forall P l :=
      match l with
      | [] => Forall_nil _
      | x :: r => Forall_cons x (pyval_nested_ind x) (all r)
      end in
  let all_snd :=
    fix all_snd (d : list (key * pyval))
      : Forall (fun kv => P (snd kv)) d :=
      match d with
      | [] => Forall_nil _
      | kv :: r =>
          Forall_cons (P := fun kv => P (snd kv)) kv
            (pyval_nested_ind (snd kv)) (all_snd r)
      end in
  match v with
  | VNone => HNone
  | VBool b => HBool b
  | VInt z => HInt z
  | VFloat m e => HFloat m e
  | VStr s => HStr s
  | VList l => HList (all l)
  | VTuple l => HTuple (all l)
  | VDict d => HDict (all_snd d)
  | VRegType n => HRegType n
  | VParamType n l => HParamType n (all l)
  | VKwType n d => HKwType n (all_snd d)
  | VClassmethod f k o d =>
      HClassmethod f k (pyval_nested_ind o) (all_snd d)
  | VDataconfig n l d b => HDataconfig n b (all l) (all_snd d)
  end.
End pyval_induction.

(** * Properties *)

(** ** Keys and sets *)

Lemma key_eqb_eq (a b : key) : key_eqb a b = true <-> a = b.
Proof.
  destruct a as [s|x], b as [t|y]; simpl; split; intro H;
    try discriminate; try (inversion H; subst).
  - apply String.eqb_eq in H. now subst.
  - apply String.eqb_refl.
  - apply Z.eqb_eq in H. now subst.
  - apply Z.eqb_refl.
Qed.

Lemma key_eqb_refl (a : key) : key_eqb a a = true.
Proof. now apply key_eqb_eq. Qed.

Lemma key_eqb_neq (a b : key) : key_eqb a b = false <-> a <> b.
Proof.
  split; intro H.
  - intro E. apply key_eqb_eq in E. congruence.
  - destruct (key_eqb a b) eqn:E; [apply key_eqb_eq in E; contradiction | easy].
Qed.

Lemma path_eqb_eq (p q : path) : path_eqb p q = true <-> p = q.
Proof.
  unfold path_eqb. destruct (path_eq_dec p q); split; congruence.
Qed.

Lemma key_in_In (x : string) (t : path) : key_in x t = true <-> In (KStr x) t.
Proof.
  unfold key_in. rewrite existsb_exists. split.
  - intros [k [Hk E]]. apply key_eqb_eq in E. now subst.
  - intro H. exists (KStr x). split; [assumption | apply key_eqb_refl].
Qed.

Lemma set_of_In (l : list path) (p : path) : In p (set_of l) <-> In p l.
Proof. apply nodup_In. Qed.

Lemma set_of_NoDup (l : list path) : NoDup (set_of l).
Proof. apply NoDup_nodup. Qed.

Lemma set_mem_In (p : path) (s : list path) : set_mem p s = true <-> In p s.
Proof.
  unfold set_mem. rewrite existsb_exists. split.
  - intros [q [Hq E]]. apply path_eqb_eq in E. now subst.
  - intro H. exists p. split; [assumption | now apply path_eqb_eq].
Qed.

Lemma set_diff_In (s t : list path) (p : path) :
  In p (set_diff s t) <-> In p s /\ ~ In p t.
Proof.
  unfold set_diff. rewrite filter_In, negb_true_iff.
  split; intros [H1 H2]; split; try assumption.
  - intro H. apply set_mem_In in H. congruence.
  - destruct (set_mem p t) eqn:E; [apply set_mem_In in E; contradiction | easy].
Qed.

(** ** The path classifier *)

Lemma _is_node_spec (p : path) (k : option key) (v : pyval) :
  _is_node p k v = true <-> exists k', k = Some k' /\ spec_free (p ++ [k']).
Proof.
  destruct k as [k'|]; unfold _is_node.
  - rewrite forallb_forall. split.
    + intro H. exists k'. split; [reflexivity|].
      intros r Hr Hin. specialize (H r Hr).
      apply negb_true_iff in H. apply key_in_In in Hin. congruence.
    + intros [k2 [E H]] r Hr. inversion E; subst k2.
      apply negb_true_iff. destruct (key_in r (p ++ [k'])) eqn:Ek; [|reflexivity].
      apply key_in_In in Ek. now apply H in Ek.
  - split; [discriminate | intros [k' [E _]]; discriminate].
Qed.

Lemma research_In (root : pyval) (q : path -> option key -> pyval -> bool)
  (p : path) (v : pyval) :
  In (p, v) (research root q) <->
  exists p' k, In (p', Some k, v) (remap_visits [] None root)
               /\ q p' (Some k) v = true /\ p = p' ++ [k].
Proof.
  unfold research. rewrite in_flat_map. split.
  - intros [[[p' [k|]] v'] [Hin H]]; [|contradiction].
    destruct (q p' (Some k) v') eqn:E; [|contradiction].
    destruct H as [H|[]]. inversion H; subst. now exists p', k.
  - intros [p' [k [Hin [Hq E]]]]. exists (p', Some k, v). split; [assumption|].
    rewrite Hq. left. now subst.
Qed.

Lemma _nodes_In (conf : pyval) (p : path) :
  In p (_nodes conf) <->
  exists p' k v, In (p', Some k, v) (remap_visits [] None conf)
                 /\ p = p' ++ [k] /\ spec_free p.
Proof.
  unfold _nodes. rewrite set_of_In, in_map_iff. split.
  - intros [[p0 v] [E H]]. simpl in E. subst p0.
    apply research_In in H. destruct H as [p' [k [Hin [Hq E]]]].
    exists p', k, v. repeat split; try assumption.
    apply _is_node_spec in Hq. destruct Hq as [k' [Ek Hf]].
    inversion Ek; subst. assumption.
  - intros [p' [k [v [Hin [E Hf]]]]]. exists (p, v). split; [reflexivity|].
    apply research_In. exists p', k. repeat split; try assumption.
    apply _is_node_spec. exists k. split; [reflexivity | now subst].
Qed.

Lemma remap_visits_root (p : path) (k : option key) (v : pyval) :
  hd_error (remap_visits p k v) = Some (p, k, v).
Proof. destruct v; reflexivity. Qed.

(** C5.  [_is_node] holds at an entry of the traversal exactly when the
    entry has a key and none of the nine type spec keys occurs in the path
    extended by that key, the key itself included; the traversal starts at
    the entry above the root, whose key is [None], which [_is_node] rejects;
    and [_nodes] is the set of the visited paths free of type spec keys,
    which never holds the empty path. *)
Theorem C5_is_node_iff_no_spec_key :
  _type_spec = ["type"; "opts"; "validator"; "validator_opts";
                "validator_params"; "root_validator"; "default"; "id"; "doc"]
  /\ (forall p k v,
        _is_node p k v = true <->
        exists k', k = Some k' /\
                   forall r, In r _type_spec -> ~ In (KStr r) (p ++ [k']))
  /\ (forall conf,
        hd_error (remap_visits [] None conf) = Some ([], None, conf)
        /\ (forall p v, _is_node p None v = false)
        /\ (forall p,
              In p (_nodes conf) <->
              exists p' k v, In (p', Some k, v) (remap_visits [] None conf)
                             /\ p = p' ++ [k]
                             /\ forall r, In r _type_spec -> ~ In (KStr r) p)
        /\ ~ In [] (_nodes conf)).
Proof.
  split; [reflexivity|]. split; [apply _is_node_spec|].
  intro conf. split; [apply remap_visits_root|].
  split; [reflexivity|]. split; [apply _nodes_In|].
  intro H. apply _nodes_In in H. destruct H as [p' [k [v [_ [E _]]]]].
  now destruct p'.
Qed.

(** ** Reasoning about computations *)

Lemma rbind_Ok {A B} (r : result A) (f : A -> result B) (b : B) :
  rbind r f = Ok b -> exists a, r = Ok a /\ f a = Ok b.
Proof. destruct r; simpl; [eauto | discriminate]. Qed.

Lemma bind_Ok {A B} (m : M A) (f : A -> M B) (b : B) (w : list warning) :
  bind m f = (Ok b, w) ->
  exists a w1 w2, m = (Ok a, w1) /\ f a = (Ok b, w2) /\ w = w1 ++ w2.
Proof.
  destruct m as [[a|e] w1]; simpl; [|discriminate].
  destruct (f a) as [r w2] eqn:E. intro H. inversion H; subst.
  now exists a, w1, w2.
Qed.

Lemma bind_Ok_l {A B} (a : A) (f : A -> M B) : bind (Ok a, []) f = f a.
Proof. simpl. now destruct (f a). Qed.

Lemma bind_lift_Ok {A B} (a : A) (f : A -> M B) : bind (lift (Ok a)) f = f a.
Proof. apply bind_Ok_l. Qed.

Lemma bind_lift_Err {A B} (e : exn) (f : A -> M B) :
  bind (lift (Err e)) f = (Err e, []).
Proof. reflexivity. Qed.

Lemma bind_Err {A B} (m : M A) (f : A -> M B) (e : exn) (w : list warning) :
  m = (Err e, w) -> bind m f = (Err e, w).
Proof. intros ->. reflexivity. Qed.

Lemma lift_Ok {A} (r : result A) (a : A) (w : list warning) :
  lift r = (Ok a, w) -> r = Ok a /\ w = [].
Proof. unfold lift. intro H. inversion H. now subst. Qed.

Lemma ret_Ok {A} (a b : A) (w : list warning) :
  ret a = (Ok b, w) -> a = b /\ w = [].
Proof. unfold ret. intro H. inversion H. now subst. Qed.

Ltac inv_run :=
  repeat match goal with
    | H : bind _ _ = (Ok _, _) |- _ =>
        let a := fresh "a" in
        let w1 := fresh "w" in
        let w2 := fresh "w" in
        let H1 := fresh "Hm" in
        let H2 := fresh "Hk" in
        let H3 := fresh "Hw" in
        apply bind_Ok in H; destruct H as [a [w1 [w2 [H1 [H2 H3]]]]]
    | H : lift _ = (Ok _, _) |- _ =>
        let H1 := fresh "Hr" in
        let H2 := fresh "Hw" in
        apply lift_Ok in H; destruct H as [H1 H2]
    | H : ret _ = (Ok _, _) |- _ =>
        let H1 := fresh "Hr" in
        let H2 := fresh "Hw" in
        apply ret_Ok in H; destruct H as [H1 H2]
    | H : rbind _ _ = Ok _ |- _ =>
        let a := fresh "a" in
        let H1 := fresh "Hr" in
        let H2 := fresh "Hk" in
        apply rbind_Ok in H; destruct H as [a [H1 H2]]
    end.

(** ** Dictionaries *)

Lemma dict_get_set_same (d : list (key * pyval)) (k : key) (v : pyval) :
  dict_get (dict_set d k v) k = Some v.
Proof.
  induction d as [|[k' v'] r IH]; simpl.
  - now rewrite key_eqb_refl.
  - destruct (key_eqb k' k) eqn:E; simpl; rewrite E; [reflexivity | exact IH].
Qed.

Lemma dict_get_set_other (d : list (key * pyval)) (k k2 : key) (v : pyval) :
  k <> k2 -> dict_get (dict_set d k v) k2 = dict_get d k2.
Proof.
  intro Hne. induction d as [|[k' v'] r IH]; simpl.
  - apply key_eqb_neq in Hne. now rewrite Hne.
  - destruct (key_eqb k' k) eqn:E; simpl.
    + apply key_eqb_eq in E. subst k'.
      apply key_eqb_neq in Hne. now rewrite Hne.
    + now rewrite IH.
Qed.

Lemma dict_mem_set_other (d : list (key * pyval)) (k k2 : key) (v : pyval) :
  k <> k2 -> dict_mem (dict_set d k v) k2 = dict_mem d k2.
Proof. intro H. unfold dict_mem. now rewrite dict_get_set_other. Qed.

Lemma dict_set_keys (d : list (key * pyval)) (k : key) (v : pyval) :
  dict_mem d k = true -> map fst (dict_set d k v) = map fst d.
Proof.
  unfold dict_mem. induction d as [|[k' v'] r IH]; simpl; [discriminate|].
  destruct (key_eqb k' k) eqn:E; simpl; [reflexivity|].
  intro H. now rewrite IH.
Qed.

(** ** The leaf interpreter: validators *)

Lemma _validator_Ok (NS : namespace) (k : key) (value b : pyval) :
  _validator NS k value = Ok b ->
  exists d name func kw,
    value = VDict d
    /\ dict_get d (KStr "validator") = Some (VStr name)
    /\ getattr (NS_validators NS) (VStr name) = Ok func
    /\ validator_kwargs (get_or d "validator_params" (VDict [])) = Ok kw
    /\ b = make_validator func (validator_target d k)
             (get_or d "validator_opts" (VDict [])) kw.
Proof.
  unfold _validator. intro H. inv_run.
  destruct value; try discriminate. simpl in *.
  change (spec_key 2) with "validator" in *.
  destruct (dict_get entries (KStr "validator")) as [nm|] eqn:En; [|discriminate].
  inversion Hr; subst a. clear Hr.
  destruct nm; try discriminate.
  inversion Hr1; subst a1. inversion Hr2; subst a2. inversion Hr3; subst a3.
  exists entries, s, a0, a4. repeat split; try assumption.
  inversion Hk0. reflexivity.
Qed.

Lemma getattr_bound (registry : list string) (n : string) :
  In n registry -> getattr registry (VStr n) = Ok n.
Proof.
  intro H. simpl.
  replace (existsb (String.eqb n) registry) with true; [reflexivity|].
  symmetry. apply existsb_exists. exists n. split; [assumption | apply String.eqb_refl].
Qed.


Lemma getattr_Ok (registry : list string) (name : pyval) (n : string) :
  getattr registry name = Ok n -> name = VStr n /\ In n registry.
Proof.
  destruct name; simpl; try discriminate.
  destruct (existsb (String.eqb s) registry) eqn:E; [|discriminate].
  intro H. inversion H; subst. split; [reflexivity|].
  apply existsb_exists in E. destruct E as [m [Hm E]].
  apply String.eqb_eq in E. now subst.
Qed.

Lemma dict_get_del_same (d : list (key * pyval)) (k : key) :
  dict_get (dict_del d k) k = None.
Proof.
  induction d as [|[k' v'] r IH]; simpl; [reflexivity|].
  destruct (key_eqb k' k) eqn:E; simpl; [exact IH | now rewrite E].
Qed.

Lemma dict_get_del_other (d : list (key * pyval)) (k k2 : key) :
  k <> k2 -> dict_get (dict_del d k) k2 = dict_get d k2.
Proof.
  intro Hne. induction d as [|[k' v'] r IH]; simpl; [reflexivity|].
  destruct (key_eqb k' k) eqn:E; simpl.
  - apply key_eqb_eq in E. subst k'.
    apply key_eqb_neq in Hne. now rewrite Hne.
  - now rewrite IH.
Qed.

(** ** The leaf interpreter: types *)

(** What [_type] does with a rule whose [opts] are absent or falsy. *)
Lemma _type_falsy_opts (NS : namespace) (d : list (key * pyval)) :
  truthy (get_or d "opts" VNone) = false ->
  _type NS (VDict d) =
  (name <- lift (py_getitem (VDict d) "type") ;;
   t <- lift (getattr (NS_types NS) name) ;;
   ret (VRegType t)).
Proof.
  intro H. unfold _type.
  change (py_get (VDict d) (spec_key 1) VNone)
    with (Ok (get_or d "opts" VNone)).
  rewrite bind_lift_Ok, H. simpl andb. cbv iota.
  change (spec_key 0) with "type".
  destruct (py_getitem (VDict d) "type") as [nm|e]; [|reflexivity].
  rewrite !bind_lift_Ok.
  destruct (getattr (NS_types NS) nm); [|reflexivity].
  rewrite !bind_lift_Ok. unfold ret. now rewrite bind_Ok_l.
Qed.

(** What a successful run of [_str_to_spec] on a dictionary has done. *)
Lemma _str_to_spec_Ok (NS : namespace) (k : key) (d : list (key * pyval))
  (r : pyval) (w : list warning) :
  _str_to_spec NS k (VDict d) = (Ok r, w) ->
  exists d1,
    (if dict_mem d (KStr "type")
     then exists t, _type NS (VDict d) = (Ok t, w)
                    /\ d1 = dict_set d (KStr "type") t
     else d1 = d /\ w = [])
    /\ (if dict_mem d1 (KStr "validator")
        then exists v, _validator NS k (VDict d1) = Ok v
                       /\ r = VDict (dict_set d1 (KStr "validator") v)
        else r = VDict d1).
Proof.
  unfold _str_to_spec.
  change (spec_key 0) with "type". change (spec_key 2) with "validator".
  change (py_in "type" (VDict d)) with (Ok (dict_mem d (KStr "type"))).
  rewrite bind_lift_Ok. intro H. inv_run. subst.
  assert (Hd : exists d1, a = VDict d1 /\
             (if dict_mem d (KStr "type")
              then exists t, _type NS (VDict d) = (Ok t, w0)
                             /\ d1 = dict_set d (KStr "type") t
              else d1 = d /\ w0 = [])).
  { destruct (dict_mem d (KStr "type")).
    - inv_run. subst.
      match goal with
      | H : py_setitem _ _ ?t = Ok _ |- _ =>
          simpl in H; inversion H; subst;
          exists (dict_set d (KStr "type") t); split; [reflexivity|];
          exists t; rewrite app_nil_r; now split
      end.
    - inv_run. subst. now exists d. }
  destruct Hd as [d1 [-> Hd]]. exists d1.
  match goal with
  | H : py_in "validator" (VDict d1) = Ok ?b |- _ =>
      simpl in H; inversion H; subst b; clear H
  end.
  match goal with
  | H : (if dict_mem d1 (KStr "validator") then _ else _) = (Ok r, ?w') |- _ =>
      assert (Hv : w' = [] /\
                 (if dict_mem d1 (KStr "validator")
                  then exists v, _validator NS k (VDict d1) = Ok v
                                 /\ r = VDict (dict_set d1 (KStr "validator") v)
                  else r = VDict d1));
      [ destruct (dict_mem d1 (KStr "validator"));
        [ inv_run; subst;
          match goal with
          | H' : py_setitem _ _ ?v = Ok _ |- _ =>
              simpl in H'; inversion H'; subst;
              split; [reflexivity|]; now exists v
          end
        | inv_run; now subst ]
      | destruct Hv as [-> Hv] ]
  end.
  simpl. rewrite !app_nil_r.
  split; assumption.
Qed.

(** C10.  A rule with a [type] key whose [opts] are present but falsy is
    resolved exactly as the same rule without [opts]: the same outcome and
    no warning, which is the bare registry type when the name is bound; the
    resolved rule of [_str_to_spec] holds that type. *)
Theorem C10_falsy_opts_as_absent (NS : namespace) (k : key)
  (d : list (key * pyval)) (n : string) (opts : pyval) :
  dict_get d (KStr "type") = Some (VStr n) ->
  dict_get d (KStr "opts") = Some opts ->
  truthy opts = false ->
  _type NS (VDict d) = _type NS (VDict (dict_del d (KStr "opts")))
  /\ warnings (_type NS (VDict d)) = []
  /\ (In n (NS_types NS) ->
      _type NS (VDict d) = (Ok (VRegType n), [])
      /\ forall r w, _str_to_spec NS k (VDict d) = (Ok r, w) ->
                     w = [] /\ py_getitem r "type" = Ok (VRegType n)).
Proof.
  intros Ht Ho Hf.
  assert (Hd : truthy (get_or d "opts" VNone) = false)
    by (unfold get_or; now rewrite Ho).
  assert (Ha : truthy (get_or (dict_del d (KStr "opts")) "opts" VNone) = false)
    by (unfold get_or; now rewrite dict_get_del_same).
  rewrite (_type_falsy_opts NS d Hd), (_type_falsy_opts NS _ Ha).
  simpl. rewrite dict_get_del_other by discriminate. rewrite Ht. simpl.
  split; [reflexivity|]. split.
  - destruct (existsb (String.eqb n) (NS_types NS)); reflexivity.
  - intro Hin. pose proof (getattr_bound _ _ Hin) as Hg. simpl in Hg.
    split; [destruct (existsb (String.eqb n) (NS_types NS));
            [reflexivity | discriminate]|].
    intros r w H. apply _str_to_spec_Ok in H. destruct H as [d1 [H1 H2]].
    unfold dict_mem in H1 at 1. rewrite Ht in H1.
    destruct H1 as [t [H1 ->]].
    rewrite (_type_falsy_opts NS d Hd) in H1. simpl in H1. rewrite Ht in H1.
    simpl in H1.
    destruct (existsb (String.eqb n) (NS_types NS)); [|discriminate].
    simpl in H1. inversion H1; subst. split; [reflexivity|].
    destruct (dict_mem (dict_set d (KStr "type") (VRegType n))
                       (KStr "validator")).
    + destruct H2 as [v [_ ->]]. simpl.
      rewrite dict_get_set_other by discriminate.
      now rewrite dict_get_set_same.
    + subst r. simpl. now rewrite dict_get_set_same.
Qed.

Lemma C10_falsy_opts_witness :
  let d := [(KStr "type", VStr "T"); (KStr "opts", VList [])] in
  _type NS0 (VDict d) = _type NS0 (VDict (dict_del d (KStr "opts")))
  /\ warnings (_type NS0 (VDict d)) = []
  /\ (In "T" (NS_types NS0) ->
      _type NS0 (VDict d) = (Ok (VRegType "T"), [])
      /\ forall r w, _str_to_spec NS0 (KStr "a") (VDict d) = (Ok r, w) ->
                     w = [] /\ py_getitem r "type" = Ok (VRegType "T")).
Proof.
  intro d.
  apply (@C10_falsy_opts_as_absent NS0 (KStr "a") d "T" (VList []));
    reflexivity.
Defined.

Lemma validator_target_set_type (d : list (key * pyval)) (k : key) (t : pyval) :
  validator_target (dict_set d (KStr "type") t) k = validator_target d k.
Proof.
  unfold validator_target, get_or.
  now rewrite dict_get_set_other by discriminate.
Qed.

(** C8.  For a rule with a [validator] key, the binding [_validator] builds
    has target key [""] when the rule's [root_validator] value is truthy and
    the field's own key otherwise, and it is the binding [_str_to_spec]
    stores under [validator]; the binding is built whenever the validator
    name is bound and the parameters can be passed by keyword. *)
Theorem C8_validator_target_key (NS : namespace) (k : key)
  (d : list (key * pyval)) :
  dict_mem d (KStr "validator") = true ->
  let target :=
    if truthy (get_or d "root_validator" (VBool false))
    then KStr EmptyString else k in
  (forall b, _validator NS k (VDict d) = Ok b ->
             exists func opts params,
               b = VDict [(KStr func, VClassmethod func target opts params)])
  /\ (forall r w, _str_to_spec NS k (VDict d) = (Ok r, w) ->
                  exists func opts params,
                    py_getitem r "validator" =
                    Ok (VDict [(KStr func,
                                VClassmethod func target opts params)]))
  /\ (forall name kw,
        dict_get d (KStr "validator") = Some (VStr name) ->
        In name (NS_validators NS) ->
        validator_kwargs (get_or d "validator_params" (VDict [])) = Ok kw ->
        _validator NS k (VDict d) =
        Ok (VDict [(KStr name,
                    VClassmethod name target
                      (get_or d "validator_opts" (VDict [])) kw)])).
Proof.
  intros Hv target. split; [|split].
  - intros b H. apply _validator_Ok in H.
    destruct H as [d' [name [func [kw [E [_ [_ [_ ->]]]]]]]].
    inversion E; subst d'. now exists func, (get_or d "validator_opts" (VDict [])), kw.
  - intros r w H. apply _str_to_spec_Ok in H. destruct H as [d1 [H1 H2]].
    assert (Hd1 : dict_mem d1 (KStr "validator") = true
                  /\ validator_target d1 k = target).
    { destruct (dict_mem d (KStr "type")).
      - destruct H1 as [t [_ ->]]. split.
        + now rewrite dict_mem_set_other by discriminate.
        + apply validator_target_set_type.
      - destruct H1 as [-> _]. now split. }
    destruct Hd1 as [Hm Ht]. rewrite Hm in H2. destruct H2 as [v [H2 ->]].
    apply _validator_Ok in H2.
    destruct H2 as [d' [name [func [kw [E [_ [_ [_ ->]]]]]]]].
    inversion E; subst d'. rewrite Ht.
    exists func, (get_or d1 "validator_opts" (VDict [])), kw.
    simpl. now rewrite dict_get_set_same.
  - intros name kw Hn Hin Hkw. unfold _validator.
    change (spec_key 2) with "validator". change (spec_key 3) with "validator_opts".
    change (spec_key 4) with "validator_params".
    change (spec_key 5) with "root_validator".
    simpl py_getitem. rewrite Hn. simpl rbind.
    pose proof (getattr_bound _ _ Hin) as Hg. simpl in Hg. rewrite Hg.
    simpl rbind. fold (get_or d "validator_params" (VDict [])).
    rewrite Hkw. reflexivity.
Qed.

(** A leaf declaring [root_validator: true]. *)
Lemma C8_validator_target_witness :
  let d := [(KStr "type", VStr "T"); (KStr "validator", VStr "check");
            (KStr "root_validator", VBool true)] in
  (forall b, _validator NS0 (KStr "a") (VDict d) = Ok b ->
             exists func opts params,
               b = VDict [(KStr func,
                           VClassmethod func (KStr EmptyString) opts params)])
  /\ (forall r w, _str_to_spec NS0 (KStr "a") (VDict d) = (Ok r, w) ->
                  exists func opts params,
                    py_getitem r "validator" =
                    Ok (VDict [(KStr func,
                                VClassmethod func (KStr EmptyString)
                                  opts params)]))
  /\ (forall name kw,
        dict_get d (KStr "validator") = Some (VStr name) ->
        In name (NS_validators NS0) ->
        validator_kwargs (get_or d "validator_params" (VDict [])) = Ok kw ->
        _validator NS0 (KStr "a") (VDict d) =
        Ok (VDict [(KStr name,
                    VClassmethod name (KStr EmptyString)
                      (get_or d "validator_opts" (VDict [])) kw)])).
Proof.
  intro d. apply (@C8_validator_target_key NS0 (KStr "a") d). reflexivity.
Defined.

(** What [_type] does with a rule whose type name is bound and whose [opts]
    are truthy. *)
Lemma _type_truthy_opts (NS : namespace) (d : list (key * pyval)) (n : string)
  (opts : pyval) :
  dict_get d (KStr "type") = Some (VStr n) ->
  In n (NS_types NS) ->
  dict_get d (KStr "opts") = Some opts ->
  truthy opts = true ->
  _type NS (VDict d) =
  if is_Sequence opts then
    params <- lift (tuple_of opts) ;; ret (VParamType n params)
  else if is_dict opts then
    kwargs <- lift (kwargs_of opts) ;; ret (VKwType n kwargs)
  else (Ok (VRegType n), [UserWarning_ambiguous_option opts]).
Proof.
  intros Ht Hin Ho Htr. unfold _type.
  change (py_get (VDict d) (spec_key 1) VNone)
    with (Ok (get_or d "opts" VNone)).
  rewrite bind_lift_Ok. unfold get_or. rewrite Ho, Htr. simpl andb.
  change (spec_key 0) with "type".
  assert (Hg : py_getitem (VDict d) "type" = Ok (VStr n))
    by (simpl; now rewrite Ht).
  rewrite Hg, !bind_lift_Ok, (getattr_bound _ _ Hin), !bind_lift_Ok.
  destruct (is_Sequence opts); [reflexivity|].
  destruct (is_dict opts); reflexivity.
Qed.

(** C2, as the code has it.  With a bound type name and truthy [opts]: a
    list gives the registry type parametrized by the elements of the list, a
    mapping with string keys gives the registry type called with the mapping
    as keywords, and [opts] that are neither a sequence nor a mapping give
    the bare registry type with one ambiguous-option warning, the type of
    the same rule without [opts]. *)
Theorem C2_opts_dispatch (NS : namespace) (d : list (key * pyval))
  (n : string) (opts : pyval) :
  dict_get d (KStr "type") = Some (VStr n) ->
  In n (NS_types NS) ->
  dict_get d (KStr "opts") = Some opts ->
  truthy opts = true ->
  (forall l, opts = VList l ->
             _type NS (VDict d) = (Ok (VParamType n l), []))
  /\ (forall kw, opts = VDict kw ->
                 forallb (fun kv => key_is_str (fst kv)) kw = true ->
                 _type NS (VDict d) = (Ok (VKwType n kw), []))
  /\ (is_Sequence opts = false -> is_dict opts = false ->
      _type NS (VDict d) =
      (Ok (VRegType n), [UserWarning_ambiguous_option opts])
      /\ _type NS (VDict (dict_del d (KStr "opts"))) = (Ok (VRegType n), [])).
Proof.
  intros Ht Hin Ho Htr.
  rewrite (_type_truthy_opts NS d Ht Hin Ho Htr).
  split; [|split].
  - intros l ->. reflexivity.
  - intros kw -> Hk. simpl. now rewrite Hk.
  - intros Hs Hd. rewrite Hs, Hd. split; [reflexivity|].
    rewrite _type_falsy_opts
      by (unfold get_or; now rewrite dict_get_del_same).
    simpl. rewrite dict_get_del_other by discriminate. rewrite Ht. simpl.
    pose proof (getattr_bound _ _ Hin) as Hg. simpl in Hg.
    destruct (existsb (String.eqb n) (NS_types NS));
      [reflexivity | discriminate].
Qed.

(** [opts = [1, 2]] *)
Lemma C2_opts_dispatch_witness :
  let opts := VList [VInt 1; VInt 2] in
  let d := [(KStr "type", VStr "T"); (KStr "opts", opts)] in
  (forall l, opts = VList l ->
             _type NS0 (VDict d) = (Ok (VParamType "T" l), []))
  /\ (forall kw, opts = VDict kw ->
                 forallb (fun kv => key_is_str (fst kv)) kw = true ->
                 _type NS0 (VDict d) = (Ok (VKwType "T" kw), []))
  /\ (is_Sequence opts = false -> is_dict opts = false ->
      _type NS0 (VDict d) =
      (Ok (VRegType "T"), [UserWarning_ambiguous_option opts])
      /\ _type NS0 (VDict (dict_del d (KStr "opts"))) = (Ok (VRegType "T"), [])).
Proof.
  intros opts d.
  apply (@C2_opts_dispatch NS0 d "T" opts);
    [reflexivity | simpl; auto | reflexivity | reflexivity].
Defined.

(** The three shapes of the specification's example, and a number. *)
Example opts_list_example :
  _type NS0 (VDict [(KStr "type", VStr "T");
                    (KStr "opts", VList [VInt 1; VInt 2])])
  = (Ok (VParamType "T" [VInt 1; VInt 2]), []).
Proof. reflexivity. Qed.

Example opts_mapping_example :
  _type NS0 (VDict [(KStr "type", VStr "T");
                    (KStr "opts", VDict [(KStr "x", VInt 1)])])
  = (Ok (VKwType "T" [(KStr "x", VInt 1)]), []).
Proof. reflexivity. Qed.

Example opts_number_example :
  _type NS0 (VDict [(KStr "type", VStr "T"); (KStr "opts", VInt 5)])
  = (Ok (VRegType "T"), [UserWarning_ambiguous_option (VInt 5)]).
Proof. reflexivity. Qed.

(** C2, as the specification states it, fails for [opts = "bad"]: a string is
    a sequence, so the type is parametrized by its characters, no warning is
    emitted and the type is not the one of the rule without [opts]. *)
Lemma C2_string_opts_counterexample :
  let rule := VDict [(KStr "type", VStr "T"); (KStr "opts", VStr "bad")] in
  let bare := VDict [(KStr "type", VStr "T")] in
  _type NS0 rule = (Ok (VParamType "T" [VStr "b"; VStr "a"; VStr "d"]), [])
  /\ _type NS0 bare = (Ok (VRegType "T"), [])
  /\ ~ (outcome (_type NS0 rule) = outcome (_type NS0 bare)
        /\ warnings (_type NS0 rule) <> []).
Proof.
  intros rule bare. split; [reflexivity|]. split; [reflexivity|].
  intros [H _]. discriminate H.
Qed.

(** ** The type synthesizer *)

Lemma filterR_Ok {A} (f : A -> result bool) (l l' : list A) :
  filterR f l = Ok l' ->
  Forall (fun a => exists b, f a = Ok b) l
  /\ l' = filter (fun a => match f a with Ok b => b | Err _ => false end) l.
Proof.
  revert l'. induction l as [|a r IH]; simpl; intros l' H.
  - inversion H. split; [constructor | reflexivity].
  - inv_run. destruct (IH _ Hr0) as [HF ->].
    match goal with H : f a = Ok ?b |- _ => rewrite H; split;
      [constructor; [now exists b | assumption]|] end.
    match goal with H : Ok _ = Ok _ |- _ => now inversion H end.
Qed.

Lemma mapR_Ok {A B} (f : A -> result B) (l : list A) (l' : list B) :
  mapR f l = Ok l' -> Forall2 (fun a b => f a = Ok b) l l'.
Proof.
  revert l'. induction l as [|a r IH]; simpl; intros l' H.
  - inversion H. constructor.
  - inv_run. match goal with H : Ok _ = Ok _ |- _ => inversion H; subst end.
    constructor; [assumption | now apply IH].
Qed.

Lemma field_of_eq (k : key) (v : pyval) :
  field_of (k, v) =
  let? t := glom_get1 v "type" in
  Ok (VTuple ([val_of_key k; t]
              ++ Coalesce (glom_get1 v "default") (fun d => [d]) [])).
Proof.
  unfold field_of, glom. simpl.
  destruct (glom_get1 v "type"); simpl; [|reflexivity].
  destruct (glom_get1 v "default"); reflexivity.
Qed.

(** Only a dictionary passes both the test [default in v] and the access to
    [v.type]. *)
Lemma field_of_Ok (k : key) (v f : pyval) (b : bool) :
  py_in "default" v = Ok b ->
  field_of (k, v) = Ok f ->
  exists e t, v = VDict e
              /\ dict_get e (KStr "type") = Some t
              /\ b = dict_mem e (KStr "default")
              /\ f = VTuple ([val_of_key k; t]
                             ++ match dict_get e (KStr "default") with
                                | Some d => [d]
                                | None => []
                                end).
Proof.
  rewrite field_of_eq. intros Hin H.
  destruct v; simpl in Hin; try discriminate.
  simpl in H. destruct (dict_get entries (KStr "type")) as [t|] eqn:Et;
    [|discriminate].
  inversion Hin; subst b. exists entries, t.
  split; [reflexivity|]. split; [exact Et|]. split; [reflexivity|].
  destruct (dict_get entries (KStr "default")); simpl in H;
    inversion H; reflexivity.
Qed.

Lemma _spec_to_type_Ok (k : key) (value : pyval) (bases : list base)
  (t : pyval) :
  _spec_to_type k value bases = Ok t ->
  exists d fields validators,
    value = VDict d
    /\ Forall (fun kv => exists e ty, snd kv = VDict e
                                      /\ dict_get e (KStr "type") = Some ty) d
    /\ Forall2 (fun kv f => field_of kv = Ok f)
         (filter (fun kv => negb (has_default (snd kv))) d
          ++ filter (fun kv => has_default (snd kv)) d) fields
    /\ mapR validator_items (map snd d) = Ok validators
    /\ t = VDataconfig (type_name k) fields
             (dict_of_items (List.concat validators)) bases.
Proof.
  unfold _spec_to_type. change (spec_key 6) with "default".
  intro H. inv_run.
  destruct value; try discriminate.
  match goal with H : py_items (VDict _) = Ok _ |- _ =>
    simpl in H; inversion H; subst; clear H end.
  match goal with H : Ok _ = Ok t |- _ => inversion H; subst; clear H end.
  repeat match goal with H : filterR _ _ = Ok _ |- _ =>
    apply filterR_Ok in H; destruct H as [? ?] end.
  subst.
  match goal with H : mapR field_of _ = Ok _ |- _ =>
    apply mapR_Ok in H; rename H into Hfields end.
  assert (Hd : Forall (fun kv => exists e ty, snd kv = VDict e
                          /\ dict_get e (KStr "type") = Some ty) a).
  { apply Forall_forall. intros [k0 v0] Hin.
    match goal with
    | H : Forall (fun a => exists b, py_in "default" (snd a) = Ok b) _ |- _ =>
        rewrite Forall_forall in H; destruct (H _ Hin) as [b Hb]
    end.
    simpl in Hb.
    assert (Hf : exists f, field_of (k0, v0) = Ok f).
    { destruct b.
      - assert (Hi : In (k0, v0)
                  (filter (fun a => match py_in "default" (snd a) with
                                    | Ok b => b | Err _ => false end) a))
          by (apply filter_In; split; [assumption | simpl; now rewrite Hb]).
        eapply (Forall2_app_inv_l) in Hfields.
        destruct Hfields as [l1 [l2 [_ [HF2 _]]]].
        clear - HF2 Hi. induction HF2; [contradiction|].
        destruct Hi as [<- | Hi]; [eauto | auto].
      - assert (Hi : In (k0, v0)
                  (filter (fun a =>
                     match (let? b := py_in "default" (snd a) in Ok (negb b)) with
                     | Ok b => b | Err _ => false end) a))
          by (apply filter_In; split; [assumption | simpl; now rewrite Hb]).
        eapply (Forall2_app_inv_l) in Hfields.
        destruct Hfields as [l1 [l2 [HF1 [_ _]]]].
        clear - HF1 Hi. induction HF1; [contradiction|].
        destruct Hi as [<- | Hi]; [eauto | auto]. }
    destruct Hf as [f Hf].
    destruct (field_of_Ok _ _ Hb Hf) as [e [ty [-> [Ht _]]]].
    now exists e, ty. }
  exists a, a2, a3. repeat split; try assumption.
  assert (E1 : filter (fun a0 =>
                 match (let? b := py_in "default" (snd a0) in Ok (negb b)) with
                 | Ok b => b | Err _ => false end) a
               = filter (fun kv => negb (has_default (snd kv))) a).
  { apply filter_ext_in. intros kv Hin. rewrite Forall_forall in Hd.
    destruct (Hd _ Hin) as [e [ty [-> _]]]. reflexivity. }
  assert (E2 : filter (fun a0 => match py_in "default" (snd a0) with
                                 | Ok b => b | Err _ => false end) a
               = filter (fun kv => has_default (snd kv)) a).
  { apply filter_ext_in. intros kv Hin. rewrite Forall_forall in Hd.
    destruct (Hd _ Hin) as [e [ty [-> _]]]. reflexivity. }
  now rewrite <- E1, <- E2.
Qed.

Lemma field_of_name (kv : key * pyval) (f : pyval) :
  field_of kv = Ok f -> field_name f = val_of_key (fst kv).
Proof.
  destruct kv as [k v]. rewrite field_of_eq. intro H. inv_run.
  match goal with H : Ok _ = Ok f |- _ => inversion H; subst end.
  reflexivity.
Qed.

Example field_order_declared_a_b :
  _spec_to_type (KStr "config") (VDict fields_a_b) []
  = Ok (VDataconfig "config_t"
          [VTuple [VStr "a"; VRegType "T"];
           VTuple [VStr "b"; VRegType "U"; VInt 0]] [] []).
Proof. reflexivity. Qed.

Example field_order_declared_b_a :
  _spec_to_type (KStr "config") (VDict fields_b_a) []
  = _spec_to_type (KStr "config") (VDict fields_a_b) [].
Proof. reflexivity. Qed.

(** ** The branch interpreter *)

(** A run of [_type] that returns has looked up the name of the rule. *)
Lemma _type_Ok (NS : namespace) (value t : pyval) (w : list warning) :
  _type NS value = (Ok t, w) ->
  exists d n, value = VDict d /\ dict_get d (KStr "type") = Some (VStr n)
              /\ In n (NS_types NS).
Proof.
  unfold _type. change (spec_key 0) with "type". intro H.
  apply bind_Ok in H. destruct H as [opts [w1 [w2 [Hopts [H _]]]]].
  apply lift_Ok in Hopts. destruct Hopts as [Hopts _].
  destruct value; try discriminate.
  assert (Hn : exists nm n w' w'',
             lift (py_getitem (VDict entries) "type") = (Ok nm, w')
             /\ lift (getattr (NS_types NS) nm) = (Ok n, w'')).
  { destruct (truthy opts && is_Sequence opts);
      [|destruct (truthy opts && is_dict opts)];
      apply bind_Ok in H; destruct H as [nm [w' [? [Hnm [H _]]]]];
      apply bind_Ok in H; destruct H as [n [w'' [? [Hg _]]]];
      now exists nm, n, w', w''. }
  destruct Hn as [nm [n [w' [w'' [Hnm Hg]]]]].
  apply lift_Ok in Hnm. destruct Hnm as [Hnm _].
  apply lift_Ok in Hg. destruct Hg as [Hg _].
  apply getattr_Ok in Hg. destruct Hg as [-> Hin].
  simpl in Hnm. destruct (dict_get entries (KStr "type")) eqn:E;
    [|discriminate].
  inversion Hnm; subst. now exists entries, n.
Qed.

(** Whenever [_nested_type] returns, the mapping had neither a [type] nor a
    [validator] entry of its own, and the result pairs the synthesized type
    with the mapping itself, unchanged, under [validator]. *)
Lemma _nested_type_Ok (NS : namespace) (k : key) (value r : pyval)
  (w : list warning) :
  _nested_type NS k value = (Ok r, w) ->
  exists d t,
    value = VDict d
    /\ _spec_to_type k value [] = Ok t
    /\ dict_mem d (KStr "type") = false
    /\ dict_mem d (KStr "validator") = false
    /\ r = VDict [(KStr "type", t); (KStr "validator", VDict d)]
    /\ w = [].
Proof.
  unfold _nested_type. intro H. inv_run. subst.
  match goal with H : _spec_to_type _ _ _ = Ok _ |- _ =>
    pose proof H as Hs; apply _spec_to_type_Ok in H;
    destruct H as [d [fields [validators [-> [Hd _]]]]] end.
  match goal with H : _str_to_spec _ _ _ = _ |- _ =>
    apply _str_to_spec_Ok in H; destruct H as [d1 [H1 H2]] end.
  rewrite Forall_forall in Hd.
  assert (Hnot : forall x, dict_get d (KStr x) = None
                           \/ exists e, dict_get d (KStr x) = Some (VDict e)).
  { intro x. destruct (dict_get d (KStr x)) as [v|] eqn:E; [right | now left].
    assert (Hin : In (KStr x, v) d \/ exists k', In (k', v) d).
    { right. clear - E. induction d as [|[k' v'] r IH]; [discriminate|].
      simpl in E. destruct (key_eqb k' (KStr x)).
      - inversion E; subst. exists k'. now left.
      - destruct (IH E) as [k2 Hk]. exists k2. now right. }
    destruct Hin as [Hin | [k' Hin]];
      destruct (Hd _ Hin) as [e [ty [Hv _]]]; simpl in Hv; subst; eauto. }
  assert (Ht : dict_mem d (KStr "type") = false).
  { destruct (dict_mem d (KStr "type")) eqn:E; [|reflexivity].
    destruct H1 as [t [H1 _]]. apply _type_Ok in H1.
    destruct H1 as [d' [n [Ed [Hn _]]]]. inversion Ed; subst d'.
    destruct (Hnot "type") as [Hx | [e Hx]]; congruence. }
  rewrite Ht in H1. destruct H1 as [-> ->].
  assert (Hv : dict_mem d (KStr "validator") = false).
  { destruct (dict_mem d (KStr "validator")) eqn:E; [|reflexivity].
    destruct H2 as [v [H2 _]]. apply _validator_Ok in H2.
    destruct H2 as [d' [nm [func [kw [Ed [Hn _]]]]]]. inversion Ed; subst d'.
    destruct (Hnot "validator") as [Hx | [e Hx]]; congruence. }
  rewrite Hv in H2. subst.
  exists d. eexists. repeat split; try eassumption; reflexivity.
Qed.

(** C3.  The mapping [_nested_type] returns has the two keys [type] and
    [validator], but its [validator] entry is no validator binding: for a
    branch without validator declarations it is the mapping of the children
    itself, and for a branch that declares a validator the call does not
    return, [_spec_to_type] raising on the declaration. *)
Theorem C3_branch_validator_entry :
  _nested_type NS0 (KStr "grp") (VDict branch_children)
  = (Ok (VDict [(KStr "type",
                 VDataconfig "grp_t" [VTuple [VStr "x"; VRegType "T"]] [] []);
                (KStr "validator", VDict branch_children)]), [])
  /\ _nested_type NS0 (KStr "grp") (VDict branch_with_validator)
     = (Err (TypeError "argument is not iterable"), [])
  /\ _validator NS0 (KStr "grp") (VDict branch_with_validator)
     = Ok (VDict [(KStr "check",
                   VClassmethod "check" (KStr EmptyString) (VDict []) [])]).
Proof. repeat split. Qed.

(** ** The rounds of the fold driver *)

Lemma max_len_In (s : list path) (p : path) :
  In p s -> List.length p <= max_len s.
Proof.
  induction s as [|q r IH]; simpl; [contradiction|].
  intros [-> | H]; [lia | specialize (IH H); lia].
Qed.

Lemma max_len_lt (s : list path) (n : nat) :
  s <> [] -> (forall p, In p s -> List.length p < n) -> max_len s < n.
Proof.
  induction s as [|q r IH]; [congruence|]. intros _ H. simpl.
  destruct r as [|q' r'].
  - simpl. specialize (H q (or_introl eq_refl)). lia.
  - assert (max_len (q' :: r') < n)
      by (apply IH; [discriminate | intros p Hp; apply H; now right]).
    specialize (H q (or_introl eq_refl)). lia.
Qed.

Lemma max_len_incl (s t : list path) :
  (forall p, In p s -> In p t) -> max_len s <= max_len t.
Proof.
  intro H. induction s as [|q r IH]; simpl; [lia|].
  assert (List.length q <= max_len t) by (apply max_len_In, H; now left).
  assert (max_len r <= max_len t) by (apply IH; intros p Hp; apply H; now right).
  lia.
Qed.

Lemma removelast_shorter (p : path) :
  p <> [] -> S (List.length (removelast p)) = List.length p.
Proof.
  induction p as [|k r IH]; [congruence|]. intros _.
  destruct r as [|k' r']; [reflexivity|].
  change (removelast (k :: k' :: r')) with (k :: removelast (k' :: r')).
  change (List.length (k :: removelast (k' :: r')))
    with (S (List.length (removelast (k' :: r')))).
  rewrite IH by discriminate. reflexivity.
Qed.

Lemma parents_In (s : list path) (q : path) :
  In q (parents s) <->
  exists p, In p s /\ q = removelast p /\ removelast p <> [].
Proof.
  unfold parents. rewrite set_of_In, in_map_iff. split.
  - intros [p [E H]]. apply filter_In in H. destruct H as [Hin Hne].
    exists p. repeat split; [assumption | now symmetry |].
    destruct (removelast p); [discriminate | discriminate].
  - intros [p [Hin [-> Hne]]]. exists p. split; [reflexivity|].
    apply filter_In. split; [assumption|].
    destruct (removelast p); [congruence | reflexivity].
Qed.

Lemma parents_nonempty (s : list path) (q : path) :
  In q (parents s) -> q <> [].
Proof.
  intro H. apply parents_In in H. destruct H as [p [_ [-> Hne]]]. exact Hne.
Qed.

(** Every round makes the longest path of the ring shorter. *)
Lemma parents_shorter (s : list path) :
  parents s = [] \/ max_len (parents s) < max_len s.
Proof.
  destruct (parents s) eqn:E; [now left | right]. rewrite <- E.
  apply max_len_lt; [rewrite E; discriminate|].
  intros q Hq. apply parents_In in Hq. destruct Hq as [p0 [Hin [-> Hne]]].
  assert (Hp : p0 <> []) by (intros ->; now apply Hne).
  pose proof (removelast_shorter Hp). pose proof (max_len_In _ _ Hin). lia.
Qed.

Lemma bindT_Some {A B} (m : M A) (g : A -> M B) :
  bindT (Some m) (fun a => Some (g a)) = Some (bind m g).
Proof.
  destruct m as [[a|e] w]; simpl; [|reflexivity]. now destruct (g a).
Qed.

Lemma bindT_ext {A B} (m : option (M A)) (f g : A -> option (M B)) :
  (forall a, f a = g a) -> bindT m f = bindT m g.
Proof.
  intro H. destruct m as [[[a|e] w]|]; simpl; [now rewrite H | | ]; reflexivity.
Qed.

(** With more rounds allowed than the longest path of the first ring has
    keys, the loop ends, having applied its body to the successive rings. *)
Lemma while_branches_rounds (body : pyval -> list path -> M pyval)
  (fuel : nat) (conf : pyval) (branches : list path) :
  max_len branches < fuel ->
  while_branches fuel body conf branches
  = Some (reduce body (rounds fuel branches) conf).
Proof.
  revert conf branches. induction fuel as [|fuel IH]; intros conf s H; [lia|].
  destruct s as [|p r]; [reflexivity|].
  change (while_branches (S fuel) body conf (p :: r))
    with (bindT (Some (body conf (p :: r)))
            (fun c => while_branches fuel body c (parents (p :: r)))).
  change (rounds (S fuel) (p :: r))
    with ((p :: r) :: rounds fuel (parents (p :: r))).
  simpl reduce. rewrite <- bindT_Some. apply bindT_ext.
  intro c. destruct (parents_shorter (p :: r)) as [E | Hlt].
  - rewrite E. destruct fuel; reflexivity.
  - apply IH. lia.
Qed.

Lemma rounds_length (fuel : nat) (s : list path) :
  (forall p, In p s -> p <> []) ->
  List.length (rounds fuel s) <= max_len s.
Proof.
  revert s. induction fuel as [|fuel IH]; intros s H.
  - destruct s; simpl; lia.
  - destruct s as [|p r]; [simpl; lia|].
    change (rounds (S fuel) (p :: r))
      with ((p :: r) :: rounds fuel (parents (p :: r))).
    simpl List.length.
    specialize (IH (parents (p :: r)) (@parents_nonempty (p :: r))).
    destruct (parents_shorter (p :: r)) as [E | Hlt]; [|lia].
    rewrite E in *.
    assert (En : rounds fuel [] = []) by (destruct fuel; reflexivity).
    rewrite En. simpl List.length.
    assert (1 <= List.length p).
    { destruct p; [exfalso; now apply (H [] (or_introl eq_refl)) | simpl; lia]. }
    assert (List.length p <= max_len (p :: r))
      by (apply max_len_In; now left).
    lia.
Qed.

Lemma _leaves_incl (paths : list path) (p : path) :
  In p (_leaves paths) -> In p paths.
Proof.
  unfold _leaves. rewrite set_of_In, filter_In. tauto.
Qed.

Lemma _nodes_nonempty (conf : pyval) (p : path) :
  In p (_nodes conf) -> p <> [].
Proof.
  intros H ->. apply _nodes_In in H.
  destruct H as [p' [k [v [_ [E _]]]]]. now destruct p'.
Qed.

Lemma first_ring_incl (conf : pyval) (p : path) :
  In p (first_ring conf) -> In p (_nodes conf).
Proof.
  unfold first_ring. intro H. apply _leaves_incl in H.
  apply set_diff_In in H. tauto.
Qed.

Lemma bindT_finishes {A B} (m : option (M A)) (f : A -> option (M B)) :
  m <> None -> (forall a, f a <> None) -> bindT m f <> None.
Proof.
  intros Hm Hf. destruct m as [[[a|e] w]|]; simpl; try discriminate; try congruence.
  specialize (Hf a). destruct (f a) as [[r w']|]; [discriminate | congruence].
Qed.

Lemma get_config_t_finishes (NS : namespace) (iter : list path -> list path)
  (conf : pyval) :
  get_config_t NS iter conf <> None.
Proof.
  unfold get_config_t. apply bindT_finishes; [discriminate|].
  intro c. apply bindT_finishes; [|discriminate].
  rewrite while_branches_rounds by lia. discriminate.
Qed.

(** The call as one computation over the schedule of the document. *)
Lemma get_config_t_schedule (NS : namespace) (iter : list path -> list path)
  (conf : pyval) :
  get_config_t NS iter conf =
  Some (c1 <- reduce (_update_inplace (_str_to_spec NS))
                (iter (_leaves (_nodes conf))) (deepcopy conf) ;;
        c2 <- reduce (fun c bs => reduce (_update_inplace (_nested_type NS))
                                    (iter bs) c)
                (schedule conf) c1 ;;
        lift (_spec_to_type (KStr "config") c2 [ConfigIO])).
Proof.
  unfold get_config_t. rewrite <- bindT_Some. apply bindT_ext. intro c1.
  fold (first_ring conf). rewrite while_branches_rounds by lia.
  fold (schedule conf). apply bindT_Some.
Qed.

(** X21.  The loop of [get_config_t] ends for every document and every
    iteration order: with the rounds it is given it applies its body to the
    rings of the schedule and stops; a round makes the longest path of the
    ring strictly shorter, and the number of rounds is at most the length of
    the longest node path of the document. *)
Theorem rounds_terminate (NS : namespace) (iter : list path -> list path)
  (conf : pyval) :
  get_config_t NS iter conf <> None
  /\ (forall body c,
        while_branches (S (max_len (first_ring conf))) body c (first_ring conf)
        = Some (reduce body (schedule conf) c))
  /\ (forall ring,
        parents ring = [] \/ max_len (parents ring) < max_len ring)
  /\ List.length (schedule conf) <= max_len (_nodes conf).
Proof.
  split; [apply get_config_t_finishes|]. split; [|split].
  - intros body c. unfold schedule. apply while_branches_rounds. lia.
  - apply parents_shorter.
  - unfold schedule.
    etransitivity; [apply rounds_length|apply max_len_incl, first_ring_incl].
    intros p Hp. apply first_ring_incl in Hp. now apply _nodes_nonempty in Hp.
Qed.

(** ** Resolution order *)

Lemma Permutation_pair {A} (l : list A) (x y : A) :
  Permutation l [x; y] -> l = [x; y] \/ l = [y; x].
Proof.
  intro H. pose proof (Permutation_length H) as Hl.
  destruct l as [|a [|b [|c r]]]; try discriminate.
  assert (Ha : In a [x; y]) by (eapply Permutation_in; [exact H | now left]).
  assert (Hb : In b [x; y])
    by (eapply Permutation_in; [exact H | right; now left]).
  assert (Hx : In x [a; b])
    by (eapply Permutation_in; [symmetry; exact H | now left]).
  assert (Hy : In y [a; b])
    by (eapply Permutation_in; [symmetry; exact H | right; now left]).
  simpl in *.
  destruct Ha as [<-|[<-|[]]]; destruct Hb as [<-|[<-|[]]]; auto;
    destruct Hx as [Hx|[Hx|[]]]; destruct Hy as [Hy|[Hy|[]]]; subst; auto.
Qed.

Lemma Permutation_single {A} (l : list A) (x : A) :
  Permutation l [x] -> l = [x].
Proof. intro H. symmetry in H. now apply Permutation_length_1_inv in H. Qed.

(** The document with branches of uneven depth makes the call raise in
    whatever order the sets are iterated. *)
Lemma doc_uneven_raises (iter : list path -> list path) :
  (forall s, Permutation (iter s) s) ->
  exists e w, get_config_t NS0 iter doc_uneven = Some (Err e, w).
Proof.
  intro Hperm.
  pose proof (Permutation_pair (Hperm [[KStr "a"; KStr "b"; KStr "c"];
                    [KStr "a"; KStr "d"; KStr "e"; KStr "f"]])) as Hl.
  pose proof (Permutation_pair (Hperm [[KStr "a"; KStr "b"];
                    [KStr "a"; KStr "d"; KStr "e"]])) as H1.
  pose proof (Permutation_pair (Hperm [[KStr "a"]; [KStr "a"; KStr "d"]])) as H2.
  pose proof (Permutation_single (Hperm [[KStr "a"]])) as H3.
  rewrite get_config_t_schedule.
  change (_leaves (_nodes doc_uneven))
    with [[KStr "a"; KStr "b"; KStr "c"];
          [KStr "a"; KStr "d"; KStr "e"; KStr "f"]].
  change (schedule doc_uneven)
    with [[[KStr "a"; KStr "b"]; [KStr "a"; KStr "d"; KStr "e"]];
          [[KStr "a"]; [KStr "a"; KStr "d"]]; [[KStr "a"]]].
  cbn [reduce]. cbn beta.
  set (l0 := iter [[KStr "a"; KStr "b"; KStr "c"];
                   [KStr "a"; KStr "d"; KStr "e"; KStr "f"]]) in *.
  set (l1 := iter [[KStr "a"; KStr "b"]; [KStr "a"; KStr "d"; KStr "e"]]) in *.
  set (l2 := iter [[KStr "a"]; [KStr "a"; KStr "d"]]) in *.
  set (l3 := iter [[KStr "a"]]) in *.
  clearbody l0 l1 l2 l3. subst l3.
  destruct Hl as [-> | ->]; destruct H1 as [-> | ->];
    destruct H2 as [-> | ->]; vm_compute; eauto.
Qed.

(** C9.  The rounds of the loop of [get_config_t] do not resolve each branch
    exactly once.  For the document [{a: {b: {c: ..}, d: {e: {f: ..}}}}] the
    branch [a] is in the second ring and in the third, the third round
    leaves the set of the branch paths not yet in a ring as it was, empty,
    and the call raises in whatever order the sets are iterated. *)
Theorem C9_branch_resolved_twice :
  schedule doc_uneven =
    [[[KStr "a"; KStr "b"]; [KStr "a"; KStr "d"; KStr "e"]];
     [[KStr "a"]; [KStr "a"; KStr "d"]];
     [[KStr "a"]]]
  /\ ~ NoDup (List.concat (schedule doc_uneven))
  /\ ~ (forall i, i < List.length (schedule doc_uneven) ->
                  List.length (unprocessed doc_uneven (S i))
                  < List.length (unprocessed doc_uneven i))
  /\ (forall iter : list path -> list path,
        (forall s, Permutation (iter s) s) ->
        exists e w, get_config_t NS0 iter doc_uneven = Some (Err e, w)).
Proof.
  split; [reflexivity|]. split; [|split].
  - intro H. change (List.concat (schedule doc_uneven))
      with ([[KStr "a"; KStr "b"]; [KStr "a"; KStr "d"; KStr "e"];
             [KStr "a"]; [KStr "a"; KStr "d"]; [KStr "a"]]) in H.
    inversion H as [|? ? _ Hd1]. inversion Hd1 as [|? ? _ Hd2].
    inversion Hd2 as [|? ? Hn _]. apply Hn. right. now left.
  - intro H. specialize (H 2). vm_compute in H.
    assert (Hlt : 3 <= 3) by lia. specialize (H Hlt). inversion H.
  - exact doc_uneven_raises.
Qed.

(** C1.  For the document [{a: {b: {c: ..}, d: {e: {f: ..}}}}] the loop of
    [get_config_t] puts the branch [a] in the same ring as its child
    [(a, d)], and again in the next ring: the second ring is not the set of
    leaves of the branch paths still unprocessed, which holds [(a, d)]
    alone, and the call raises in either iteration order. *)
Theorem C1_uneven_document_order :
  _nodes doc_uneven =
    [[KStr "a"]; [KStr "a"; KStr "b"]; [KStr "a"; KStr "b"; KStr "c"];
     [KStr "a"; KStr "d"]; [KStr "a"; KStr "d"; KStr "e"];
     [KStr "a"; KStr "d"; KStr "e"; KStr "f"]]
  /\ schedule doc_uneven =
       [[[KStr "a"; KStr "b"]; [KStr "a"; KStr "d"; KStr "e"]];
        [[KStr "a"]; [KStr "a"; KStr "d"]];
        [[KStr "a"]]]
  /\ unprocessed doc_uneven 1 = [[KStr "a"]; [KStr "a"; KStr "d"]]
  /\ _leaves (unprocessed doc_uneven 1) = [[KStr "a"; KStr "d"]]
  /\ get_config_t NS0 in_order doc_uneven
     = Some (Err (PathAccessError "type"), [])
  /\ get_config_t NS0 in_reverse doc_uneven
     = Some (Err (TypeError "argument is not iterable"), []).
Proof. repeat split. Qed.

(** For a document whose branches are of even depth the rings go up level by
    level and the call returns a type. *)
Example doc_even_schedule :
  schedule doc_even =
    [[[KStr "a"; KStr "b"]; [KStr "d"; KStr "e"]]; [[KStr "a"]; [KStr "d"]]]
  /\ exists t, get_config_t NS0 in_order doc_even = Some (Ok t, []).
Proof. split; [reflexivity | eexists; reflexivity]. Qed.

(** ** Base classes *)

Lemma nobase_dict_get (d : list (key * pyval)) (k : key) (v : pyval) :
  entries_nobase d = true -> dict_get d k = Some v -> nobase v = true.
Proof.
  unfold entries_nobase. induction d as [|[k' v'] r IH]; simpl; [discriminate|].
  intros H E. apply andb_true_iff in H. destruct H as [Hv Hr].
  destruct (key_eqb k' k); [inversion E; now subst | now apply IH].
Qed.

Lemma nobase_dict_set (d : list (key * pyval)) (k : key) (v : pyval) :
  entries_nobase d = true -> nobase v = true ->
  entries_nobase (dict_set d k v) = true.
Proof.
  unfold entries_nobase. intros Hd Hv.
  induction d as [|[k' v'] r IH]; simpl; [now rewrite Hv|].
  simpl in Hd. apply andb_true_iff in Hd. destruct Hd as [Hv' Hr].
  destruct (key_eqb k' k); simpl.
  - now rewrite Hv, Hr.
  - now rewrite Hv', IH.
Qed.

Lemma nobase_nth_error (l : list pyval) (n : nat) (v : pyval) :
  forallb nobase l = true -> nth_error l n = Some v -> nobase v = true.
Proof.
  intros H E. apply nth_error_In in E. rewrite forallb_forall in H. auto.
Qed.

Lemma nobase_list_set (l l' : list pyval) (n : nat) (v : pyval) :
  forallb nobase l = true -> nobase v = true ->
  list_set l n v = Some l' -> forallb nobase l' = true.
Proof.
  revert l' n. induction l as [|x r IH]; intros l' n Hl Hv E;
    [destruct n; discriminate|].
  simpl in Hl. apply andb_true_iff in Hl. destruct Hl as [Hx Hr].
  destruct n as [|n]; simpl in E.
  - inversion E; subst. simpl. now rewrite Hv, Hr.
  - destruct (list_set r n v) as [r'|] eqn:Er; [|discriminate].
    inversion E; subst. simpl. rewrite Hx. simpl. eapply IH; eauto.
Qed.

Lemma nobase_seq_index (l : list pyval) (i : Z) (v : pyval) :
  forallb nobase l = true -> seq_index l i = Some v -> nobase v = true.
Proof.
  unfold seq_index. intros H E.
  destruct (i <? 0)%Z; [destruct (Z.of_nat (List.length l) + i <? 0)%Z;
                        [discriminate|]|];
    eapply nobase_nth_error; eauto.
Qed.

Lemma nobase_seq_assign (l l' : list pyval) (i : Z) (v : pyval) :
  forallb nobase l = true -> nobase v = true ->
  seq_assign l i v = Some l' -> forallb nobase l' = true.
Proof.
  unfold seq_assign. intros H Hv E.
  destruct (i <? 0)%Z; [destruct (Z.of_nat (List.length l) + i <? 0)%Z;
                        [discriminate|]|];
    eapply nobase_list_set; eauto.
Qed.

Lemma nobase_glom_get1 (target v : pyval) (seg : string) :
  nobase target = true -> glom_get1 target seg = Ok v -> nobase v = true.
Proof.
  intros H E. destruct target; simpl in E; try discriminate.
  - destruct (int_of_str seg); [|discriminate].
    destruct (seq_index items z) eqn:Ei; [|discriminate].
    inversion E; subst. eapply nobase_seq_index; eauto.
  - destruct (int_of_str seg); [|discriminate].
    destruct (seq_index items z) eqn:Ei; [|discriminate].
    inversion E; subst. eapply nobase_seq_index; eauto.
  - destruct (dict_get entries (KStr seg)) eqn:Ed; [|discriminate].
    inversion E; subst. eapply nobase_dict_get; eauto.
Qed.

Lemma nobase_glom_get (segs : list string) (target v : pyval) :
  nobase target = true -> glom_get target segs = Ok v -> nobase v = true.
Proof.
  revert target. induction segs as [|s r IH]; simpl; intros target H E.
  - inversion E. now subst.
  - inv_run. eapply IH; [|eassumption]. eapply nobase_glom_get1; eauto.
Qed.

Lemma nobase_glom_set1 (target val v : pyval) (seg : string) :
  nobase target = true -> nobase val = true ->
  glom_set1 target seg val = Ok v -> nobase v = true.
Proof.
  intros H Hv E. destruct target; simpl in E; try discriminate.
  - destruct (int_of_str seg); [|discriminate].
    destruct (seq_assign items z val) eqn:Ei; [|discriminate].
    inversion E; subst. simpl. eapply nobase_seq_assign; eauto.
  - inversion E; subst. apply nobase_dict_set; assumption.
Qed.

Lemma nobase_replace_child (target child : pyval) (seg : string) :
  nobase target = true -> nobase child = true ->
  nobase (replace_child target seg child) = true.
Proof.
  intros H Hc. destruct target; simpl; try exact H.
  - destruct (int_of_str seg); [|exact H].
    destruct (seq_assign items z child) eqn:Ei; [|exact H].
    simpl. eapply nobase_seq_assign; eauto.
  - destruct (int_of_str seg); [|exact H].
    destruct (seq_assign items z child) eqn:Ei; [|exact H].
    simpl. eapply nobase_seq_assign; eauto.
  - apply nobase_dict_set; assumption.
Qed.

Lemma nobase_glom_assign (segs : list string) (target val v : pyval) :
  nobase target = true -> nobase val = true ->
  glom_assign target segs val = Ok v -> nobase v = true.
Proof.
  revert target v. induction segs as [|s r IH]; intros target v H Hv E;
    [discriminate|].
  destruct r as [|s' r'].
  - simpl in E. exact (nobase_glom_set1 _ _ _ H Hv E).
  - change (glom_assign target (s :: s' :: r') val)
      with (let? child := glom_get1 target s in
            let? child' := glom_assign child (s' :: r') val in
            Ok (replace_child target s child')) in E.
    inv_run.
    match goal with H : Ok _ = Ok v |- _ => inversion H; subst end.
    apply nobase_replace_child; [assumption|].
    match goal with
    | Hg : glom_get1 target s = Ok ?c, Ha : glom_assign ?c _ _ = Ok _ |- _ =>
        exact (IH _ _ (nobase_glom_get1 _ _ H Hg) Hv Ha)
    end.
Qed.

Lemma nobase_val_of_key (k : key) : nobase (val_of_key k) = true.
Proof. now destruct k. Qed.

Lemma nobase_chars (s : string) : forallb nobase (chars s) = true.
Proof. induction s; simpl; [reflexivity | assumption]. Qed.

Lemma nobase_tuple_of (v : pyval) (l : list pyval) :
  nobase v = true -> tuple_of v = Ok l -> forallb nobase l = true.
Proof.
  intros H E. destruct v; simpl in E; try discriminate; inversion E; subst.
  - apply nobase_chars.
  - exact H.
  - exact H.
  - clear. induction entries as [|[k v] r IH]; simpl; [reflexivity|].
    now rewrite nobase_val_of_key.
Qed.

Lemma nobase_kwargs_of (v : pyval) (kw : list (key * pyval)) :
  nobase v = true -> kwargs_of v = Ok kw -> entries_nobase kw = true.
Proof.
  intros H E. destruct v; simpl in E; try discriminate.
  destruct (forallb (fun kv => key_is_str (fst kv)) entries); [|discriminate].
  inversion E; subst. exact H.
Qed.

Lemma nobase_py_get (v a default : pyval) (x : string) :
  nobase v = true -> nobase default = true ->
  py_get v x default = Ok a -> nobase a = true.
Proof.
  intros H Hd E. destruct v; simpl in E; try discriminate.
  destruct (dict_get entries (KStr x)) eqn:Eg; inversion E; subst;
    [eapply nobase_dict_get; eauto | assumption].
Qed.

Lemma nobase_get_or (d : list (key * pyval)) (x : string) (default : pyval) :
  entries_nobase d = true -> nobase default = true ->
  nobase (get_or d x default) = true.
Proof.
  intros H Hd. unfold get_or.
  destruct (dict_get d (KStr x)) eqn:E; [eapply nobase_dict_get; eauto | exact Hd].
Qed.

Lemma nobase__type (NS : namespace) (value t : pyval) (w : list warning) :
  nobase value = true -> _type NS value = (Ok t, w) -> nobase t = true.
Proof.
  unfold _type. intros H E.
  apply bind_Ok in E. destruct E as [opts [w1 [w2 [Ho [E _]]]]].
  apply lift_Ok in Ho. destruct Ho as [Ho _].
  assert (Hopts : nobase opts = true)
    by (eapply nobase_py_get; [exact H | | exact Ho]; reflexivity).
  destruct (truthy opts && is_Sequence opts);
    [|destruct (truthy opts && is_dict opts)]; inv_run; subst.
  - simpl. eapply nobase_tuple_of; eauto.
  - simpl. eapply nobase_kwargs_of; eauto.
  - reflexivity.
Qed.

Lemma nobase__validator (NS : namespace) (k : key) (value b : pyval) :
  nobase value = true -> _validator NS k value = Ok b -> nobase b = true.
Proof.
  intros H E. apply _validator_Ok in E.
  destruct E as [d [name [func [kw [-> [_ [_ [Hkw ->]]]]]]]].
  simpl in H. fold (entries_nobase d) in H.
  unfold make_validator. simpl. rewrite nobase_get_or by auto. simpl.
  unfold validator_kwargs in Hkw. inv_run.
  match goal with H : kwargs_of _ = Ok ?a |- _ =>
    assert (Ha : entries_nobase a = true)
      by (eapply nobase_kwargs_of; [|exact H]; now apply nobase_get_or) end.
  match goal with H : (if _ then _ else _) = Ok kw |- _ =>
    destruct (dict_mem _ _) in H; [discriminate | inversion H; subst] end.
  fold (entries_nobase kw). now rewrite Ha.
Qed.

Lemma nobase__str_to_spec (NS : namespace) (k : key) (value r : pyval)
  (w : list warning) :
  nobase value = true -> _str_to_spec NS k value = (Ok r, w) ->
  nobase r = true.
Proof.
  intros H E. destruct value;
    try (unfold _str_to_spec in E; simpl in E; discriminate).
  - (* a string *)
    unfold _str_to_spec in E. inv_run. subst.
    repeat match goal with
    | H : (if ?b then _ else _) = (Ok _, _) |- _ =>
        destruct b; inv_run; subst; try discriminate
    end.
    reflexivity.
  - unfold _str_to_spec in E. inv_run. subst.
    repeat match goal with
    | H : (if ?b then _ else _) = (Ok _, _) |- _ =>
        destruct b; inv_run; subst; try discriminate
    end.
    assumption.
  - unfold _str_to_spec in E. inv_run. subst.
    repeat match goal with
    | H : (if ?b then _ else _) = (Ok _, _) |- _ =>
        destruct b; inv_run; subst; try discriminate
    end.
    assumption.
  - apply _str_to_spec_Ok in E. destruct E as [d1 [H1 H2]].
    simpl in H. fold (entries_nobase entries) in H.
    assert (Hd1 : entries_nobase d1 = true).
    { destruct (dict_mem entries (KStr "type")).
      - destruct H1 as [t [Ht ->]]. apply nobase_dict_set; [assumption|].
        eapply nobase__type; [|exact Ht]. exact H.
      - now destruct H1 as [-> _]. }
    destruct (dict_mem d1 (KStr "validator")).
    + destruct H2 as [v [Hv ->]]. simpl. apply nobase_dict_set; [assumption|].
      eapply nobase__validator; [|exact Hv]. exact Hd1.
    + now subst.
Qed.

Lemma nobase_field_of (kv : key * pyval) (f : pyval) :
  nobase (snd kv) = true -> field_of kv = Ok f -> nobase f = true.
Proof.
  destruct kv as [k v]. rewrite field_of_eq. simpl. intros H E. inv_run.
  match goal with H : Ok _ = Ok f |- _ => inversion H; subst end.
  simpl. rewrite nobase_val_of_key. simpl.
  match goal with Hg : glom_get1 v "type" = Ok ?t |- _ =>
    rewrite (nobase_glom_get1 _ _ H Hg) end.
  simpl. destruct (glom_get1 v "default") eqn:Ed; simpl; [|reflexivity].
  now rewrite (nobase_glom_get1 _ _ H Ed).
Qed.

Lemma nobase_validator_items (v : pyval) (items : list (key * pyval)) :
  nobase v = true -> validator_items v = Ok items ->
  entries_nobase items = true.
Proof.
  unfold validator_items, glom. simpl. intros H E.
  destruct (glom_get1 v "validator") as [x|] eqn:Eg; simpl in E.
  - pose proof (nobase_glom_get1 _ _ H Eg) as Hx.
    destruct x; simpl in E; try discriminate. inversion E; subst. exact Hx.
  - inversion E. reflexivity.
Qed.

Lemma nobase_dict_of_items (items : list (key * pyval)) :
  entries_nobase items = true -> entries_nobase (dict_of_items items) = true.
Proof.
  unfold dict_of_items.
  assert (G : forall acc, entries_nobase acc = true ->
                          entries_nobase items = true ->
                          entries_nobase
                            (fold_left (fun d kv => dict_set d (fst kv) (snd kv))
                                       items acc) = true).
  { induction items as [|[k v] r IH]; intros acc Ha Hi; [exact Ha|].
    simpl in Hi. apply andb_true_iff in Hi. destruct Hi as [Hv Hr].
    simpl. apply IH; [|exact Hr]. now apply nobase_dict_set. }
  intro H. now apply G.
Qed.

Lemma entries_nobase_app (a b : list (key * pyval)) :
  entries_nobase (a ++ b) = entries_nobase a && entries_nobase b.
Proof. apply forallb_app. Qed.

(** The class [_spec_to_type] makes derives from the bases it is given, and
    the classes inside it from none. *)
Lemma nobase__spec_to_type (k : key) (value t : pyval) (bases : list base) :
  nobase value = true -> _spec_to_type k value bases = Ok t ->
  exists fields ns,
    t = VDataconfig (type_name k) fields ns bases
    /\ forallb nobase fields = true /\ entries_nobase ns = true.
Proof.
  intros H E. apply _spec_to_type_Ok in E.
  destruct E as [d [fields [validators [-> [_ [Hf [Hv ->]]]]]]].
  simpl in H. fold (entries_nobase d) in H.
  exists fields, (dict_of_items (List.concat validators)).
  split; [reflexivity|]. split.
  - assert (Hl : entries_nobase
                   (filter (fun kv => negb (has_default (snd kv))) d
                    ++ filter (fun kv => has_default (snd kv)) d) = true).
    { rewrite entries_nobase_app. unfold entries_nobase in *.
      rewrite forallb_forall in H.
      apply andb_true_iff; split; apply forallb_forall; intros x Hx;
        apply filter_In in Hx; now apply H. }
    revert Hl. induction Hf as [|kv f l fs Hkv _ IH]; [reflexivity|].
    simpl. intro Hl. apply andb_true_iff in Hl. destruct Hl as [Hx Hl].
    now rewrite (nobase_field_of _ Hx Hkv), IH.
  - apply nobase_dict_of_items.
    assert (G : forall l vs, forallb nobase l = true ->
                             mapR validator_items l = Ok vs ->
                             entries_nobase (List.concat vs) = true).
    { induction l as [|v r IH]; intros vs Hl Hm.
      - inversion Hm. reflexivity.
      - simpl in Hm. inv_run.
        match goal with H : Ok _ = Ok vs |- _ => inversion H; subst end.
        simpl in Hl. apply andb_true_iff in Hl. destruct Hl as [Hx Hl].
        simpl. rewrite entries_nobase_app.
        match goal with Hi : validator_items v = Ok _ |- _ =>
          rewrite (nobase_validator_items _ Hx Hi) end.
        simpl. eapply IH; eauto. }
    eapply G; [|exact Hv].
    clear - H. unfold entries_nobase in H.
    induction d as [|[k v] r IH]; [reflexivity|].
    simpl in *. apply andb_true_iff in H. destruct H as [Hx Hr].
    now rewrite Hx, IH.
Qed.

Lemma nobase__nested_type (NS : namespace) (k : key) (value r : pyval)
  (w : list warning) :
  nobase value = true -> _nested_type NS k value = (Ok r, w) ->
  nobase r = true.
Proof.
  intros H E. apply _nested_type_Ok in E.
  destruct E as [d [t [-> [Ht [_ [_ [-> _]]]]]]].
  destruct (nobase__spec_to_type _ _ _ H Ht) as [fields [ns [-> [Hf Hn]]]].
  simpl. fold (entries_nobase ns). rewrite Hf, Hn. simpl.
  simpl in H. now rewrite H.
Qed.

Lemma nobase__update_inplace (func : key -> pyval -> M pyval)
  (c c' : pyval) (p : path) (w : list warning) :
  (forall k v r w', nobase v = true -> func k v = (Ok r, w') ->
                    nobase r = true) ->
  nobase c = true -> _update_inplace func c p = (Ok c', w) ->
  nobase c' = true.
Proof.
  intros Hfunc H E. unfold _update_inplace in E. inv_run. subst.
  match goal with
  | Hg : glom c _ = Ok ?v, Hf : func _ ?v = (Ok ?r, _),
    Ha : glom_assign c _ ?r = Ok c' |- _ =>
      eapply nobase_glom_assign; [exact H | | exact Ha];
      eapply Hfunc; [|exact Hf];
      eapply nobase_glom_get; [exact H | exact Hg]
  end.
Qed.

Lemma reduce_invariant {A B} (P : A -> Prop) (f : A -> B -> M A)
  (xs : list B) (init a : A) (w : list warning) :
  (forall x b y w', P x -> f x b = (Ok y, w') -> P y) ->
  P init -> reduce f xs init = (Ok a, w) -> P a.
Proof.
  intro Hf. revert init w. induction xs as [|x r IH]; intros init w Hi E.
  - simpl in E. inversion E. now subst.
  - simpl in E. inv_run.
    match goal with
    | H1 : f init x = (Ok ?y, _), H2 : reduce f r ?y = _ |- _ =>
        eapply IH; [|exact H2]; eapply Hf; eauto
    end.
Qed.

(** C7.  The type [get_config_t] returns for a document derives from
    [_ConfigIO], which provides the construction from a rule file and the
    export to a dictionary, and no class synthesized inside it derives from
    any base; the type [_nested_type] makes for a branch has no base. *)
Theorem C7_only_root_has_io_base (NS : namespace)
  (iter : list path -> list path) (conf t : pyval) (w : list warning) :
  nobase conf = true ->
  get_config_t NS iter conf = Some (Ok t, w) ->
  (exists fields ns,
     t = VDataconfig "config_t" fields ns [ConfigIO]
     /\ forallb nobase fields = true
     /\ forallb (fun kv => nobase (snd kv)) ns = true)
  /\ (forall k value r w',
        _nested_type NS k value = (Ok r, w') ->
        exists name fields ns,
          py_getitem r "type" = Ok (VDataconfig name fields ns []))
  /\ incl ["from_yaml"; "from_json"; "to_dict"] (base_methods ConfigIO).
Proof.
  intros H E. split; [|split].
  - rewrite get_config_t_schedule in E. inversion E as [E']. clear E.
    inv_run. subst.
    match goal with
    | H1 : reduce (_update_inplace (_str_to_spec NS)) _ _ = (Ok ?c1, _),
      H2 : reduce _ (schedule conf) ?c1 = (Ok ?c2, _),
      H3 : _spec_to_type _ ?c2 _ = Ok t |- _ =>
        assert (Hc1 : nobase c1 = true);
        [ eapply (reduce_invariant (fun c => nobase c = true)); [| |exact H1];
          [ intros x b y w' Hx Hs;
            eapply nobase__update_inplace; [|exact Hx|exact Hs];
            intros; eapply nobase__str_to_spec; eauto
          | exact H ]
        | assert (Hc2 : nobase c2 = true);
          [ eapply (reduce_invariant (fun c => nobase c = true));
            [| exact Hc1 | exact H2];
            intros x b y w' Hx Hs;
            eapply (reduce_invariant (fun c => nobase c = true));
            [| exact Hx | exact Hs];
            intros x' b' y' w'' Hx' Hs';
            eapply nobase__update_inplace; [|exact Hx'|exact Hs'];
            intros; eapply nobase__nested_type; eauto
          | destruct (nobase__spec_to_type _ _ _ Hc2 H3)
              as [fields [ns [-> [Hf Hn]]]];
            now exists fields, ns ] ]
    end.
  - intros k value r w' Hn. apply _nested_type_Ok in Hn.
    destruct Hn as [d [t' [-> [Ht [_ [_ [-> _]]]]]]].
    apply _spec_to_type_Ok in Ht.
    destruct Ht as [d' [fields [validators [_ [_ [_ [_ ->]]]]]]].
    now exists (type_name k), fields, (dict_of_items (List.concat validators)).
  - intros x Hx. simpl in *. tauto.
Qed.

Lemma C7_only_root_witness :
  exists t,
    get_config_t NS0 in_order doc_even = Some (Ok t, [])
    /\ (exists fields ns,
          t = VDataconfig "config_t" fields ns [ConfigIO]
          /\ forallb nobase fields = true
          /\ forallb (fun kv => nobase (snd kv)) ns = true).
Proof.
  eexists. split; [reflexivity|].
  refine (proj1 (@C7_only_root_has_io_base NS0 in_order doc_even _ []
                   eq_refl eq_refl)).
Defined.

(** ** Paths and glom specs *)

Lemma split_dot_nonempty (s : string) : split_dot s <> [].
Proof.
  destruct s as [|c r]; simpl; [discriminate|].
  destruct (Ascii.eqb c "."); [discriminate|].
  destruct (split_dot r); discriminate.
Qed.

Lemma split_dot_dot_free (s : string) :
  dot_free s = true -> split_dot s = [s].
Proof.
  induction s as [|c r IH]; simpl; [reflexivity|].
  intro H. apply andb_true_iff in H. destruct H as [Hc Hr].
  apply negb_true_iff in Hc. rewrite Hc, (IH Hr). reflexivity.
Qed.

Lemma plain_key_str (k : key) :
  plain_key k = true -> k = KStr (str_of_key k) /\ dot_free (str_of_key k) = true.
Proof.
  destruct k; simpl; [|discriminate]. intro H.
  apply andb_true_iff in H. now destruct H.
Qed.

Lemma issubset_prefix (p q : path) : is_prefix p q -> issubset p q = true.
Proof.
  intros [t ->]. unfold issubset. apply forallb_forall. intros k Hk.
  apply existsb_exists. exists k. split; [|apply key_eqb_refl].
  apply in_or_app. now left.
Qed.

(** Two leaves of a set of paths are not one above the other. *)
Lemma _leaves_not_prefix (paths : list path) (p q : path) :
  In p (_leaves paths) -> In q paths -> p <> q -> ~ is_prefix p q.
Proof.
  unfold _leaves. rewrite set_of_In, filter_In. intros [_ Hl] Hq Hne Hpre.
  unfold _is_leaf in Hl. apply negb_true_iff in Hl.
  assert (Hex : existsb (fun q0 => issubset p q0)
                  (filter (fun q0 => negb (path_eqb p q0)) paths) = true).
  { apply existsb_exists. exists q. split; [|now apply issubset_prefix].
    apply filter_In. split; [assumption|]. apply negb_true_iff.
    destruct (path_eqb p q) eqn:E; [apply path_eqb_eq in E; contradiction|].
    reflexivity. }
  congruence.
Qed.

(** ** Unknown names *)


Lemma dict_get_mem (d : list (key * pyval)) (k : key) (v : pyval) :
  dict_get d k = Some v -> dict_mem d k = true.
Proof. unfold dict_mem. now intros ->. Qed.




Lemma last_key_nonempty (p : path) : p <> [] -> exists k, last_key p = Ok k.
Proof.
  intro H. unfold last_key. destruct (rev p) as [|k r] eqn:E; [|eauto].
  exfalso. apply H. rewrite <- (rev_involutive p), E. reflexivity.
Qed.


Example doc_unbound_raises :
  get_config_t NS0 in_order doc_unbound
  = Some (Err (AttributeError "Missing"), [])
  /\ get_config_t NS0 in_reverse doc_unbound
     = Some (Err (AttributeError "Missing"), []).
Proof. split; reflexivity. Qed.

(** * Further properties of the module *)

(** ** The traversal *)

Lemma remap_visits_children (p : path) (k : option key) (v : pyval) :
  remap_visits p k v =
  (p, k, v) ::
  flat_map (fun kv => remap_visits (enter_path p k) (Some (fst kv)) (snd kv))
           (children v).
Proof.
  destruct v; try reflexivity.
  - simpl. f_equal. generalize 0%Z as i.
    induction items as [|x r IH]; intro i; [reflexivity|].
    simpl. now rewrite IH.
  - simpl. f_equal. generalize 0%Z as i.
    induction items as [|x r IH]; intro i; [reflexivity|].
    simpl. now rewrite IH.
  - simpl. f_equal.
    induction entries as [|[k' v'] r IH]; [reflexivity|].
    simpl. now rewrite IH.
Qed.

(** What holds of the entries made below a start: each has a key, and lies
    directly below the start or directly below another of them. *)
Lemma below_children (b : path) (cs : list (key * pyval)) :
  Forall (fun kv : key * pyval =>
            forall p0 k0 p' k' x,
              In (p', k', x) (tl (remap_visits p0 k0 (snd kv))) ->
              (exists kk, k' = Some kk)
              /\ (p' = enter_path p0 k0
                  \/ exists p'' k'' x'',
                       In (p'', Some k'', x'')
                          (tl (remap_visits p0 k0 (snd kv)))
                       /\ p' = p'' ++ [k''])) cs ->
  forall p' k' x,
    In (p', k', x)
       (flat_map (fun kv => remap_visits b (Some (fst kv)) (snd kv)) cs) ->
    (exists kk, k' = Some kk)
    /\ (p' = b
        \/ exists p'' k'' x'',
             In (p'', Some k'', x'')
                (flat_map (fun kv => remap_visits b (Some (fst kv)) (snd kv))
                          cs)
             /\ p' = p'' ++ [k'']).
Proof.
  intros Hc p' k' x Hin.
  apply in_flat_map in Hin. destruct Hin as [[kc c] [Hkc Hin]].
  simpl in Hin.
  assert (Hhead : In (b, Some kc, c)
                     (flat_map (fun kv => remap_visits b (Some (fst kv)) (snd kv))
                               cs)).
  { apply in_flat_map. exists (kc, c). split; [exact Hkc|].
    simpl. rewrite remap_visits_children. now left. }
  assert (Hsub : forall e, In e (tl (remap_visits b (Some kc) c)) ->
                           In e (flat_map (fun kv => remap_visits b
                                                       (Some (fst kv)) (snd kv))
                                          cs)).
  { intros e He. apply in_flat_map. exists (kc, c). split; [exact Hkc|].
    simpl. rewrite remap_visits_children in He |- *. now right. }
  pose proof (remap_visits_children b (Some kc) c) as Eq.
  rewrite Eq in Hin. destruct Hin as [E | Hin].
  - inversion E; subst. split; [eauto | now left].
  - rewrite Forall_forall in Hc. specialize (Hc _ Hkc). simpl in Hc.
    assert (Hin' : In (p', k', x) (tl (remap_visits b (Some kc) c)))
      by (rewrite Eq; exact Hin).
    destruct (Hc _ _ _ _ _ Hin') as [Hk [Hp | [p'' [k'' [x'' [Hpar Hp]]]]]];
      split; auto; right.
    + exists b, kc, c. split; [exact Hhead | exact Hp].
    + exists p'', k'', x''. split; [now apply Hsub | exact Hp].
Qed.

Lemma Forall_enumerate_from (Q : pyval -> Prop) (l : list pyval) (i : Z) :
  Forall Q l -> Forall (fun kv => Q (snd kv)) (enumerate_from i l).
Proof.
  intro H. revert i. induction H; intro i; simpl; constructor; auto.
Qed.

(** Below the entry it starts from, the traversal enters a position only
    with a key, and either directly below the start or directly below an
    entry it has made. *)
Lemma remap_visits_parent (v : pyval) :
  forall p0 k0 p' k' x,
    In (p', k', x) (tl (remap_visits p0 k0 v)) ->
    (exists kk, k' = Some kk)
    /\ (p' = enter_path p0 k0
        \/ exists p'' k'' x'',
             In (p'', Some k'', x'') (tl (remap_visits p0 k0 v))
             /\ p' = p'' ++ [k'']).
Proof.
  induction v using pyval_nested_ind; intros p0 k0 p' k' x Hin;
    rewrite remap_visits_children in Hin |- *; simpl tl in *;
    try contradiction.
  - eapply below_children; [|exact Hin].
    simpl. exact (@Forall_enumerate_from _ l 0%Z H).
  - eapply below_children; [|exact Hin].
    simpl. exact (@Forall_enumerate_from _ l 0%Z H).
  - eapply below_children; [|exact Hin]. exact H.
Qed.

(** The entries with a key of the whole traversal. *)
Lemma visited_parent (conf : pyval) (p : path) (k : key) (v : pyval) :
  In (p, Some k, v) (remap_visits [] None conf) ->
  p = [] \/ exists p' k' v', In (p', Some k', v') (remap_visits [] None conf)
                             /\ p = p' ++ [k'].
Proof.
  intro H.
  assert (Ht : In (p, Some k, v) (tl (remap_visits [] None conf))).
  { rewrite remap_visits_children in H |- *. destruct H as [E|H];
      [discriminate | exact H]. }
  destruct (remap_visits_parent conf _ _ _ _ _ Ht)
    as [_ [Hp | [p' [k' [v' [Hin Hp]]]]]]; [now left | right].
  exists p', k', v'. split; [|exact Hp].
  rewrite remap_visits_children in Hin |- *. now right.
Qed.

Lemma spec_free_app (p q : path) : spec_free (p ++ q) -> spec_free p.
Proof.
  intros H r Hr Hin. apply (H r Hr). apply in_or_app. now left.
Qed.

(** The parent of a node path, unless it is the root, is a node path. *)
Lemma _nodes_parent (conf : pyval) (p : path) (k : key) :
  p <> [] -> In (p ++ [k]) (_nodes conf) -> In p (_nodes conf).
Proof.
  intros Hne H.
  apply _nodes_In in H. destruct H as [p' [k' [v [Hin [E Hf]]]]].
  apply app_inj_tail in E. destruct E as [E _]. subst p'.
  destruct (visited_parent _ _ _ _ Hin) as [E | [p' [k2 [v' [Hin' E]]]]].
  - exfalso. destruct p; [congruence | discriminate].
  - apply _nodes_In. exists p', k2, v'. split; [exact Hin'|].
    split; [exact E|]. now apply spec_free_app in Hf.
Qed.

(** X1.  The set [_nodes] returns is closed under non-empty prefixes: with a
    node path it holds the paths of all the mappings and sequences the path
    runs through. *)
Theorem nodes_prefix_closed (conf : pyval) (p q : path) :
  p <> [] -> In (p ++ q) (_nodes conf) -> In p (_nodes conf).
Proof.
  intro Hne. revert p Hne.
  induction q as [|k q IH] using rev_ind; intros p Hne H.
  - now rewrite app_nil_r in H.
  - rewrite app_assoc in H. apply IH; [exact Hne|].
    apply (@_nodes_parent conf (p ++ q) k); [|exact H].
    destruct p; [congruence | discriminate].
Qed.

Lemma nodes_prefix_closed_witness :
  In [KStr "a"; KStr "d"] (_nodes doc_uneven).
Proof.
  apply (@nodes_prefix_closed doc_uneven [KStr "a"; KStr "d"]
           [KStr "e"; KStr "f"]); [discriminate | simpl; tauto].
Defined.

(** X2.  What lies inside a rejected entry is rejected: when [_is_node]
    rejects a position with a key, it rejects every position below it. *)
Theorem is_node_rejects_below (p q : path) (k k' : key) (v v' : pyval) :
  _is_node p (Some k) v = false ->
  _is_node (p ++ [k] ++ q) (Some k') v' = false.
Proof.
  intro H. destruct (_is_node (p ++ [k] ++ q) (Some k') v') eqn:E;
    [|reflexivity].
  apply _is_node_spec in E. destruct E as [k2 [Ek Hf]]. inversion Ek; subst k2.
  assert (Hn : _is_node p (Some k) v = true).
  { apply _is_node_spec. exists k. split; [reflexivity|].
    intros r Hr Hin. apply (Hf r Hr).
    rewrite <- !app_assoc. rewrite app_assoc. apply in_or_app. left.
    apply in_or_app. apply in_app_or in Hin. tauto. }
  congruence.
Qed.

Lemma is_node_rejects_below_witness :
  _is_node ([KStr "a"] ++ [KStr "opts"] ++ [KInt 0]) (Some (KStr "x")) VNone
  = false.
Proof.
  apply (@is_node_rejects_below [KStr "a"] [KInt 0] (KStr "opts") (KStr "x")
           VNone VNone).
  reflexivity.
Defined.

(** ** Leaves *)

Lemma _is_leaf_spec (p : path) (paths : list path) :
  _is_leaf p paths = true <->
  forall q, In q paths -> q <> p -> issubset p q = false.
Proof.
  unfold _is_leaf. rewrite negb_true_iff. split.
  - intros H q Hq Hne. destruct (issubset p q) eqn:E; [|reflexivity].
    assert (Hex : existsb (fun q0 => issubset p q0)
                    (filter (fun q0 => negb (path_eqb p q0)) paths) = true).
    { apply existsb_exists. exists q. split; [|exact E].
      apply filter_In. split; [exact Hq|]. apply negb_true_iff.
      destruct (path_eqb p q) eqn:Ep; [|reflexivity].
      apply path_eqb_eq in Ep. congruence. }
    congruence.
  - intro H.
    destruct (existsb (fun q0 => issubset p q0)
                (filter (fun q0 => negb (path_eqb p q0)) paths)) eqn:E;
      [|reflexivity].
    apply existsb_exists in E. destruct E as [q [Hq Hs]].
    apply filter_In in Hq. destruct Hq as [Hq Hne].
    apply negb_true_iff in Hne.
    rewrite (H q Hq) in Hs; [discriminate|].
    intros ->. rewrite (proj2 (path_eqb_eq p p) eq_refl) in Hne. discriminate.
Qed.

Lemma _leaves_In (paths : list path) (p : path) :
  In p (_leaves paths) <-> In p paths /\ _is_leaf p paths = true.
Proof. unfold _leaves. now rewrite set_of_In, filter_In. Qed.

Lemma filter_all {A} (f : A -> bool) (l : list A) :
  (forall a, In a l -> f a = true) -> filter f l = l.
Proof.
  induction l as [|a r IH]; intro H; [reflexivity|].
  simpl. rewrite (H a (or_introl eq_refl)), IH; [reflexivity|].
  intros b Hb. apply H. now right.
Qed.

(** X3.  The leaves of a set of paths are paths of the set, and taking the
    leaves again changes nothing. *)
Theorem leaves_idempotent (paths : list path) :
  incl (_leaves paths) paths /\ _leaves (_leaves paths) = _leaves paths.
Proof.
  split; [intros p Hp; now apply _leaves_incl|].
  unfold _leaves at 1.
  rewrite filter_all.
  - apply nodup_fixed_point. apply set_of_NoDup.
  - intros p Hp. apply _is_leaf_spec. intros q Hq Hne.
    apply _leaves_In in Hp. destruct Hp as [_ Hl].
    apply _leaves_incl in Hq.
    exact (proj1 (_is_leaf_spec p paths) Hl q Hq Hne).
Qed.

(** ** The rings are branch paths *)

Lemma removelast_app_last (q : path) :
  q <> [] -> exists k, q = removelast q ++ [k].
Proof.
  intro H. exists (last q (KInt 0)). now apply app_removelast_last.
Qed.

Lemma parents_branches (conf : pyval) (ring : list path) :
  (forall q, In q ring -> is_branch conf q) ->
  forall q, In q (parents ring) -> is_branch conf q.
Proof.
  intros Hr q Hq. apply parents_In in Hq. destruct Hq as [p [Hp [-> Hne]]].
  destruct (Hr p Hp) as [Hnode _].
  assert (Hpne : p <> []) by (intros ->; now apply Hne).
  destruct (removelast_app_last Hpne) as [k Ek].
  split.
  - apply (@_nodes_parent conf (removelast p) k); [exact Hne|].
    now rewrite <- Ek.
  - intro Hl.
    apply (_leaves_not_prefix _ Hl Hnode).
    + intro E. rewrite E in Ek at 1.
      apply (f_equal (@List.length key)) in Ek.
      rewrite length_app in Ek. simpl in Ek. lia.
    + exists [k]. exact Ek.
Qed.

Lemma rounds_In (fuel : nat) (s ring : list path) (Q : path -> Prop) :
  (forall t, (forall q, In q t -> Q q) -> forall q, In q (parents t) -> Q q) ->
  (forall q, In q s -> Q q) ->
  In ring (rounds fuel s) -> forall q, In q ring -> Q q.
Proof.
  intro Hstep. revert s. induction fuel as [|fuel IH]; intros s Hs Hin.
  - destruct s; contradiction.
  - destruct s as [|p r]; [contradiction|].
    change (rounds (S fuel) (p :: r))
      with ((p :: r) :: rounds fuel (parents (p :: r))) in Hin.
    destruct Hin as [<- | Hin]; [exact Hs|].
    eapply IH; [|exact Hin]. now apply Hstep.
Qed.

(** X4.  Every path of every ring of the loop of [get_config_t] is a branch
    path of the document: a node path that is not a leaf.  The loop never
    applies [_nested_type] to a leaf or outside the nodes. *)
Theorem rings_are_branches (conf : pyval) (ring : list path) (q : path) :
  In ring (schedule conf) -> In q ring ->
  In q (_nodes conf) /\ ~ In q (_leaves (_nodes conf)).
Proof.
  intros Hring Hq.
  apply (@rounds_In _ _ ring (is_branch conf) (@parents_branches conf))
    with (q := q) in Hring; [exact Hring | | exact Hq].
  intros p Hp. unfold first_ring in Hp. apply _leaves_incl in Hp.
  apply set_diff_In in Hp. exact Hp.
Qed.

Lemma rings_are_branches_witness :
  In [KStr "a"] (_nodes doc_uneven)
  /\ ~ In [KStr "a"] (_leaves (_nodes doc_uneven)).
Proof.
  apply (@rings_are_branches doc_uneven [[KStr "a"]; [KStr "a"; KStr "d"]]
           [KStr "a"]).
  - vm_compute. tauto.
  - simpl. tauto.
Defined.

(** ** Paths, specs and values *)

Lemma split_dot_append (s t : string) :
  split_dot (s ++ String "."%char t) = split_dot s ++ split_dot t.
Proof.
  induction s as [|c r IH]; simpl; [reflexivity|].
  rewrite IH. destruct (Ascii.eqb c "."); [reflexivity|].
  pose proof (split_dot_nonempty r) as Hne.
  destruct (split_dot r) as [|h tl]; [congruence | reflexivity].
Qed.

Lemma split_dot_path (p : path) :
  p <> [] ->
  split_dot (_path_to_glom_spec p)
  = flat_map (fun k => split_dot (str_of_key k)) p.
Proof.
  unfold _path_to_glom_spec.
  induction p as [|k r IH]; [congruence|]. intros _.
  destruct r as [|k' r'].
  - simpl. now rewrite app_nil_r.
  - change (String.concat "." (map str_of_key (k :: k' :: r')))
      with (String.append (str_of_key k)
              (String "."%char
                 (String.concat "." (map str_of_key (k' :: r'))))).
    rewrite split_dot_append, IH by discriminate. reflexivity.
Qed.

Lemma dot_free_uint (u : Decimal.uint) :
  dot_free (NilEmpty.string_of_uint u) = true.
Proof. induction u; simpl; auto. Qed.

Lemma glom_key_int (z : Z) : glom_key (KInt z) = true.
Proof.
  unfold glom_key, str_of_key, NilZero.string_of_int, NilZero.string_of_uint.
  destruct (Z.to_int z) as [u|u]; destruct u; simpl;
    try reflexivity; apply dot_free_uint.
Qed.

Lemma glom_key_plain (k : key) : plain_key k = true -> glom_key k = true.
Proof. intro H. now destruct (plain_key_str _ H). Qed.

Lemma int_of_str_of_int (z : Z) : int_of_str (str_of_key (KInt z)) = Some z.
Proof.
  unfold int_of_str, str_of_key.
  assert (H : forall d,
             option_map Z.of_int
               (NilZero.int_of_string (NilZero.string_of_int d))
             = Some (Z.of_int d)).
  { intro d.
    destruct d as [u|u]; destruct u;
      try (rewrite NilZero.isi; [reflexivity | discriminate | discriminate]);
      reflexivity. }
  rewrite H. f_equal. apply DecimalZ.of_to.
Qed.

Lemma flat_map_split_dot (p : path) :
  forallb glom_key p = true ->
  flat_map (fun k => split_dot (str_of_key k)) p = map str_of_key p.
Proof.
  induction p as [|k r IH]; simpl; [reflexivity|].
  intro H. apply andb_true_iff in H. destruct H as [Hk Hr].
  unfold glom_key in Hk. now rewrite (split_dot_dot_free _ Hk), IH.
Qed.

Lemma dict_get_In (d : list (key * pyval)) (k : key) (v : pyval) :
  distinct_keys d = true -> In (k, v) d -> dict_get d k = Some v.
Proof.
  induction d as [|[k' v'] r IH]; simpl; [contradiction|].
  intros H Hin. apply andb_true_iff in H. destruct H as [Hk Hr].
  destruct Hin as [E | Hin].
  - inversion E; subst. now rewrite key_eqb_refl.
  - destruct (key_eqb k' k) eqn:E.
    + apply key_eqb_eq in E. subst k'. apply negb_true_iff in Hk.
      rewrite (dict_get_mem _ _ (IH Hr Hin)) in Hk. discriminate.
    + now apply IH.
Qed.

Lemma enumerate_from_In (l : list pyval) (j : Z) (k : key) (v : pyval) :
  In (k, v) (enumerate_from j l) ->
  exists i, k = KInt i /\ (j <= i)%Z
            /\ nth_error l (Z.to_nat (i - j)) = Some v.
Proof.
  revert j. induction l as [|x r IH]; intros j; simpl; [contradiction|].
  intros [E | Hin].
  - inversion E; subst. exists j. rewrite Z.sub_diag.
    split; [reflexivity|]. split; [lia | reflexivity].
  - destruct (IH _ Hin) as [i [-> [Hle Hn]]]. exists i.
    split; [reflexivity|]. split; [lia|].
    replace (Z.to_nat (i - j)) with (S (Z.to_nat (i - (j + 1)))) by lia.
    exact Hn.
Qed.

(** The item that [remap] enters below a value of a plain document is the
    value at its key. *)
Lemma value_at_child (v : pyval) (k : key) (c : pyval) :
  plain_doc v = true -> In (k, c) (children v) ->
  glom_key k = true /\ plain_doc c = true /\ value_at v [k] = Some c.
Proof.
  destruct v; simpl; try contradiction; try discriminate.
  - intros Hl Hin. apply enumerate_from_In in Hin.
    destruct Hin as [i [-> [Hle Hn]]]. rewrite Z.sub_0_r in Hn.
    split; [apply glom_key_int|]. split.
    + rewrite forallb_forall in Hl. apply Hl. eapply nth_error_In. exact Hn.
    + replace (i <? 0)%Z with false by (symmetry; apply Z.ltb_ge; lia).
      now rewrite Hn.
  - intros Hd Hin. apply andb_true_iff in Hd. destruct Hd as [Hall Hdis].
    rewrite forallb_forall in Hall. specialize (Hall _ Hin). simpl in Hall.
    apply andb_true_iff in Hall. destruct Hall as [Hk Hc].
    split; [now apply glom_key_plain|]. split; [exact Hc|].
    destruct (plain_key_str _ Hk) as [Ek _]. rewrite Ek.
    rewrite <- Ek. now rewrite (dict_get_In _ _ _ Hdis Hin).
Qed.

Lemma value_at_cons (v c : pyval) (k : key) (r : path) :
  value_at v [k] = Some c -> value_at v (k :: r) = value_at c r.
Proof.
  simpl. destruct v; try discriminate; destruct k; try discriminate.
  - destruct (z <? 0)%Z; [discriminate|].
    destruct (nth_error items (Z.to_nat z)); [|discriminate].
    now intros [= ->].
  - destruct (dict_get entries (KStr s)); [|discriminate].
    now intros [= ->].
Qed.

(** Below a value of a plain document, every entry of the traversal is the
    value at the keys that lead to it. *)
Lemma remap_visits_value_at (v : pyval) :
  forall p0 k0 p' k' x,
    plain_doc v = true ->
    In (p', Some k', x) (tl (remap_visits p0 k0 v)) ->
    exists s, p' ++ [k'] = enter_path p0 k0 ++ s /\ s <> []
              /\ forallb glom_key s = true
              /\ value_at v s = Some x.
Proof.
  assert (Hstep : forall v,
    Forall (fun kv =>
      forall p0 k0 p' k' x,
        plain_doc (snd kv) = true ->
        In (p', Some k', x) (tl (remap_visits p0 k0 (snd kv))) ->
        exists s, p' ++ [k'] = enter_path p0 k0 ++ s /\ s <> []
                  /\ forallb glom_key s = true
                  /\ value_at (snd kv) s = Some x)
      (children v) ->
    forall p0 k0 p' k' x,
      plain_doc v = true ->
      In (p', Some k', x) (tl (remap_visits p0 k0 v)) ->
      exists s, p' ++ [k'] = enter_path p0 k0 ++ s /\ s <> []
                /\ forallb glom_key s = true
                /\ value_at v s = Some x).
  { clear v. intros v IH p0 k0 p' k' x Hv Hin.
    rewrite remap_visits_children in Hin. simpl tl in Hin.
    apply in_flat_map in Hin. destruct Hin as [[kc c] [Hkc Hin]].
    simpl in Hin.
    destruct (value_at_child v _ _ Hv Hkc) as [Hgk [Hc Hg]].
    rewrite remap_visits_children in Hin. destruct Hin as [E | Hin].
    - inversion E; subst. exists [k']. split; [reflexivity|].
      split; [discriminate|]. split; [simpl; now rewrite Hgk | exact Hg].
    - rewrite Forall_forall in IH. specialize (IH _ Hkc). simpl in IH.
      destruct (IH (enter_path p0 k0) (Some kc) p' k' x Hc)
        as [s [E [Hne [Hs Hx]]]].
      { rewrite remap_visits_children. exact Hin. }
      exists (kc :: s). split; [simpl in E; now rewrite E, <- app_assoc|].
      split; [discriminate|]. split; [simpl; now rewrite Hgk|].
      now rewrite (@value_at_cons v c kc s Hg). }
  induction v using pyval_nested_ind; apply Hstep; simpl;
    try constructor; try assumption;
    try match goal with
        | H : Forall _ ?l |- Forall _ (enumerate_from _ ?l) =>
            exact (@Forall_enumerate_from _ l 0%Z H)
        end.
Qed.

Lemma visited_value_at (conf : pyval) (p : path) (k : key) (v : pyval) :
  plain_doc conf = true ->
  In (p, Some k, v) (remap_visits [] None conf) ->
  forallb glom_key (p ++ [k]) = true /\ value_at conf (p ++ [k]) = Some v.
Proof.
  intros Hc H.
  assert (Ht : In (p, Some k, v) (tl (remap_visits [] None conf))).
  { rewrite remap_visits_children in H |- *. destruct H as [E|H];
      [discriminate | exact H]. }
  destruct (remap_visits_value_at conf [] None _ _ _ Hc Ht)
    as [s [E [_ [Hs Hg]]]].
  simpl in E. subst s. now split.
Qed.

(** [glom] finds the value at a path along the texts of its keys. *)
Lemma glom_get_value_at (p : path) :
  forall c v, value_at c p = Some v -> glom_get c (map str_of_key p) = Ok v.
Proof.
  induction p as [|k r IH]; intros c v H.
  - simpl in *. now inversion H.
  - simpl in H. destruct c; try discriminate; destruct k; try discriminate.
    + destruct (z <? 0)%Z eqn:Ez; [discriminate|].
      destruct (nth_error items (Z.to_nat z)) as [ch|] eqn:En; [|discriminate].
      change (glom_get (VList items) (map str_of_key (KInt z :: r)))
        with (let? t := glom_get1 (VList items) (str_of_key (KInt z)) in
              glom_get t (map str_of_key r)).
      unfold glom_get1. rewrite int_of_str_of_int. unfold seq_index.
      rewrite Ez, En. simpl. now apply IH.
    + destruct (dict_get entries (KStr s)) as [ch|] eqn:Eg; [|discriminate].
      simpl. rewrite Eg. simpl. now apply IH.
Qed.

Lemma split_dot_glom_keys (p : path) :
  p <> [] -> forallb glom_key p = true ->
  split_dot (_path_to_glom_spec p) = map str_of_key p.
Proof.
  intros Hne H. now rewrite split_dot_path, flat_map_split_dot.
Qed.

(** X5.  The segments [glom] reads from the spec that [_path_to_glom_spec]
    makes of a non-empty path are the texts of the keys, each split at its
    dots: a key with a dot is read as nested keys.  When no text has a dot,
    as for integer indices and dot-free strings, the segments are the texts
    of the keys, one for one. *)
Theorem glom_spec_segments (p : path) :
  p <> [] ->
  split_dot (_path_to_glom_spec p)
  = flat_map (fun k => split_dot (str_of_key k)) p
  /\ (forallb glom_key p = true ->
      split_dot (_path_to_glom_spec p) = map str_of_key p).
Proof.
  intro Hne. split; [now apply split_dot_path|].
  intro H. now apply split_dot_glom_keys.
Qed.

Lemma glom_spec_segments_witness :
  split_dot (_path_to_glom_spec [KStr "a.b"; KInt 0]) = ["a"; "b"; "0"].
Proof.
  refine (proj1 (@glom_spec_segments [KStr "a.b"; KInt 0] _)). discriminate.
Defined.

Lemma glom_value_at (conf : pyval) (p : path) (v : pyval) :
  p <> [] -> forallb glom_key p = true -> value_at conf p = Some v ->
  glom conf (_path_to_glom_spec p) = Ok v.
Proof.
  intros Hne Hk Hv. unfold glom.
  rewrite (split_dot_glom_keys Hne Hk). now apply glom_get_value_at.
Qed.

(** X6.  In a plain document, made of scalars, lists, and mappings keyed by
    pairwise distinct strings without a dot that are no wildcards of glom,
    the spec that
    [_path_to_glom_spec] makes of the path of an entry of the traversal leads
    [glom] to the value of that entry: the paths of [research] and the specs
    of [glom] address the same values, through mappings and list indices
    alike. *)
Theorem visited_value_at_glom_spec (conf : pyval) (p : path) (k : key)
  (v : pyval) :
  plain_doc conf = true ->
  In (p, Some k, v) (remap_visits [] None conf) ->
  glom conf (_path_to_glom_spec (p ++ [k])) = Ok v.
Proof.
  intros Hc H. destruct (visited_value_at _ _ _ _ Hc H) as [Hs Hg].
  apply glom_value_at; [now destruct p | exact Hs | exact Hg].
Qed.

Lemma visited_value_at_glom_spec_witness :
  glom (VDict [(KStr "a", VList [VInt 7; leaf_rule "T"])])
       (_path_to_glom_spec ([KStr "a"; KInt 1] ++ [KStr "type"]))
  = Ok (VStr "T").
Proof.
  apply (@visited_value_at_glom_spec
           (VDict [(KStr "a", VList [VInt 7; leaf_rule "T"])])
           [KStr "a"; KInt 1] (KStr "type") (VStr "T")).
  - reflexivity.
  - simpl. tauto.
Defined.

(** ** Updates in place *)

Lemma list_set_nth (l : list pyval) (n : nat) (v a : pyval) :
  nth_error l n = Some v ->
  exists l', list_set l n a = Some l' /\ nth_error l' n = Some a
             /\ List.length l' = List.length l
             /\ forall m, m <> n -> nth_error l' m = nth_error l m.
Proof.
  revert n. induction l as [|x r IH]; intros n H.
  - destruct n; discriminate.
  - destruct n as [|n]; simpl in *.
    + exists (a :: r). repeat split; auto.
      intros m Hm. destruct m; [congruence | reflexivity].
    + destruct (IH _ H) as [l' [E [Hn [Hl Ho]]]]. rewrite E. simpl.
      exists (x :: l'). repeat split; simpl; auto.
      intros m Hm. destruct m; [reflexivity|]. apply Ho. congruence.
Qed.

(** The assignment at one key of a container: the value at that key is the
    assigned one, the value at every other key is as before. *)
Lemma value_at_replace_child (c v a : pyval) (k : key) :
  value_at c [k] = Some v ->
  exists c',
    replace_child c (str_of_key k) a = c'
    /\ glom_set1 c (str_of_key k) a = Ok c'
    /\ value_at c' [k] = Some a
    /\ forall k2 r, k2 <> k -> value_at c' (k2 :: r) = value_at c (k2 :: r).
Proof.
  destruct c; try discriminate; destruct k; try discriminate.
  - simpl value_at. destruct (z <? 0)%Z eqn:Ez; [discriminate|].
    destruct (nth_error items (Z.to_nat z)) as [x|] eqn:En; [|discriminate].
    intros _. destruct (list_set_nth _ _ a En) as [l' [Hs [Hn [_ Ho]]]].
    exists (VList l'). unfold replace_child, glom_set1.
    rewrite int_of_str_of_int. unfold seq_assign. rewrite Ez, Hs.
    split; [reflexivity|]. split; [reflexivity|]. split.
    + now rewrite Hn.
    + intros k2 r Hk. simpl. destruct k2 as [s|j]; [reflexivity|].
      destruct (j <? 0)%Z eqn:Ej; [reflexivity|].
      rewrite Ho; [reflexivity|].
      intro E. apply Hk. f_equal.
      apply Z.ltb_ge in Ez. apply Z.ltb_ge in Ej. lia.
  - simpl value_at. destruct (dict_get entries (KStr s)) as [x|] eqn:Eg;
      [|discriminate].
    intros _. exists (VDict (dict_set entries (KStr s) a)).
    split; [reflexivity|]. split; [reflexivity|]. split.
    + simpl. now rewrite dict_get_set_same.
    + intros k2 r Hk. simpl. destruct k2 as [s2|j]; [|reflexivity].
      rewrite dict_get_set_other; [reflexivity|]. congruence.
Qed.

Lemma value_at_step (c : pyval) (k : key) (r : path) (v : pyval) :
  value_at c (k :: r) = Some v ->
  exists ch, value_at c [k] = Some ch /\ value_at ch r = Some v.
Proof.
  simpl. destruct c; try discriminate; destruct k; try discriminate.
  - destruct (z <? 0)%Z; [discriminate|].
    destruct (nth_error items (Z.to_nat z)) as [ch|]; [|discriminate].
    intro H. now exists ch.
  - destruct (dict_get entries (KStr s)) as [ch|]; [|discriminate].
    intro H. now exists ch.
Qed.

Lemma glom_get1_value_at (c ch : pyval) (k : key) :
  value_at c [k] = Some ch -> glom_get1 c (str_of_key k) = Ok ch.
Proof.
  intro H. pose proof (glom_get_value_at [k] c H) as Hg.
  simpl in Hg. now destruct (glom_get1 c (str_of_key k)).
Qed.

(** An assignment at a path of a document: the value at the path is the
    assigned one, and the value at every path that is neither above nor below
    it is as before. *)
Lemma value_at_glom_assign (q : path) :
  forall c v a,
    q <> [] -> value_at c q = Some v ->
    exists c',
      glom_assign c (map str_of_key q) a = Ok c'
      /\ value_at c' q = Some a
      /\ forall p r, value_at c p = Some r ->
                     ~ is_prefix q p -> ~ is_prefix p q ->
                     value_at c' p = Some r.
Proof.
  induction q as [|k q' IH]; intros c v a Hne Hv; [congruence|].
  destruct (value_at_step _ _ _ Hv) as [ch [Hch Hv']].
  destruct q' as [|k' q''].
  - destruct (value_at_replace_child c a k Hch) as [c' [_ [Hs [Hg Ho]]]].
    exists c'. split; [exact Hs|]. split; [exact Hg|].
    intros p r Hp Hqp Hpq.
    destruct p as [|k2 p']; [exfalso; apply Hpq; now exists [k]|].
    rewrite Ho; [exact Hp|].
    intros ->. apply Hqp. now exists p'.
  - destruct (IH ch v a ltac:(discriminate) Hv') as [ch' [Ha [Hg' Hf]]].
    destruct (value_at_replace_child c ch' k Hch) as [c' [Hr [_ [Hg Ho]]]].
    exists c'. split; [|split].
    + change (glom_assign c (map str_of_key (k :: k' :: q'')) a)
        with (let? child := glom_get1 c (str_of_key k) in
              let? child' := glom_assign child (map str_of_key (k' :: q'')) a in
              Ok (replace_child c (str_of_key k) child')).
      rewrite (glom_get1_value_at _ _ Hch). cbv beta iota delta [rbind].
      rewrite Ha. now rewrite Hr.
    + now rewrite (@value_at_cons c' ch' k (k' :: q'') Hg).
    + intros p r Hp Hqp Hpq.
      destruct p as [|k2 p']; [exfalso; apply Hpq; now exists (k :: k' :: q'')|].
      destruct (key_eq_dec k2 k) as [-> | Hk].
      * rewrite (@value_at_cons c' ch' k p' Hg).
        rewrite (@value_at_cons c ch k p' Hch) in Hp.
        apply Hf; [exact Hp | |].
        -- intros [t Ht]. apply Hqp. exists t. simpl. now rewrite Ht.
        -- intros [t Ht]. apply Hpq. exists t. simpl. now rewrite Ht.
      * rewrite Ho; [exact Hp | exact Hk].
Qed.

Lemma last_key_app (p : path) (k : key) : last_key (p ++ [k]) = Ok k.
Proof. unfold last_key. now rewrite rev_app_distr. Qed.

(** The step of the fold at a path that the document has: the value found
    there is handed to the function with the last key. *)
Lemma _update_inplace_at_value (func : key -> pyval -> M pyval)
  (c v : pyval) (x : path) :
  x <> [] -> forallb glom_key x = true -> value_at c x = Some v ->
  exists k,
    last_key x = Ok k
    /\ _update_inplace func c x =
       (_config_t <- func k v ;;
        lift (glom_assign c (map str_of_key x) _config_t)).
Proof.
  intros Hne Hk Hv. destruct (last_key_nonempty Hne) as [k Hl].
  exists k. split; [exact Hl|]. unfold _update_inplace, glom.
  rewrite (split_dot_glom_keys Hne Hk), Hl, bind_lift_Ok.
  now rewrite (glom_get_value_at _ _ Hv), bind_lift_Ok.
Qed.

(** X7.  [_update_inplace] at the path of an entry of a plain document calls
    the function on the last key and the value of that entry.  When the
    function raises, the update raises the same exception with the same
    warnings; when it returns, the update returns a document in which the
    spec of the path leads to the function's result, with the function's
    warnings. *)
Theorem update_inplace_assigns (func : key -> pyval -> M pyval)
  (conf : pyval) (p : path) (k : key) (v : pyval) :
  plain_doc conf = true ->
  In (p, Some k, v) (remap_visits [] None conf) ->
  (forall e w, func k v = (Err e, w) ->
               _update_inplace func conf (p ++ [k]) = (Err e, w))
  /\ (forall r w, func k v = (Ok r, w) ->
        exists conf',
          _update_inplace func conf (p ++ [k]) = (Ok conf', w)
          /\ glom conf' (_path_to_glom_spec (p ++ [k])) = Ok r).
Proof.
  intros Hc H. destruct (visited_value_at _ _ _ _ Hc H) as [Hs Hv].
  pose proof (glom_get_value_at _ _ Hv) as Hg.
  assert (Hne : p ++ [k] <> []) by now destruct p.
  assert (E : _update_inplace func conf (p ++ [k]) =
              (_config_t <- func k v ;;
               lift (glom_assign conf (map str_of_key (p ++ [k])) _config_t))).
  { unfold _update_inplace, glom.
    rewrite (split_dot_glom_keys Hne Hs), last_key_app, bind_lift_Ok, Hg.
    now rewrite bind_lift_Ok. }
  rewrite E. split.
  - intros e w Hf. now rewrite Hf.
  - intros r w Hf. rewrite Hf.
    destruct (@value_at_glom_assign (p ++ [k]) conf v r Hne Hv)
      as [conf' [Ha [Hv' _]]].
    exists conf'. unfold bind, lift. rewrite Ha, app_nil_r.
    split; [reflexivity|]. now apply glom_value_at.
Qed.

Lemma update_inplace_assigns_witness :
  exists conf',
    _update_inplace (fun _ _ => ret (VInt 1))
      (VDict [(KStr "a", VList [VInt 7; leaf_rule "T"])])
      ([KStr "a"] ++ [KInt 1]) = (Ok conf', [])
    /\ glom conf' (_path_to_glom_spec ([KStr "a"] ++ [KInt 1])) = Ok (VInt 1).
Proof.
  refine (proj2 (@update_inplace_assigns (fun _ _ => ret (VInt 1))
                   (VDict [(KStr "a", VList [VInt 7; leaf_rule "T"])])
                   [KStr "a"] (KInt 1) (leaf_rule "T") _ _)
                (VInt 1) [] eq_refl).
  - reflexivity.
  - simpl. tauto.
Defined.

(** X8.  An update in place changes no other entry: after
    [_update_inplace] at one entry of a plain document, the spec of every
    entry that is neither above nor below it still leads to the value that
    entry had. *)
Theorem update_inplace_frame (func : key -> pyval -> M pyval)
  (conf conf' : pyval) (p q : path) (k k2 : key) (v v2 : pyval)
  (w : list warning) :
  plain_doc conf = true ->
  In (p, Some k, v) (remap_visits [] None conf) ->
  In (q, Some k2, v2) (remap_visits [] None conf) ->
  ~ is_prefix (p ++ [k]) (q ++ [k2]) -> ~ is_prefix (q ++ [k2]) (p ++ [k]) ->
  _update_inplace func conf (p ++ [k]) = (Ok conf', w) ->
  glom conf' (_path_to_glom_spec (q ++ [k2])) = Ok v2.
Proof.
  intros Hc Hp Hq Hpq Hqp E.
  destruct (visited_value_at _ _ _ _ Hc Hp) as [Hsp Hvp].
  destruct (visited_value_at _ _ _ _ Hc Hq) as [Hsq Hvq].
  assert (Hne : p ++ [k] <> []) by now destruct p.
  unfold _update_inplace in E. rewrite (split_dot_glom_keys Hne Hsp) in E.
  inv_run.
  match goal with
  | Ha : glom_assign conf _ ?a = Ok conf' |- _ =>
      destruct (@value_at_glom_assign (p ++ [k]) conf v a Hne Hvp)
        as [c' [Ha' [_ Hf]]];
      rewrite Ha in Ha'; inversion Ha'; subst c'
  end.
  apply glom_value_at; [now destruct q | exact Hsq |].
  now apply Hf.
Qed.

Lemma update_inplace_frame_witness :
  glom (VDict [(KStr "a", VInt 1); (KStr "b", VList [VInt 7; VInt 8])])
       (_path_to_glom_spec ([KStr "b"] ++ [KInt 1])) = Ok (VInt 8).
Proof.
  apply (@update_inplace_frame (fun _ _ => ret (VInt 1))
           (VDict [(KStr "a", VInt 0); (KStr "b", VList [VInt 7; VInt 8])])
           _ [] [KStr "b"] (KStr "a") (KInt 1) (VInt 0) (VInt 8) []).
  - reflexivity.
  - simpl. tauto.
  - simpl. tauto.
  - intros [t Ht]. discriminate Ht.
  - intros [t Ht]. discriminate Ht.
  - reflexivity.
Defined.

(** ** The leaf interpreter, again *)

(** X9.  When [_str_to_spec] returns for a mapping, the result is a mapping
    with the same keys in the same order, and every entry other than [type]
    and [validator] is as it was. *)
Theorem str_to_spec_keeps_entries (NS : namespace) (k : key)
  (d : list (key * pyval)) (r : pyval) (w : list warning) :
  _str_to_spec NS k (VDict d) = (Ok r, w) ->
  exists d',
    r = VDict d'
    /\ map fst d' = map fst d
    /\ forall x, x <> KStr "type" -> x <> KStr "validator" ->
                 dict_get d' x = dict_get d x.
Proof.
  intro H. apply _str_to_spec_Ok in H. destruct H as [d1 [H1 H2]].
  assert (Hd1 : map fst d1 = map fst d
                /\ forall x, x <> KStr "type" -> dict_get d1 x = dict_get d x).
  { destruct (dict_mem d (KStr "type")) eqn:Et.
    - destruct H1 as [t [_ ->]]. split; [now apply dict_set_keys|].
      intros x Hx. apply dict_get_set_other. congruence.
    - destruct H1 as [-> _]. now split. }
  destruct Hd1 as [Hk Hg].
  destruct (dict_mem d1 (KStr "validator")) eqn:Ev.
  - destruct H2 as [v [_ ->]]. exists (dict_set d1 (KStr "validator") v).
    split; [reflexivity|]. split.
    + now rewrite dict_set_keys.
    + intros x Ht Hv. rewrite dict_get_set_other by congruence. now apply Hg.
  - subst r. exists d1. split; [reflexivity|]. split; [exact Hk|].
    intros x Ht _. now apply Hg.
Qed.

Lemma str_to_spec_keeps_entries_witness :
  exists d',
    VDict [(KStr "type", VRegType "T"); (KStr "default", VInt 0)] = VDict d'
    /\ map fst d' = map fst [(KStr "type", VStr "T"); (KStr "default", VInt 0)]
    /\ forall x, x <> KStr "type" -> x <> KStr "validator" ->
                 dict_get d' x
                 = dict_get [(KStr "type", VStr "T"); (KStr "default", VInt 0)] x.
Proof.
  apply (@str_to_spec_keeps_entries NS0 (KStr "a")
           [(KStr "type", VStr "T"); (KStr "default", VInt 0)] _ []).
  reflexivity.
Defined.

(** The name [_type] hands to [getattr] is the [type] entry, whatever the
    options are. *)
Lemma _type_getattr_Err (NS : namespace) (d : list (key * pyval))
  (t : pyval) (e : exn) :
  dict_get d (KStr "type") = Some t -> getattr (NS_types NS) t = Err e ->
  _type NS (VDict d) = (Err e, []).
Proof.
  intros Ht Hn. unfold _type.
  change (py_get (VDict d) (spec_key 1) VNone)
    with (Ok (get_or d "opts" VNone)).
  rewrite bind_lift_Ok. change (spec_key 0) with "type".
  assert (Hg : py_getitem (VDict d) "type" = Ok t)
    by (simpl; now rewrite Ht).
  rewrite Hg, !bind_lift_Ok, Hn.
  destruct (truthy (get_or d "opts" VNone) && is_Sequence (get_or d "opts" VNone));
    [|destruct (truthy (get_or d "opts" VNone)
                && is_dict (get_or d "opts" VNone))]; reflexivity.
Qed.

(** What [_type] returns is no string. *)
Lemma _type_Ok_not_name (NS : namespace) (value t : pyval) (w : list warning)
  (registry : list string) :
  _type NS value = (Ok t, w) ->
  getattr registry t = Err (TypeError "attribute name must be string").
Proof.
  unfold _type. intro H.
  apply bind_Ok in H. destruct H as [opts [w1 [w2 [_ [H _]]]]].
  destruct (truthy opts && is_Sequence opts);
    [|destruct (truthy opts && is_dict opts)]; inv_run;
    match goal with H : _ = t |- _ => rewrite <- H end; reflexivity.
Qed.

(** X10.  [_str_to_spec] is not idempotent: the resolved rule of a mapping
    that has a [type] or a [validator] entry cannot be resolved again.  The
    second call raises the [TypeError] of [getattr] for a name that is no
    string, without a warning. *)
Theorem str_to_spec_twice_raises (NS : namespace) (k k' : key)
  (d : list (key * pyval)) (r : pyval) (w : list warning) :
  _str_to_spec NS k (VDict d) = (Ok r, w) ->
  dict_mem d (KStr "type") = true \/ dict_mem d (KStr "validator") = true ->
  _str_to_spec NS k' r
  = (Err (TypeError "attribute name must be string"), []).
Proof.
  intros H Hm. apply _str_to_spec_Ok in H. destruct H as [d1 [H1 H2]].
  destruct (dict_mem d (KStr "type")) eqn:Et.
  - destruct H1 as [t [Ht ->]].
    assert (Hr : exists d2, r = VDict d2 /\ dict_get d2 (KStr "type") = Some t).
    { destruct (dict_mem (dict_set d (KStr "type") t) (KStr "validator")).
      - destruct H2 as [v [_ ->]]. eexists. split; [reflexivity|].
        rewrite dict_get_set_other by discriminate. apply dict_get_set_same.
      - subst r. eexists. split; [reflexivity|]. apply dict_get_set_same. }
    destruct Hr as [d2 [-> Hg]].
    unfold _str_to_spec. change (spec_key 0) with "type".
    change (py_in "type" (VDict d2)) with (Ok (dict_mem d2 (KStr "type"))).
    rewrite bind_lift_Ok, (dict_get_mem _ _ Hg).
    rewrite (@_type_getattr_Err NS d2 t _ Hg
               (@_type_Ok_not_name NS (VDict d) t w (NS_types NS) Ht)).
    reflexivity.
  - destruct H1 as [-> _]. destruct Hm as [Hm | Hm]; [discriminate|].
    rewrite Hm in H2. destruct H2 as [v [Hv ->]].
    apply _validator_Ok in Hv.
    destruct Hv as [d' [nm [func [kw [_ [_ [_ [_ ->]]]]]]]].
    unfold _str_to_spec.
    change (spec_key 0) with "type". change (spec_key 2) with "validator".
    match goal with |- context [py_in "type" (VDict ?d2)] =>
      change (py_in "type" (VDict d2)) with (Ok (dict_mem d2 (KStr "type")))
    end.
    rewrite bind_lift_Ok, dict_mem_set_other, Et by discriminate.
    unfold ret. rewrite bind_Ok_l. cbv beta.
    match goal with |- context [py_in "validator" (VDict ?d2)] =>
      change (py_in "validator" (VDict d2))
        with (Ok (dict_mem d2 (KStr "validator")))
    end.
    rewrite bind_lift_Ok.
    unfold dict_mem at 1. rewrite dict_get_set_same.
    unfold _validator. change (spec_key 2) with "validator".
    simpl py_getitem. rewrite dict_get_set_same. reflexivity.
Qed.

Lemma str_to_spec_twice_raises_witness :
  _str_to_spec NS0 (KStr "b") (VDict [(KStr "type", VRegType "T")])
  = (Err (TypeError "attribute name must be string"), []).
Proof.
  apply (@str_to_spec_twice_raises NS0 (KStr "a") (KStr "b")
           [(KStr "type", VStr "T")] _ []).
  - reflexivity.
  - left. reflexivity.
Defined.

(** ** Warnings *)

Lemma warnings_bind {A B} (m : M A) (f : A -> M B) :
  warnings (bind m f)
  = warnings m ++ match outcome m with
                  | Ok a => warnings (f a)
                  | Err _ => []
                  end.
Proof.
  destruct m as [[a|e] w]; simpl; [|now rewrite app_nil_r].
  now destruct (f a).
Qed.

Lemma _type_warnings (NS : namespace) (d : list (key * pyval)) :
  warnings (_type NS (VDict d))
  = if ambiguous_opts NS d
    then [UserWarning_ambiguous_option (get_or d "opts" VNone)] else [].
Proof.
  unfold _type, ambiguous_opts.
  change (py_get (VDict d) (spec_key 1) VNone)
    with (Ok (get_or d "opts" VNone)).
  rewrite bind_lift_Ok. change (spec_key 0) with "type".
  generalize (get_or d "opts" VNone) as o. intro o.
  unfold py_getitem.
  destruct (dict_get d (KStr "type")) as [t|];
    [|destruct (truthy o), (is_Sequence o), (is_dict o); reflexivity].
  rewrite !bind_lift_Ok.
  assert (Hg : forall r, getattr (NS_types NS) t = r ->
             match t with
             | VStr n => existsb (String.eqb n) (NS_types NS)
             | _ => false
             end = match r with Ok _ => true | Err _ => false end).
  { intros r <-. destruct t; try reflexivity. simpl.
    now destruct (existsb (String.eqb s) (NS_types NS)). }
  specialize (Hg _ eq_refl). rewrite Hg.
  destruct (getattr (NS_types NS) t) as [n|e];
    [|destruct (truthy o), (is_Sequence o), (is_dict o); reflexivity].
  rewrite !bind_lift_Ok.
  destruct (truthy o), (is_Sequence o), (is_dict o); simpl;
    try reflexivity;
    try (destruct (tuple_of o); reflexivity);
    try (destruct (kwargs_of o); reflexivity).
Qed.

Lemma _str_to_spec_warnings (NS : namespace) (k : key)
  (d : list (key * pyval)) :
  warnings (_str_to_spec NS k (VDict d)) = warnings (_type NS (VDict d)).
Proof.
  assert (Hrest : forall value,
    warnings (has_validator <- lift (py_in (spec_key 2) value) ;;
              value <- (if has_validator : bool then
                          v <- lift (_validator NS k value) ;;
                          lift (py_setitem value (spec_key 2) v)
                        else ret value) ;;
              ret value) = []).
  { intro value. destruct (py_in (spec_key 2) value) as [[|]|e];
      [| reflexivity | reflexivity].
    rewrite bind_lift_Ok.
    destruct (_validator NS k value) as [v|e]; [|reflexivity].
    rewrite bind_lift_Ok.
    destruct (py_setitem value (spec_key 2) v); reflexivity. }
  rewrite _type_warnings.
  unfold _str_to_spec. change (spec_key 0) with "type".
  change (py_in "type" (VDict d)) with (Ok (dict_mem d (KStr "type"))).
  rewrite bind_lift_Ok, warnings_bind.
  match goal with |- _ ++ ?tail = _ => assert (Htail : tail = []) end.
  { match goal with |- match ?o with _ => _ end = [] => destruct o end;
      [apply Hrest | reflexivity]. }
  rewrite Htail, app_nil_r. clear Htail.
  destruct (dict_mem d (KStr "type")) eqn:Et.
  - rewrite warnings_bind, _type_warnings.
    match goal with |- _ ++ ?tail = _ => assert (Htail : tail = []) end.
    { match goal with |- match ?o with _ => _ end = [] => destruct o end;
        reflexivity. }
    now rewrite Htail, app_nil_r.
  - unfold ambiguous_opts. unfold dict_mem in Et.
    destruct (dict_get d (KStr "type")); [discriminate | reflexivity].
Qed.

(** X11.  [_type] and [_str_to_spec] warn about a rule exactly when its type
    name is a bound string and its [opts] are truthy but neither a sequence
    nor a mapping; they then emit the one warning that names these [opts],
    whether or not the call of [_str_to_spec] goes on to return. *)
Theorem warning_only_for_ambiguous_opts (NS : namespace) (k : key)
  (d : list (key * pyval)) :
  warnings (_type NS (VDict d))
  = (if ambiguous_opts NS d
     then [UserWarning_ambiguous_option (get_or d "opts" VNone)] else [])
  /\ warnings (_str_to_spec NS k (VDict d))
     = (if ambiguous_opts NS d
        then [UserWarning_ambiguous_option (get_or d "opts" VNone)] else []).
Proof.
  split; [apply _type_warnings|].
  rewrite _str_to_spec_warnings. apply _type_warnings.
Qed.

(** X12.  [_nested_type] never emits a warning, whether it returns or
    raises: a mapping from which [_spec_to_type] makes a type has no [type]
    entry that [_type] accepts. *)
Theorem nested_type_never_warns (NS : namespace) (k : key) (value : pyval) :
  warnings (_nested_type NS k value) = [].
Proof.
  unfold _nested_type. rewrite warnings_bind. simpl.
  destruct (_spec_to_type k value []) as [t|e] eqn:Es; [|reflexivity].
  simpl. rewrite warnings_bind.
  apply _spec_to_type_Ok in Es.
  destruct Es as [d [fields [validators [-> [Hd _]]]]].
  rewrite _str_to_spec_warnings, _type_warnings.
  assert (Ha : ambiguous_opts NS d = false).
  { unfold ambiguous_opts.
    destruct (dict_get d (KStr "type")) as [v|] eqn:E; [|reflexivity].
    assert (Hin : exists k', In (k', v) d).
    { clear - E. induction d as [|[k' v'] r IH]; [discriminate|].
      simpl in E. destruct (key_eqb k' (KStr "type")).
      - inversion E; subst. exists k'. now left.
      - destruct (IH E) as [k2 Hk]. exists k2. now right. }
    destruct Hin as [k' Hin]. rewrite Forall_forall in Hd.
    destruct (Hd _ Hin) as [e [ty [Hv _]]]. simpl in Hv. now subst v. }
  rewrite Ha. simpl.
  destruct (outcome (_str_to_spec NS k (VDict d))); reflexivity.
Qed.

(** ** The type synthesizer, again *)

Lemma mapR_total {A B} (f : A -> result B) (l : list A) :
  Forall (fun a => exists b, f a = Ok b) l -> exists l', mapR f l = Ok l'.
Proof.
  induction 1 as [|a r [b Hb] _ [l' IH]]; simpl; [eauto|].
  rewrite Hb. simpl. rewrite IH. simpl. eauto.
Qed.

Lemma filterR_total {A} (f : A -> result bool) (l : list A) :
  Forall (fun a => exists b, f a = Ok b) l ->
  filterR f l = Ok (filter (fun a => match f a with
                                     | Ok b => b
                                     | Err _ => false
                                     end) l).
Proof.
  induction 1 as [|a r [b Hb] _ IH]; simpl; [reflexivity|].
  rewrite Hb. simpl. rewrite IH. reflexivity.
Qed.

Lemma validator_items_dict (e : list (key * pyval)) :
  validator_items (VDict e)
  = match dict_get e (KStr "validator") with
    | Some x => py_items x
    | None => Ok []
    end.
Proof.
  unfold validator_items, glom. simpl.
  destruct (dict_get e (KStr "validator")); reflexivity.
Qed.

Lemma field_rule_Ok (kv : key * pyval) :
  field_rule (snd kv) = true ->
  (exists b, py_in "default" (snd kv) = Ok b)
  /\ (exists f, field_of kv = Ok f)
  /\ (exists items, validator_items (snd kv) = Ok items).
Proof.
  destruct kv as [k v]. simpl. destruct v; try discriminate. simpl.
  intro H. apply andb_true_iff in H. destruct H as [Ht Hv].
  split; [eauto|]. split.
  - rewrite field_of_eq. simpl. unfold dict_mem in Ht.
    destruct (dict_get entries (KStr "type")); [|discriminate].
    simpl. eauto.
  - rewrite validator_items_dict.
    destruct (dict_get entries (KStr "validator")) as [x|]; [|eauto].
    destruct x; try discriminate. simpl. eauto.
Qed.

Lemma Forall_filter {A} (P : A -> Prop) (f : A -> bool) (l : list A) :
  Forall P l -> Forall P (filter f l).
Proof.
  rewrite !Forall_forall. intros H a Ha. apply filter_In in Ha. apply H, Ha.
Qed.

Lemma _spec_to_type_field_rules (k : key) (d : list (key * pyval))
  (bases : list base) :
  forallb (fun kv => field_rule (snd kv)) d = true ->
  exists t, _spec_to_type k (VDict d) bases = Ok t.
Proof.
  intro H. rewrite forallb_forall in H.
  assert (Hall : Forall (fun kv => field_rule (snd kv) = true) d)
    by (apply Forall_forall; exact H).
  unfold _spec_to_type. change (spec_key 6) with "default". simpl py_items.
  cbv beta iota delta [rbind].
  rewrite filterR_total.
  2:{ eapply Forall_impl; [|exact Hall]. intros kv Hkv.
      destruct (field_rule_Ok kv Hkv) as [[b Hb] _]. rewrite Hb. eauto. }
  rewrite filterR_total.
  2:{ eapply Forall_impl; [|exact Hall]. intros kv Hkv.
      destruct (field_rule_Ok kv Hkv) as [[b Hb] _]. eauto. }
  match goal with |- context [mapR field_of ?l] =>
    destruct (@mapR_total _ _ field_of l) as [fields Hf]
  end.
  { apply Forall_app. split; apply Forall_filter;
      (eapply Forall_impl; [|exact Hall]); intros kv Hkv;
      now destruct (field_rule_Ok kv Hkv) as [_ [Hf _]]. }
  rewrite Hf.
  destruct (@mapR_total _ _ validator_items (map snd d)) as [vs Hv].
  { apply Forall_forall. intros v Hin. apply in_map_iff in Hin.
    destruct Hin as [kv [<- Hin]].
    now destruct (field_rule_Ok kv (H _ Hin)) as [_ [_ Hv]]. }
  rewrite Hv. eauto.
Qed.

Lemma Forall2_Forall_l {A B} (R : A -> B -> Prop) (l : list A) (l' : list B) :
  Forall2 R l l' -> Forall (fun a => exists b, R a b) l.
Proof. induction 1; constructor; eauto. Qed.

(** C4.  [_spec_to_type] makes a type of every mapping of field rules, and
    whenever it makes a type the fields are named, in order, by the keys of
    the entries without a [default], in the order of the mapping, followed by
    the keys of the entries with a [default], in the order of the mapping.
    In particular [{a: {type: T}, b: {type: U, default: d}}] and the same
    mapping with [b] declared first both give the fields [a], [b]. *)
Theorem C4_field_order (k : key) (bases : list base) :
  (forall d,
     forallb (fun kv => field_rule (snd kv)) d = true ->
     exists fields ns,
       _spec_to_type k (VDict d) bases
       = Ok (VDataconfig (type_name k) fields ns bases)
       /\ map field_name fields =
          map (fun kv => val_of_key (fst kv))
              (filter (fun kv => negb (has_default (snd kv))) d
               ++ filter (fun kv => has_default (snd kv)) d))
  /\ (forall d t,
        _spec_to_type k (VDict d) bases = Ok t ->
        exists fields ns,
          t = VDataconfig (type_name k) fields ns bases
          /\ map field_name fields =
             map (fun kv => val_of_key (fst kv))
                 (filter (fun kv => negb (has_default (snd kv))) d
                  ++ filter (fun kv => has_default (snd kv)) d))
  /\ (forall T U dv : pyval,
        let a := (KStr "a", VDict [(KStr "type", T)]) in
        let b := (KStr "b", VDict [(KStr "type", U); (KStr "default", dv)]) in
        let t := VDataconfig (type_name k)
                   [VTuple [VStr "a"; T]; VTuple [VStr "b"; U; dv]] []
                   bases in
        _spec_to_type k (VDict [a; b]) bases = Ok t
        /\ _spec_to_type k (VDict [b; a]) bases = Ok t).
Proof.
  assert (Horder : forall d t,
    _spec_to_type k (VDict d) bases = Ok t ->
    exists fields ns,
      t = VDataconfig (type_name k) fields ns bases
      /\ map field_name fields =
         map (fun kv => val_of_key (fst kv))
             (filter (fun kv => negb (has_default (snd kv))) d
              ++ filter (fun kv => has_default (snd kv)) d)).
  { intros d t H. apply _spec_to_type_Ok in H.
    destruct H as [d' [fields [validators [E [_ [Hf [_ ->]]]]]]].
    inversion E; subst d'.
    exists fields, (dict_of_items (List.concat validators)).
    split; [reflexivity|].
    induction Hf as [|kv f l fs Hkv _ IH]; [reflexivity|].
    simpl. now rewrite IH, (field_of_name _ Hkv). }
  split; [|split; [exact Horder|]].
  - intros d Hd.
    destruct (@_spec_to_type_field_rules k d bases Hd) as [t Ht].
    destruct (Horder d t Ht) as [fields [ns [-> Hn]]].
    now exists fields, ns.
  - intros T U dv. split; reflexivity.
Qed.

Lemma C4_field_order_witness :
  exists fields ns,
    _spec_to_type (KStr "config") (VDict fields_b_a) []
    = Ok (VDataconfig (type_name (KStr "config")) fields ns [])
    /\ map field_name fields = [VStr "a"; VStr "b"].
Proof.
  exact (proj1 (@C4_field_order (KStr "config") []) fields_b_a eq_refl).
Defined.

(** X13.  [_spec_to_type] returns a type exactly for a mapping all of whose
    values are mappings that have a [type] entry and, if they have a
    [validator] entry, a mapping there; the key and the bases play no part.
    The factory [make_dataconfig] is taken to make the class of what it is
    given. *)
Theorem spec_to_type_returns_iff (k : key) (value : pyval)
  (bases : list base) :
  (exists t, _spec_to_type k value bases = Ok t)
  <-> (exists d, value = VDict d
                 /\ forallb (fun kv => field_rule (snd kv)) d = true).
Proof.
  split.
  - intros [t H]. apply _spec_to_type_Ok in H.
    destruct H as [d [fields [validators [-> [Hd [_ [Hv _]]]]]]].
    exists d. split; [reflexivity|].
    apply forallb_forall. intros kv Hin.
    rewrite Forall_forall in Hd. destruct (Hd _ Hin) as [e [ty [Hkv Hty]]].
    apply mapR_Ok, Forall2_Forall_l in Hv. rewrite Forall_forall in Hv.
    destruct (Hv (snd kv)) as [items Hi]; [now apply in_map|].
    rewrite Hkv in Hi |- *. simpl. rewrite (dict_get_mem _ _ Hty). simpl.
    rewrite validator_items_dict in Hi.
    destruct (dict_get e (KStr "validator")) as [x|]; [|reflexivity].
    now destruct x.
  - intros [d [-> H]]. now apply _spec_to_type_field_rules.
Qed.

Lemma mapR_raises {A B} (f : A -> result B) (l : list A) (e : exn) :
  (forall a, In a l -> (exists b, f a = Ok b) \/ f a = Err e) ->
  (exists a, In a l /\ f a = Err e) ->
  mapR f l = Err e.
Proof.
  induction l as [|a r IH]; intros Hall [x [Hin Hx]]; [contradiction|].
  simpl. destruct (Hall a (or_introl eq_refl)) as [[b Hb] | Ha].
  - rewrite Hb. simpl.
    destruct Hin as [-> | Hin]; [congruence|].
    rewrite IH; [reflexivity | | eauto].
    intros y Hy. apply Hall. now right.
  - now rewrite Ha.
Qed.

(** X14.  For a mapping of mappings one of which has no [type] entry,
    [_spec_to_type] raises the access error of [glom] for the segment
    [type]. *)
Theorem spec_to_type_missing_type (k : key) (d : list (key * pyval))
  (bases : list base) :
  (forall kv, In kv d -> is_dict (snd kv) = true) ->
  (exists kc e, In (kc, VDict e) d /\ dict_mem e (KStr "type") = false) ->
  _spec_to_type k (VDict d) bases = Err (PathAccessError "type").
Proof.
  intros Hd [kc [e [Hin He]]].
  assert (Hall : Forall (fun kv => exists c, snd kv = VDict c) d).
  { apply Forall_forall. intros kv Hkv. specialize (Hd _ Hkv).
    destruct (snd kv); try discriminate. eauto. }
  unfold _spec_to_type. change (spec_key 6) with "default". simpl py_items.
  cbv beta iota delta [rbind].
  rewrite filterR_total.
  2:{ eapply Forall_impl; [|exact Hall]. intros kv [c ->]. simpl. eauto. }
  rewrite filterR_total.
  2:{ eapply Forall_impl; [|exact Hall]. intros kv [c ->]. simpl. eauto. }
  rewrite (@mapR_raises _ _ field_of _ (PathAccessError "type"));
    [reflexivity | |].
  - intros [k0 v0] Hkv. apply in_app_or in Hkv.
    assert (Hkv' : In (k0, v0) d)
      by (destruct Hkv as [H|H]; apply filter_In in H; tauto).
    rewrite Forall_forall in Hall. destruct (Hall _ Hkv') as [c Hc].
    simpl in Hc. subst v0. rewrite field_of_eq. simpl.
    destruct (dict_get c (KStr "type")); simpl; eauto.
  - exists (kc, VDict e). split.
    + apply in_or_app. simpl.
      destruct (dict_mem e (KStr "default")) eqn:Ed; [right | left];
        apply filter_In; (split; [exact Hin|]); simpl; now rewrite Ed.
    + rewrite field_of_eq. simpl. unfold dict_mem in He.
      destruct (dict_get e (KStr "type")); [discriminate | reflexivity].
Qed.

Lemma spec_to_type_missing_type_witness :
  _spec_to_type (KStr "config")
    (VDict [(KStr "a", VDict [(KStr "type", VRegType "T")]);
            (KStr "b", VDict [(KStr "default", VInt 0)])]) []
  = Err (PathAccessError "type").
Proof.
  apply spec_to_type_missing_type.
  - intros kv [<- | [<- | []]]; reflexivity.
  - exists (KStr "b"), [(KStr "default", VInt 0)].
    split; [simpl; tauto | reflexivity].
Defined.

(** ** The namespace *)

Lemma dict_get_app (a b : list (key * pyval)) (k : key) :
  dict_get (a ++ b) k = match dict_get a k with
                        | Some v => Some v
                        | None => dict_get b k
                        end.
Proof.
  induction a as [|[k' v'] r IH]; simpl; [reflexivity|].
  now destruct (key_eqb k' k).
Qed.

(** [dict(pairs)] binds a key to the value of its last pair. *)
Lemma dict_get_fold_set (items acc : list (key * pyval)) (k : key) :
  dict_get (fold_left (fun d kv => dict_set d (fst kv) (snd kv)) items acc) k
  = match dict_get (rev items) k with
    | Some v => Some v
    | None => dict_get acc k
    end.
Proof.
  revert acc. induction items as [|[k0 v0] r IH]; intro acc; [reflexivity|].
  simpl. rewrite IH, dict_get_app. simpl.
  destruct (dict_get (rev r) k); [reflexivity|].
  destruct (key_eqb k0 k) eqn:E.
  - apply key_eqb_eq in E. subst. apply dict_get_set_same.
  - apply dict_get_set_other. now apply key_eqb_neq.
Qed.

Lemma dict_get_In_Some (d : list (key * pyval)) (k : key) (v : pyval) :
  dict_get d k = Some v -> In (k, v) d.
Proof.
  induction d as [|[k' v'] r IH]; simpl; [discriminate|].
  destruct (key_eqb k' k) eqn:E.
  - apply key_eqb_eq in E. intros [= ->]. left. now subst.
  - intro H. right. now apply IH.
Qed.

Lemma dict_get_None_In (d : list (key * pyval)) (k : key) :
  (forall v, ~ In (k, v) d) -> dict_get d k = None.
Proof.
  intro H. destruct (dict_get d k) as [v|] eqn:E; [|reflexivity].
  exfalso. exact (H v (dict_get_In_Some _ _ E)).
Qed.

Lemma Forall2_app_inv_mid {A B} (R : A -> B -> Prop) (l1 : list A) (a : A)
  (l2 : list A) (l' : list B) :
  Forall2 R (l1 ++ a :: l2) l' ->
  exists l1' b l2', l' = l1' ++ b :: l2' /\ Forall2 R l1 l1' /\ R a b
                    /\ Forall2 R l2 l2'.
Proof.
  intro H. apply Forall2_app_inv_l in H.
  destruct H as [l1' [r [H1 [H2 ->]]]].
  inversion H2 as [|? b ? l2' Hab H3]; subst.
  exists l1', b, l2'. auto.
Qed.

(** X15.  In the namespace [_spec_to_type] builds, a name that the validator
    mappings of several entries bind is bound to the method of the last of
    these entries in the order of the mapping: [dict(chain(...))] keeps the
    last binding. *)
Theorem spec_to_type_last_validator_wins (k : key)
  (d1 d2 : list (key * pyval)) (kc : key) (c vs : list (key * pyval))
  (f : key) (m : pyval) (bases : list base) (t : pyval) :
  _spec_to_type k (VDict (d1 ++ (kc, VDict c) :: d2)) bases = Ok t ->
  dict_get c (KStr "validator") = Some (VDict vs) ->
  In (f, m) vs -> (forall m', In (f, m') vs -> m' = m) ->
  (forall k' e vs' m', In (k', VDict e) d2 ->
                       dict_get e (KStr "validator") = Some (VDict vs') ->
                       ~ In (f, m') vs') ->
  exists fields ns,
    t = VDataconfig (type_name k) fields ns bases
    /\ dict_get ns f = Some m.
Proof.
  intros H Hc Hm Huniq Hlater. apply _spec_to_type_Ok in H.
  destruct H as [d [fields [validators [E [Hd [_ [Hv ->]]]]]]].
  inversion E; subst d. clear E.
  exists fields, (dict_of_items (List.concat validators)).
  split; [reflexivity|].
  apply mapR_Ok in Hv. rewrite map_app in Hv. simpl map in Hv.
  apply Forall2_app_inv_mid in Hv.
  destruct Hv as [v1 [items [v2 [-> [_ [Hi Hv2]]]]]].
  rewrite validator_items_dict, Hc in Hi. simpl in Hi.
  inversion Hi; subst items. clear Hi.
  unfold dict_of_items. rewrite dict_get_fold_set.
  rewrite concat_app. simpl List.concat. rewrite !rev_app_distr.
  rewrite !dict_get_app.
  assert (H2 : dict_get (rev (List.concat v2)) f = None).
  { apply dict_get_None_In. intros m' Hin. apply in_rev in Hin.
    apply in_concat in Hin. destruct Hin as [items [Hitems Hin]].
    assert (Hex : exists v, In v (map snd d2) /\ validator_items v = Ok items).
    { clear - Hv2 Hitems. induction Hv2 as [|x y l l' Hxy _ IH];
        [contradiction|].
      destruct Hitems as [<- | Hin]; [exists x; split; [now left | exact Hxy]|].
      destruct (IH Hin) as [v [Hv Hvi]]. exists v. split; [now right | exact Hvi]. }
    destruct Hex as [v [Hvin Hvi]]. apply in_map_iff in Hvin.
    destruct Hvin as [[k' v'] [Ev Hkv]]. simpl in Ev. subst v'.
    rewrite Forall_forall in Hd.
    destruct (Hd (k', v)) as [e [ty [Hve _]]];
      [apply in_or_app; right; now right|].
    simpl in Hve. subst v. rewrite validator_items_dict in Hvi.
    destruct (dict_get e (KStr "validator")) as [x|] eqn:Ex.
    - destruct x; try discriminate. simpl in Hvi. inversion Hvi; subst.
      exact (Hlater _ _ _ _ Hkv Ex Hin).
    - inversion Hvi; subst. contradiction. }
  rewrite H2.
  destruct (dict_get (rev vs) f) as [m'|] eqn:Em.
  - apply dict_get_In_Some in Em. apply in_rev in Em.
    now rewrite (Huniq _ Em).
  - exfalso. apply in_rev in Hm.
    assert (Hn : dict_get (rev vs) f <> None).
    { clear - Hm. induction (rev vs) as [|[k' v'] r IH]; [contradiction|].
      simpl. destruct (key_eqb k' f) eqn:E; [discriminate|].
      destruct Hm as [Heq | Hm]; [|now apply IH].
      inversion Heq; subst. rewrite key_eqb_refl in E. discriminate. }
    contradiction.
Qed.

Lemma spec_to_type_last_validator_wins_witness :
  exists fields ns,
    VDataconfig "config_t"
      [VTuple [VStr "a"; VRegType "T"]; VTuple [VStr "b"; VRegType "U"]]
      [(KStr "check", VClassmethod "check" (KStr "b") (VDict []) [])] []
    = VDataconfig (type_name (KStr "config")) fields ns []
    /\ dict_get ns (KStr "check")
       = Some (VClassmethod "check" (KStr "b") (VDict []) []).
Proof.
  apply (@spec_to_type_last_validator_wins (KStr "config")
           [(KStr "a",
             VDict [(KStr "type", VRegType "T");
                    (KStr "validator",
                     VDict [(KStr "check",
                             VClassmethod "check" (KStr "a") (VDict []) [])])])]
           [] (KStr "b")
           [(KStr "type", VRegType "U");
            (KStr "validator",
             VDict [(KStr "check",
                     VClassmethod "check" (KStr "b") (VDict []) [])])]
           [(KStr "check", VClassmethod "check" (KStr "b") (VDict []) [])]
           (KStr "check") (VClassmethod "check" (KStr "b") (VDict []) []) []).
  - reflexivity.
  - reflexivity.
  - now left.
  - intros m' [E | []]. now inversion E.
  - intros k' e vs' m' [].
Defined.

Lemma bind_raises {A B} (m : M A) (f : A -> M B) :
  (forall a w, m = (Ok a, w) -> exists e w', f a = (Err e, w')) ->
  exists e w, bind m f = (Err e, w).
Proof.
  destruct m as [[a|e] w]; intro H; simpl; [|eauto].
  destruct (H a w eq_refl) as [e [w' ->]]. eauto.
Qed.

(** ** Documents that are no mappings *)

Lemma is_dict_glom_assign (segs : list string) (c a c' : pyval) :
  glom_assign c segs a = Ok c' -> is_dict c' = is_dict c.
Proof.
  destruct segs as [|s [|s' r]]; [discriminate | |].
  - simpl. destruct c; simpl; try discriminate.
    + destruct (int_of_str s); [|discriminate].
      destruct (seq_assign items z a); [|discriminate].
      now intros [= <-].
    + now intros [= <-].
  - change (glom_assign c (s :: s' :: r) a)
      with (let? child := glom_get1 c s in
            let? child' := glom_assign child (s' :: r) a in
            Ok (replace_child c s child')).
    intro H. inv_run.
    match goal with H : Ok _ = Ok c' |- _ => inversion H; subst c' end.
    destruct c; try reflexivity; simpl;
      destruct (int_of_str s); try reflexivity;
      match goal with |- context [seq_assign ?l ?i ?x] =>
        destruct (seq_assign l i x) end; reflexivity.
Qed.

Lemma is_dict__update_inplace (func : key -> pyval -> M pyval)
  (c c' : pyval) (p : path) (w : list warning) :
  _update_inplace func c p = (Ok c', w) -> is_dict c' = is_dict c.
Proof.
  unfold _update_inplace. intro H. inv_run.
  eapply is_dict_glom_assign. eassumption.
Qed.

(** X16.  [get_config_t] returns no type for a document that is a list: the
    updates in place keep the top level what it is, and [_spec_to_type] asks
    it for [items]. *)
Theorem get_config_t_needs_mapping (NS : namespace)
  (iter : list path -> list path) (l : list pyval) :
  exists e w, get_config_t NS iter (VList l) = Some (Err e, w).
Proof.
  pose (conf := VList l).
  assert (H : is_dict conf = false) by reflexivity.
  change (VList l) with conf. clearbody conf.
  rewrite get_config_t_schedule.
  assert (Hx : forall m : M pyval,
             (exists e w, m = (Err e, w)) ->
             exists e w, Some m = Some (Err e, w)).
  { intros m [e [w ->]]. eauto. }
  apply Hx. clear Hx.
  apply bind_raises. intros c1 w1 E1.
  assert (H1 : is_dict c1 = false).
  { eapply (reduce_invariant (fun c => is_dict c = false)); [|exact H|exact E1].
    intros x b y w' Hx Hs. now rewrite (is_dict__update_inplace _ _ _ Hs). }
  apply bind_raises. intros c2 w2 E2.
  assert (H2 : is_dict c2 = false).
  { eapply (reduce_invariant (fun c => is_dict c = false)); [|exact H1|exact E2].
    intros x b y w' Hx Hs.
    eapply (reduce_invariant (fun c => is_dict c = false)); [|exact Hx|exact Hs].
    intros x' b' y' w'' Hx' Hs'.
    now rewrite (is_dict__update_inplace _ _ _ Hs'). }
  exists (AttributeError "items"), [].
  destruct c2; try discriminate; reflexivity.
Qed.

(** ** Flat documents *)

Lemma remap_visits_prefix (v : pyval) :
  forall p0 k0 p' k' x,
    In (p', k', x) (remap_visits p0 k0 v) ->
    exists s, enter_path p' k' = enter_path p0 k0 ++ s.
Proof.
  assert (Hstep : forall v,
    Forall (fun kv =>
      forall p0 k0 p' k' x,
        In (p', k', x) (remap_visits p0 k0 (snd kv)) ->
        exists s, enter_path p' k' = enter_path p0 k0 ++ s) (children v) ->
    forall p0 k0 p' k' x,
      In (p', k', x) (remap_visits p0 k0 v) ->
      exists s, enter_path p' k' = enter_path p0 k0 ++ s).
  { clear v. intros v IH p0 k0 p' k' x Hin.
    rewrite remap_visits_children in Hin. destruct Hin as [E | Hin].
    - inversion E; subst. exists []. now rewrite app_nil_r.
    - apply in_flat_map in Hin. destruct Hin as [[kc c] [Hkc Hin]].
      rewrite Forall_forall in IH. specialize (IH _ Hkc). simpl in IH, Hin.
      destruct (IH _ _ _ _ _ Hin) as [s Hs]. exists (kc :: s).
      rewrite Hs. simpl. now rewrite <- app_assoc. }
  induction v using pyval_nested_ind; apply Hstep; simpl;
    try constructor; try assumption;
    try match goal with
        | H : Forall _ ?l |- Forall _ (enumerate_from _ ?l) =>
            exact (@Forall_enumerate_from _ l 0%Z H)
        end.
Qed.

(** An entry below the start of a traversal lies at or below a child of the
    start. *)
Lemma remap_visits_tail (v : pyval) (p0 : path) (k0 : option key)
  (p' : path) (k' : option key) (x : pyval) :
  In (p', k', x) (tl (remap_visits p0 k0 v)) ->
  exists kc c s, In (kc, c) (children v)
                 /\ enter_path p' k' = enter_path p0 k0 ++ kc :: s.
Proof.
  rewrite remap_visits_children. simpl tl. intro Hin.
  apply in_flat_map in Hin. destruct Hin as [[kc c] [Hkc Hin]]. simpl in Hin.
  destruct (remap_visits_prefix _ _ _ _ _ _ Hin) as [s Hs].
  exists kc, c, s. split; [exact Hkc|]. rewrite Hs. simpl.
  now rewrite <- app_assoc.
Qed.

Lemma is_spec_key_In (k : key) :
  is_spec_key k = true <-> exists r, k = KStr r /\ In r _type_spec.
Proof.
  destruct k as [s|z]; unfold is_spec_key.
  - rewrite existsb_exists. split.
    + intros [r [Hr E]]. apply String.eqb_eq in E. subst r. eauto.
    + intros [r [E Hr]]. inversion E; subst r. exists s.
      split; [exact Hr | apply String.eqb_refl].
  - split; [discriminate | intros [r [E _]]; discriminate].
Qed.

Lemma flat_document_In (d : list (key * pyval)) (k : key) (v : pyval) :
  flat_document d = true -> In (k, v) d ->
  plain_key k = true /\ is_spec_key k = false /\ flat_rule v = true
  /\ dict_get d k = Some v.
Proof.
  unfold flat_document. intros H Hin.
  apply andb_true_iff in H. destruct H as [Hall Hdis].
  rewrite forallb_forall in Hall. specialize (Hall _ Hin). simpl in Hall.
  apply andb_true_iff in Hall. destruct Hall as [Hall Hr].
  apply andb_true_iff in Hall. destruct Hall as [Hp Hs].
  apply negb_true_iff in Hs. repeat split; try assumption.
  now apply dict_get_In.
Qed.

(** The node paths of a flat document are its names. *)
Lemma flat_nodes (d : list (key * pyval)) (p : path) :
  flat_document d = true ->
  (In p (_nodes (VDict d)) <-> exists k v, In (k, v) d /\ p = [k]).
Proof.
  intro Hflat. rewrite _nodes_In. split.
  - intros [p' [k' [v' [Hin [-> Hfree]]]]].
    rewrite remap_visits_children in Hin.
    destruct Hin as [E | Hin]; [discriminate|].
    apply in_flat_map in Hin. destruct Hin as [[kc c] [Hkc Hin]].
    simpl in Hin, Hkc. rewrite remap_visits_children in Hin.
    destruct Hin as [E | Hin].
    + inversion E; subst. now exists k', v'.
    + exfalso.
      assert (Ht : In (p', Some k', v') (tl (remap_visits [] (Some kc) c)))
        by (rewrite remap_visits_children; exact Hin).
      apply remap_visits_tail in Ht.
      destruct Ht as [k2 [c2 [s [Hk2 Hs]]]]. simpl in Hs.
      destruct (@flat_document_In d kc c Hflat Hkc) as [_ [_ [Hr _]]].
      destruct c; simpl in Hk2, Hr; try contradiction; try discriminate.
      rewrite forallb_forall in Hr. specialize (Hr _ Hk2). simpl in Hr.
      apply is_spec_key_In in Hr. destruct Hr as [r [-> Hr]].
      apply (Hfree r Hr). rewrite Hs. right. now left.
  - intros [k [v [Hin ->]]]. exists [], k, v.
    split; [|split; [reflexivity|]].
    + rewrite remap_visits_children. right. apply in_flat_map.
      exists (k, v). split; [exact Hin|]. simpl.
      rewrite remap_visits_children. now left.
    + destruct (@flat_document_In d k v Hflat Hin) as [_ [Hs _]].
      intros r Hr [E | []]. subst k.
      assert (Ht : is_spec_key (KStr r) = true)
        by (apply is_spec_key_In; eauto).
      congruence.
Qed.

(** Every name of a flat document is a leaf. *)
Lemma flat_leaves (d : list (key * pyval)) (p : path) :
  flat_document d = true ->
  (In p (_leaves (_nodes (VDict d))) <-> In p (_nodes (VDict d))).
Proof.
  intro Hflat. split; [apply _leaves_incl|]. intro Hp.
  apply _leaves_In. split; [exact Hp|]. apply _is_leaf_spec.
  intros q Hq Hne.
  apply (@flat_nodes d p Hflat) in Hp. destruct Hp as [k [v [_ ->]]].
  apply (@flat_nodes d q Hflat) in Hq. destruct Hq as [k2 [v2 [_ ->]]].
  simpl. destruct (key_eqb k k2) eqn:E; [|reflexivity].
  apply key_eqb_eq in E. congruence.
Qed.

Lemma filter_none {A} (f : A -> bool) (l : list A) :
  (forall a, In a l -> f a = false) -> filter f l = [].
Proof.
  induction l as [|a r IH]; intro H; [reflexivity|].
  simpl. rewrite (H a (or_introl eq_refl)). apply IH.
  intros b Hb. apply H. now right.
Qed.

(** The loop of [get_config_t] has no round for a flat document. *)
Lemma flat_schedule (d : list (key * pyval)) :
  flat_document d = true -> schedule (VDict d) = [].
Proof.
  intro Hflat. unfold schedule, first_ring.
  assert (E : set_diff (_nodes (VDict d)) (_leaves (_nodes (VDict d))) = []).
  { unfold set_diff. apply filter_none. intros p Hp.
    apply negb_false_iff. apply set_mem_In. now apply (@flat_leaves d p Hflat). }
  rewrite E. reflexivity.
Qed.

Lemma dict_mem_keys (a b : list (key * pyval)) (k : key) :
  map fst a = map fst b -> dict_mem a k = dict_mem b k.
Proof.
  unfold dict_mem. revert b.
  induction a as [|[k1 v1] r IH]; intros [|[k2 v2] r'] E; try discriminate;
    [reflexivity|].
  simpl in E. inversion E; subst. simpl.
  destruct (key_eqb k2 k); [reflexivity | now apply IH].
Qed.

Lemma distinct_keys_keys (a b : list (key * pyval)) :
  map fst a = map fst b -> distinct_keys a = distinct_keys b.
Proof.
  revert b.
  induction a as [|[k1 v1] r IH]; intros [|[k2 v2] r'] E; try discriminate;
    [reflexivity|].
  simpl in E. inversion E; subst. simpl.
  now rewrite (@dict_mem_keys r r' k2 H1), (IH _ H1).
Qed.

(** Two mappings with the same keys in the same order, pairwise distinct,
    and the same value at every key are the same mapping. *)
Lemma dict_ext (a b : list (key * pyval)) :
  map fst a = map fst b -> distinct_keys a = true ->
  (forall k, dict_mem a k = true -> dict_get a k = dict_get b k) -> a = b.
Proof.
  revert b.
  induction a as [|[k1 v1] r IH]; intros [|[k2 v2] r'] E Hd Hg;
    try discriminate; [reflexivity|].
  simpl in E. inversion E; subst. simpl in Hd.
  apply andb_true_iff in Hd. destruct Hd as [Hk Hr].
  apply negb_true_iff in Hk.
  pose proof (Hg k2) as H2. unfold dict_mem in H2. simpl in H2.
  rewrite key_eqb_refl in H2. specialize (H2 eq_refl). inversion H2; subst.
  f_equal. apply IH; [assumption | assumption |].
  intros k Hm. specialize (Hg k). unfold dict_mem in Hg. simpl in Hg.
  destruct (key_eqb k2 k) eqn:Ek.
  - apply key_eqb_eq in Ek. subst k. congruence.
  - apply Hg. exact Hm.
Qed.

Lemma last_key_single (k : key) : last_key [k] = Ok k.
Proof. reflexivity. Qed.

(** The fold over names of a mapping, each taken once: the rules of these
    names are replaced by their resolutions, the others stay. *)
Lemma reduce_flat (NS : namespace) (ls : list path) :
  forall dc,
    NoDup ls ->
    (forall p, In p ls ->
       exists k v r w, p = [k] /\ plain_key k = true
                       /\ dict_get dc k = Some v
                       /\ _str_to_spec NS k v = (Ok r, w)) ->
    exists dc' w,
      reduce (_update_inplace (_str_to_spec NS)) ls (VDict dc)
      = (Ok (VDict dc'), w)
      /\ map fst dc' = map fst dc
      /\ (forall k v, In [k] ls -> dict_get dc k = Some v ->
            exists r w', _str_to_spec NS k v = (Ok r, w')
                         /\ dict_get dc' k = Some r)
      /\ (forall k, ~ In [k] ls -> dict_get dc' k = dict_get dc k).
Proof.
  induction ls as [|p rest IH]; intros dc Hnd Hall.
  - exists dc, []. split; [reflexivity|]. split; [reflexivity|].
    split; [intros k v []|reflexivity].
  - inversion Hnd as [|? ? Hnotin Hnd']; subst.
    destruct (Hall p (or_introl eq_refl)) as [k [v [r [w [-> [Hk [Hg Hs]]]]]]].
    destruct (plain_key_str _ Hk) as [Ek _].
    assert (Hstep : _update_inplace (_str_to_spec NS) (VDict dc) [k]
                    = (Ok (VDict (dict_set dc k r)), w)).
    { destruct (@_update_inplace_at_value (_str_to_spec NS) (VDict dc) v [k])
        as [k' [Hl ->]].
      - discriminate.
      - simpl. now rewrite (glom_key_plain _ Hk).
      - rewrite Ek. simpl. rewrite <- Ek. now rewrite Hg.
      - rewrite last_key_single in Hl. inversion Hl; subst k'.
        rewrite Hs. simpl. rewrite <- Ek, app_nil_r. reflexivity. }
    destruct (IH (dict_set dc k r) Hnd') as [dc' [w' [Hr [Hkeys [Hin Hout]]]]].
    { intros q Hq. destruct (Hall q (or_intror Hq))
        as [k2 [v2 [r2 [w2 [-> [Hk2 [Hg2 Hs2]]]]]]].
      exists k2, v2, r2, w2. repeat split; try assumption.
      rewrite dict_get_set_other; [exact Hg2|].
      intros ->. contradiction. }
    exists dc', (w ++ w'). split; [|split; [|split]].
    + simpl reduce. rewrite Hstep. simpl. now rewrite Hr.
    + rewrite Hkeys. apply dict_set_keys. now apply (dict_get_mem _ _ Hg).
    + intros k0 v0 [E | Hk0] Hg0.
      * inversion E; subst k0. rewrite Hg in Hg0. inversion Hg0; subst v0.
        exists r, w. split; [exact Hs|].
        rewrite Hout by assumption. apply dict_get_set_same.
      * apply Hin; [exact Hk0|].
        rewrite dict_get_set_other; [exact Hg0|].
        intros ->. contradiction.
    + intros k0 Hk0. rewrite Hout by (intro; apply Hk0; now right).
      apply dict_get_set_other. intros ->. apply Hk0. now left.
Qed.

Lemma resolves_to_get (NS : namespace) (d rs : list (key * pyval)) (k : key)
  (v : pyval) :
  Forall2 (resolves_to NS) d rs -> dict_get d k = Some v ->
  exists r w, dict_get rs k = Some r /\ _str_to_spec NS k v = (Ok r, w).
Proof.
  induction 1 as [|[k1 v1] [k2 r2] l l' [Hk [w Hs]] _ IH]; [discriminate|].
  simpl in Hk, Hs. subst k2. simpl.
  destruct (key_eqb k1 k) eqn:E.
  - apply key_eqb_eq in E. subst k1. intros [= ->]. eauto.
  - exact IH.
Qed.

Lemma resolves_to_keys (NS : namespace) (d rs : list (key * pyval)) :
  Forall2 (resolves_to NS) d rs -> map fst rs = map fst d.
Proof.
  induction 1 as [|kv kv' l l' [Hk _] _ IH]; [reflexivity|].
  simpl. now rewrite Hk, IH.
Qed.

Lemma dict_mem_In (d : list (key * pyval)) (k : key) :
  dict_mem d k = true -> exists v, dict_get d k = Some v /\ In (k, v) d.
Proof.
  unfold dict_mem. destruct (dict_get d k) as [v|] eqn:E; [|discriminate].
  intros _. exists v. split; [reflexivity | now apply dict_get_In_Some].
Qed.

(** The fold over the leaves of a flat document, in any order, replaces
    every rule by its resolution. *)
Lemma flat_fold (NS : namespace) (iter : list path -> list path)
  (d rs : list (key * pyval)) :
  flat_document d = true ->
  (forall s, Permutation (iter s) s) ->
  Forall2 (resolves_to NS) d rs ->
  exists w,
    reduce (_update_inplace (_str_to_spec NS))
      (iter (_leaves (_nodes (VDict d)))) (VDict d) = (Ok (VDict rs), w).
Proof.
  intros Hflat Hperm Hres.
  set (ls := iter (_leaves (_nodes (VDict d)))).
  assert (Hls : forall p, In p ls <-> exists k v, In (k, v) d /\ p = [k]).
  { intro p. unfold ls. rewrite <- (@flat_nodes d p Hflat), <- (@flat_leaves d p Hflat).
    split; apply Permutation_in; [apply Hperm | symmetry; apply Hperm]. }
  destruct (@reduce_flat NS ls d) as [dc' [w [Hr [Hkeys [Hin Hout]]]]].
  - apply (Permutation_NoDup (l := _leaves (_nodes (VDict d))));
      [symmetry; apply Hperm | apply set_of_NoDup].
  - intros p Hp. apply Hls in Hp. destruct Hp as [k [v [Hkv ->]]].
    destruct (@flat_document_In d k v Hflat Hkv) as [Hk [_ [_ Hg]]].
    destruct (@resolves_to_get NS d rs k v Hres Hg) as [r [w [_ Hs]]].
    now exists k, v, r, w.
  - exists w. rewrite Hr. assert (E : dc' = rs); [|now rewrite E].
    apply dict_ext.
    + rewrite Hkeys. symmetry. now apply (@resolves_to_keys NS d rs Hres).
    + rewrite (@distinct_keys_keys dc' d Hkeys). unfold flat_document in Hflat.
      apply andb_true_iff in Hflat. tauto.
    + intros k Hm. rewrite (@dict_mem_keys dc' d k Hkeys) in Hm.
      apply dict_mem_In in Hm. destruct Hm as [v [Hg Hkv]].
      destruct (Hin k v) as [r [w1 [Hs1 Hg1]]];
        [apply Hls; eauto | exact Hg |].
      destruct (@resolves_to_get NS d rs k v Hres Hg) as [r2 [w2 [Hg2 Hs2]]].
      rewrite Hg1, Hg2. congruence.
Qed.

Lemma _str_to_spec_field_rule (NS : namespace) (k : key)
  (e : list (key * pyval)) (r : pyval) (w : list warning) :
  dict_mem e (KStr "type") = true ->
  _str_to_spec NS k (VDict e) = (Ok r, w) -> field_rule r = true.
Proof.
  intros Ht H. apply _str_to_spec_Ok in H. destruct H as [d1 [H1 H2]].
  rewrite Ht in H1. destruct H1 as [t [_ ->]].
  destruct (dict_mem (dict_set e (KStr "type") t) (KStr "validator")) eqn:Ev.
  - destruct H2 as [v [Hv ->]]. apply _validator_Ok in Hv.
    destruct Hv as [d' [nm [func [kw [_ [_ [_ [_ ->]]]]]]]].
    simpl. unfold dict_mem.
    rewrite dict_get_set_other by discriminate.
    rewrite !dict_get_set_same. reflexivity.
  - subst r. simpl. unfold dict_mem in *. rewrite dict_get_set_same.
    now destruct (dict_get (dict_set e (KStr "type") t) (KStr "validator")).
Qed.

(** X17.  For a flat document, whose names are pairwise distinct strings
    without a dot, no wildcards of glom and no type spec keys, and whose
    rules are made of type spec keys, the loop of [get_config_t] has no round, and in every
    iteration order the outcome of the call is that of [_spec_to_type] on the
    mapping of the resolved rules, with the base [_ConfigIO].  It is a type
    when every rule is a mapping with a [type] entry. *)
Theorem get_config_t_flat (NS : namespace) (iter : list path -> list path)
  (d rs : list (key * pyval)) :
  flat_document d = true ->
  (forall s, Permutation (iter s) s) ->
  Forall2 (resolves_to NS) d rs ->
  (exists w,
     get_config_t NS iter (VDict d)
     = Some (_spec_to_type (KStr "config") (VDict rs) [ConfigIO], w))
  /\ ((forall kv, In kv d -> py_in "type" (snd kv) = Ok true
                             /\ is_dict (snd kv) = true) ->
      exists t, _spec_to_type (KStr "config") (VDict rs) [ConfigIO] = Ok t).
Proof.
  intros Hflat Hperm Hres. split.
  - destruct (@flat_fold NS iter d rs Hflat Hperm Hres) as [w Hw]. exists w.
    rewrite get_config_t_schedule, (@flat_schedule d Hflat).
    unfold deepcopy. rewrite Hw. simpl.
    now rewrite !app_nil_r.
  - intro Htype. apply _spec_to_type_field_rules.
    apply forallb_forall. intros [k' r] Hin.
    assert (Hex : exists kv, In kv d /\ resolves_to NS kv (k', r)).
    { clear - Hres Hin. induction Hres as [|x y l l' Hxy _ IH];
        [contradiction|].
      destruct Hin as [-> | Hin]; [exists x; split; [now left | exact Hxy]|].
      destruct (IH Hin) as [kv [Hkv Hr]]. exists kv. split; [now right | exact Hr]. }
    destruct Hex as [[k v] [Hkv [_ [w Hs]]]]. simpl in Hs |- *.
    destruct (Htype _ Hkv) as [Hty Hd]. simpl in Hty, Hd.
    destruct v; try discriminate. simpl in Hty. injection Hty as Hm.
    exact (@_str_to_spec_field_rule NS k entries r w Hm Hs).
Qed.

Lemma get_config_t_flat_witness :
  (exists w,
     get_config_t NS0 in_reverse (VDict doc_flat)
     = Some (_spec_to_type (KStr "config") (VDict doc_flat_resolved) [ConfigIO],
             w))
  /\ exists t,
       _spec_to_type (KStr "config") (VDict doc_flat_resolved) [ConfigIO]
       = Ok t.
Proof.
  pose proof (@get_config_t_flat NS0 in_reverse doc_flat doc_flat_resolved)
    as H.
  destruct H as [H1 H2].
  - reflexivity.
  - intro s. symmetry. apply Permutation_rev.
  - repeat constructor; simpl; eexists; reflexivity.
  - split; [exact H1|]. apply H2.
    intros kv [<- | [<- | []]]; split; reflexivity.
Defined.

(** ** The fold over the leaves *)

(** A step of the fold at a path that the document has. *)
Lemma _update_inplace_value_at (func : key -> pyval -> M pyval)
  (c c' : pyval) (x : path) (w : list warning) (v : pyval) :
  x <> [] -> forallb glom_key x = true -> value_at c x = Some v ->
  _update_inplace func c x = (Ok c', w) ->
  exists k r w0, last_key x = Ok k /\ func k v = (Ok r, w0)
                 /\ glom_assign c (map str_of_key x) r = Ok c'.
Proof.
  intros Hne Hk Hv E. unfold _update_inplace, glom in E.
  rewrite (split_dot_glom_keys Hne Hk) in E.
  rewrite (glom_get_value_at _ _ Hv) in E. inv_run. subst.
  match goal with
  | H : Ok _ = Ok ?a |- _ => inversion H; subst a; clear H
  end.
  eauto 6.
Qed.

(** The steps at paths that are neither above nor below a path leave the
    value at that path alone. *)
Lemma reduce_frame (func : key -> pyval -> M pyval) (ls : list path) :
  forall c c' w q r,
    NoDup ls ->
    (forall p, In p ls ->
       p <> [] /\ forallb glom_key p = true
       /\ (exists v, value_at c p = Some v)
       /\ ~ is_prefix p q /\ ~ is_prefix q p) ->
    (forall p p', In p ls -> In p' ls -> p <> p' -> ~ is_prefix p p') ->
    reduce (_update_inplace func) ls c = (Ok c', w) ->
    value_at c q = Some r -> value_at c' q = Some r.
Proof.
  induction ls as [|x rest IH]; intros c c' w q r Hnd Hall Hpair E Hq.
  - simpl in E. inversion E. now subst.
  - inversion Hnd as [|? ? Hnotin Hnd']; subst.
    simpl in E. apply bind_Ok in E.
    destruct E as [c1 [w1 [w2 [E1 [E2 _]]]]].
    destruct (Hall x (or_introl eq_refl)) as [Hne [Hk [[v Hv] [Hxq Hqx]]]].
    destruct (@_update_inplace_value_at func c c1 x w1 v Hne Hk Hv E1)
      as [k [rx [w0 [_ [_ Ha]]]]].
    destruct (@value_at_glom_assign x c v rx Hne Hv) as [c1' [Ha' [_ Hf]]].
    rewrite Ha in Ha'. inversion Ha'; subst c1'.
    apply (IH c1 c' w2 q r Hnd'); [| | exact E2 | now apply Hf].
    + intros p Hp.
      destruct (Hall p (or_intror Hp)) as [Hpne [Hpk [[vp Hvp] [H1 H2]]]].
      repeat split; try assumption.
      exists vp. apply Hf; [exact Hvp | |].
      * apply Hpair; [now left | now right | congruence].
      * apply Hpair; [now right | now left | congruence].
    + intros p p' Hp Hp'. apply Hpair; now right.
Qed.

(** After the fold over paths of which none is above another, each taken
    once, every one of them holds what the function made of its value. *)
Lemma reduce_updates (func : key -> pyval -> M pyval) (ls : list path) :
  forall c c' w,
    NoDup ls ->
    (forall p, In p ls ->
       p <> [] /\ forallb glom_key p = true
       /\ exists v, value_at c p = Some v) ->
    (forall p p', In p ls -> In p' ls -> p <> p' -> ~ is_prefix p p') ->
    reduce (_update_inplace func) ls c = (Ok c', w) ->
    forall p v, In p ls -> value_at c p = Some v ->
                exists k r w', last_key p = Ok k /\ func k v = (Ok r, w')
                               /\ value_at c' p = Some r.
Proof.
  induction ls as [|x rest IH]; intros c c' w Hnd Hall Hpair E p v Hp Hv;
    [contradiction|].
  inversion Hnd as [|? ? Hnotin Hnd']; subst.
  simpl in E. apply bind_Ok in E.
  destruct E as [c1 [w1 [w2 [E1 [E2 _]]]]].
  destruct (Hall x (or_introl eq_refl)) as [Hne [Hk [vx Hvx]]].
  destruct (@_update_inplace_value_at func c c1 x w1 vx Hne Hk Hvx E1)
    as [k [rx [w0 [Hlast [Hfunc Ha]]]]].
  destruct (@value_at_glom_assign x c vx rx Hne Hvx) as [c1' [Ha' [Hx Hf]]].
  rewrite Ha in Ha'. inversion Ha'; subst c1'.
  assert (Hrest : forall q, In q rest ->
            q <> [] /\ forallb glom_key q = true
            /\ (exists vq, value_at c1 q = Some vq)
            /\ ~ is_prefix q x /\ ~ is_prefix x q).
  { intros q Hq.
    destruct (Hall q (or_intror Hq)) as [Hqne [Hqk [vq Hvq]]].
    assert (H1 : ~ is_prefix q x)
      by (apply Hpair; [now right | now left | congruence]).
    assert (H2 : ~ is_prefix x q)
      by (apply Hpair; [now left | now right | congruence]).
    repeat split; try assumption. exists vq. now apply Hf. }
  destruct Hp as [-> | Hp].
  - rewrite Hvx in Hv. inversion Hv; subst vx.
    exists k, rx, w0. split; [exact Hlast|]. split; [exact Hfunc|].
    apply (@reduce_frame func rest c1 c' w2 p rx Hnd' Hrest); auto.
    intros q q' Hq Hq'. apply Hpair; now right.
  - apply (IH c1 c' w2 Hnd'); auto.
    + intros q Hq. destruct (Hrest q Hq) as [H1 [H2 [H3 _]]]. auto.
    + intros q q' Hq Hq'. apply Hpair; now right.
    + destruct (Hrest p Hp) as [_ [_ [_ [H1 H2]]]]. now apply Hf.
Qed.






(** X18.  When the fold of [get_config_t] over the leaves of a plain
    document has returned, in whatever order it took them, every leaf holds
    the resolution of its rule: the spec of the leaf's path leads to what
    [_str_to_spec] returns for the last key and the rule of the document. *)
Theorem leaf_fold_resolves (NS : namespace) (iter : list path -> list path)
  (conf conf' : pyval) (w : list warning) (p : path) (k : key) (v : pyval) :
  plain_doc conf = true ->
  (forall s, Permutation (iter s) s) ->
  reduce (_update_inplace (_str_to_spec NS)) (iter (_leaves (_nodes conf)))
    (deepcopy conf) = (Ok conf', w) ->
  In (p, Some k, v) (remap_visits [] None conf) ->
  In (p ++ [k]) (_leaves (_nodes conf)) ->
  exists r w', _str_to_spec NS k v = (Ok r, w')
               /\ glom conf' (_path_to_glom_spec (p ++ [k])) = Ok r.
Proof.
  intros Hc Hperm E Hvis Hleaf.
  set (ls := iter (_leaves (_nodes conf))) in *.
  assert (Hls : forall q, In q ls <-> In q (_leaves (_nodes conf))).
  { intro q. unfold ls.
    split; apply Permutation_in; [apply Hperm | symmetry; apply Hperm]. }
  assert (Hval : forall q, In q ls ->
            q <> [] /\ forallb glom_key q = true
            /\ exists vq, value_at conf q = Some vq).
  { intros q Hq. apply Hls, _leaves_incl, _nodes_In in Hq.
    destruct Hq as [q' [k' [v' [Hq [-> _]]]]].
    destruct (visited_value_at _ _ _ _ Hc Hq) as [H1 H2].
    split; [now destruct q'|]. split; [exact H1 | eauto]. }
  destruct (visited_value_at _ _ _ _ Hc Hvis) as [Hk Hv].
  destruct (@reduce_updates (_str_to_spec NS) ls conf conf' w)
    with (p := p ++ [k]) (v := v) as [k' [r [w' [Hlast [Hs Hr]]]]]; auto.
  - apply (Permutation_NoDup (l := _leaves (_nodes conf)));
      [symmetry; apply Hperm | apply set_of_NoDup].
  - intros q q' Hq Hq' Hne. apply Hls in Hq. apply Hls in Hq'.
    apply (_leaves_not_prefix _ Hq); [now apply _leaves_incl | exact Hne].
  - now apply Hls.
  - rewrite last_key_app in Hlast. inversion Hlast; subst k'.
    exists r, w'. split; [exact Hs|].
    apply glom_value_at; [now destruct p | exact Hk | exact Hr].
Qed.

Lemma leaf_fold_resolves_witness :
  exists r w',
    _str_to_spec NS0 (KInt 1) (leaf_rule "U") = (Ok r, w')
    /\ glom (VDict [(KStr "a",
                     VList [VDict [(KStr "type", VRegType "T")];
                            VDict [(KStr "type", VRegType "U")]])])
            (_path_to_glom_spec ([KStr "a"] ++ [KInt 1])) = Ok r.
Proof.
  apply (@leaf_fold_resolves NS0 in_reverse doc_list _ [] [KStr "a"] (KInt 1)
           (leaf_rule "U")).
  - reflexivity.
  - intro s. symmetry. apply Permutation_rev.
  - reflexivity.
  - simpl. tauto.
  - vm_compute. tauto.
Defined.

(** ** Leaves by key inclusion *)

(** X19.  [_is_leaf] compares sets of keys, not prefixes: a path all of
    whose keys occur in another path of the set is no leaf, even when that
    path is not below it, as for a name that is used again deeper in the
    document. *)
Theorem leaf_shadowed_by_keys (paths : list path) (p q : path) :
  In q paths -> p <> q -> incl p q ->
  _is_leaf p paths = false /\ ~ In p (_leaves paths).
Proof.
  intros Hq Hne Hincl.
  assert (Hl : _is_leaf p paths = false).
  { destruct (_is_leaf p paths) eqn:E; [|reflexivity].
    rewrite _is_leaf_spec in E.
    assert (Hs : issubset p q = true).
    { unfold issubset. apply forallb_forall. intros k Hk.
      apply existsb_exists. exists k. split; [now apply Hincl|].
      apply key_eqb_refl. }
    rewrite (E q Hq) in Hs; [discriminate | congruence]. }
  split; [exact Hl|]. intro H. apply _leaves_In in H. destruct H as [_ H].
  congruence.
Qed.

Lemma leaf_shadowed_by_keys_witness :
  _is_leaf [KStr "x"] (_nodes (VDict [(KStr "x", leaf_rule "T");
                                      (KStr "y",
                                       VDict [(KStr "x", leaf_rule "T")])]))
  = false
  /\ ~ In [KStr "x"]
          (_leaves (_nodes (VDict [(KStr "x", leaf_rule "T");
                                   (KStr "y",
                                    VDict [(KStr "x", leaf_rule "T")])]))).
Proof.
  apply (@leaf_shadowed_by_keys _ [KStr "x"] [KStr "y"; KStr "x"]).
  - vm_compute. tauto.
  - discriminate.
  - intros k [<- | []]. right. now left.
Defined.

(** ** A branch inside its parent *)

(** X20.  A branch folded by [_nested_type] gives its parent one field,
    named by the branch key and typed by the nested type, and the entries of
    the branch mapping become the namespace of the parent: [_spec_to_type]
    reads the [validator] entry of the folded branch, which is the mapping of
    its children. *)
Theorem nested_type_in_parent (NS : namespace) (k k' : key) (value r : pyval)
  (w : list warning) (bases : list base) :
  _nested_type NS k value = (Ok r, w) ->
  exists d t,
    value = VDict d
    /\ _spec_to_type k value [] = Ok t
    /\ _spec_to_type k' (VDict [(k, r)]) bases
       = Ok (VDataconfig (type_name k') [VTuple [val_of_key k; t]]
               (dict_of_items d) bases).
Proof.
  intro H. apply _nested_type_Ok in H.
  destruct H as [d [t [-> [Ht [_ [_ [-> _]]]]]]].
  exists d, t. split; [reflexivity|]. split; [exact Ht|].
  unfold _spec_to_type. simpl. now rewrite app_nil_r.
Qed.

Lemma nested_type_in_parent_witness :
  exists d t,
    VDict branch_children = VDict d
    /\ _spec_to_type (KStr "grp") (VDict branch_children) [] = Ok t
    /\ _spec_to_type (KStr "config")
         (VDict [(KStr "grp",
                  VDict [(KStr "type",
                          VDataconfig "grp_t"
                            [VTuple [VStr "x"; VRegType "T"]] [] []);
                         (KStr "validator", VDict branch_children)])])
         [ConfigIO]
       = Ok (VDataconfig (type_name (KStr "config"))
               [VTuple [val_of_key (KStr "grp"); t]]
               (dict_of_items d) [ConfigIO]).
Proof.
  apply (@nested_type_in_parent NS0 (KStr "grp") (KStr "config")
           (VDict branch_children) _ [] [ConfigIO]).
  reflexivity.
Defined.
